(** * fantasy-recap: the client's export converter and hook layer, verified

    A shallow embedding of the TypeScript sources of the single-page
    application:

    - [JsString], [Regex]: the fragment of JavaScript strings and regular
      expressions that [exportUtils.ts] relies on;
    - [ExportUtils]: [RecapExporter.exportAsMarkdown] and [sanitizeFilename];
    - [UseApi], [UseApiMutation]: the data-fetch and mutation hooks of
      [useApi.ts];
    - [Yahoo]: the authorization-code relay of [YahooLeagueConnection.tsx];
    - [WebSocketHook]: the reconnect logic of [useWebSocket.ts];
    - [RecapsOverview]: the pagination arithmetic of the recap history page;
    - [Editor]: the save / auto-save logic of [RecapEditor.tsx];
    - [Exporter], [RecapCard], [GenerateRecapModal], [RecapsPage],
      [RecapEditorPage], [LeagueSync], [YahooPanel]: what surrounds these
      in the same files, and their callers: the text export and the
      download name, the card preview, the week estimate and the
      generation form, the pagination bar and the card handlers, the page
      around the editor, the league sync hook, removing a league and the
      pasted callback URL;
    - [MarkdownDoc]: documents of headings, paragraphs and lists, to state
      what the Markdown export makes of them.

    Definitions come first, the theorems about them follow. *)

From Stdlib Require Import NArith ZArith Lia String Ascii List Bool Arith DecimalString.
From stdpp Require Import base list strings gmap.
Import ListNotations.

(* ===================================================================== *)
(** ** JavaScript strings *)
(* ===================================================================== *)

Module JsString.
Local Open Scope N_scope.

(** A JavaScript string is a sequence of UTF-16 code units. *)
Definition char := N.
Definition jsstring := list char.

(** Code units of an ASCII literal of the source. *)
Definition lit (s : string) : jsstring :=
  map N_of_ascii (list_ascii_of_string s).

Definition LT_ : char := 60%N.          (* < *)
Definition GT_ : char := 62%N.          (* > *)
Definition NL : char := 10%N.           (* \n *)
Definition UNDERSCORE : char := 95%N.   (* _ *)

Definition in_range (lo hi c : char) : bool := (lo <=? c)%N && (c <=? hi)%N.

Definition is_digit (c : char) : bool := in_range 48 57 c.
Definition is_lower (c : char) : bool := in_range 97 122 c.
Definition is_upper (c : char) : bool := in_range 65 90 c.
Definition is_ascii (c : char) : bool := (c <? 128)%N.

(** ECMAScript LineTerminator: LF, CR, LS, PS. *)
Definition is_line_terminator (c : char) : bool :=
  (c =? 10)%N || (c =? 13)%N || (c =? 8232)%N || (c =? 8233)%N.

(** ECMAScript WhiteSpace (TAB, VT, FF, SP, NBSP, ZWNBSP and category Zs). *)
Definition is_white_space (c : char) : bool :=
  (c =? 9)%N || (c =? 11)%N || (c =? 12)%N || (c =? 32)%N || (c =? 160)%N
  || (c =? 5760)%N || in_range 8192 8202 c || (c =? 8239)%N
  || (c =? 8287)%N || (c =? 12288)%N || (c =? 65279)%N.

(** What [String.prototype.trim] strips: WhiteSpace and LineTerminator. *)
Definition is_trimmed (c : char) : bool :=
  is_white_space c || is_line_terminator c.

Fixpoint trimStart (s : jsstring) : jsstring :=
  match s with
  | c :: s' => if is_trimmed c then trimStart s' else s
  | [] => []
  end.

Definition trimEnd (s : jsstring) : jsstring := rev (trimStart (rev s)).

Definition trim (s : jsstring) : jsstring := trimEnd (trimStart s).

(** [if (s.trim())]: a string is truthy when it is not empty. *)
Definition truthy (s : jsstring) : bool :=
  match s with [] => false | _ :: _ => true end.

Definition lower_ascii (c : char) : char :=
  if is_upper c then (c + 32)%N else c.

Section Lowering.
(** Unicode default case conversion of a string that holds code units
    outside ASCII comes from the runtime's tables; it is a parameter. *)
Variable unicode_lower : jsstring -> jsstring.

(** [String.prototype.toLowerCase]: on ASCII-only text, A-Z go to a-z. *)
Definition toLowerCase (s : jsstring) : jsstring :=
  if forallb is_ascii s then map lower_ascii s else unicode_lower s.
End Lowering.

End JsString.

(* ===================================================================== *)
(** ** The regular expressions of exportUtils.ts *)
(* ===================================================================== *)

Module Regex.
Import JsString.

(** What one pattern character accepts. *)
Inductive cset : Type :=
| Chr (c : char)                       (* a literal character *)
| Dot                                  (* .  (no s flag) *)
| NotIn (ranges : list (char * char)). (* [^ ...] *)

(** A pattern is a disjunction of sequences of these nodes.  Every
    quantifier of the source applies to a single character or class. *)
Inductive node : Type :=
| One (cs : cset)
| Many (greedy : bool) (min : nat) (cs : cset)   (* cs{min,} ; * is min 0 *)
| Open (g : nat)                                 (* ( of group g *)
| Close (g : nat)                                (* ) of group g *)
| Bol                                            (* ^ *)
| Eol.                                           (* $ *)

Record regex : Type := {
  re_alts : list (list node);
  re_ignoreCase : bool          (* the i flag; every use has the g flag *)
}.

(** Canonicalize of the non-Unicode mode: the upper-case mapping, which
    never sends a unit above 127 to an ASCII one.  All patterns here are
    ASCII, so units above 127 may stay fixed without changing any
    comparison against a pattern character. *)
Definition canonicalize (ic : bool) (c : char) : char :=
  if ic && is_lower c then (c - 32)%N else c.

(** [c] is in the range [lo-hi] up to Canonicalize. *)
Definition range_mem (ic : bool) (c : char) (r : char * char) : bool :=
  in_range (fst r) (snd r) c
  || (ic && (in_range (fst r) (snd r) (canonicalize true c)
             || in_range (fst r) (snd r) (lower_ascii c))).

Definition accepts (ic : bool) (cs : cset) (c : char) : bool :=
  match cs with
  | Chr p => (canonicalize ic p =? canonicalize ic c)%N
  | Dot => negb (is_line_terminator c)
  | NotIn rs => negb (existsb (range_mem ic c) rs)
  end.

(** State of one match attempt: characters consumed since its start, the
    groups that are open (with their start offset), the groups captured
    (start and end offset, relative to the start of the match). *)
Record mstate : Type := {
  m_pos : nat;
  m_open : list (nat * nat);
  m_caps : list (nat * (nat * nat))
}.

Definition m_init : mstate := {| m_pos := 0; m_open := []; m_caps := [] |}.

Definition advance (st : mstate) : mstate :=
  {| m_pos := S (m_pos st); m_open := m_open st; m_caps := m_caps st |}.

Fixpoint assoc {A} (g : nat) (l : list (nat * A)) : option A :=
  match l with
  | [] => None
  | (k, v) :: l' => if Nat.eqb k g then Some v else assoc g l'
  end.

Definition open_group (g : nat) (st : mstate) : mstate :=
  {| m_pos := m_pos st; m_open := (g, m_pos st) :: m_open st; m_caps := m_caps st |}.

Definition close_group (g : nat) (st : mstate) : mstate :=
  match assoc g (m_open st) with
  | Some b => {| m_pos := m_pos st; m_open := m_open st;
                 m_caps := (g, (b, m_pos st)) :: m_caps st |}
  | None => st
  end.

(** Backtracking match of a sequence of nodes against [rest], the text
    that follows the characters consumed so far; [idx] is the index in
    the subject at which the attempt started.  A greedy quantifier tries
    one more character first, a lazy one tries the continuation first. *)
Fixpoint m_nodes (ic : bool) (idx : nat) (ns : list node)
    (rest : jsstring) (st : mstate) {struct ns} : option mstate :=
  match ns with
  | [] => Some st
  | One cs :: ns' =>
      match rest with
      | c :: rest' =>
          if accepts ic cs c then m_nodes ic idx ns' rest' (advance st) else None
      | [] => None
      end
  | Many greedy min cs :: ns' =>
      (fix loop (min : nat) (rest : jsstring) (st : mstate) {struct rest}
         : option mstate :=
         match min with
         | S min' =>
             match rest with
             | c :: rest' =>
                 if accepts ic cs c then loop min' rest' (advance st) else None
             | [] => None
             end
         | O =>
             if greedy then
               match rest with
               | c :: rest' =>
                   if accepts ic cs c then
                     match loop O rest' (advance st) with
                     | Some r => Some r
                     | None => m_nodes ic idx ns' rest st
                     end
                   else m_nodes ic idx ns' rest st
               | [] => m_nodes ic idx ns' rest st
               end
             else
               match m_nodes ic idx ns' rest st with
               | Some r => Some r
               | None =>
                   match rest with
                   | c :: rest' =>
                       if accepts ic cs c then loop O rest' (advance st) else None
                   | [] => None
                   end
               end
         end) min rest st
  | Open g :: ns' => m_nodes ic idx ns' rest (open_group g st)
  | Close g :: ns' => m_nodes ic idx ns' rest (close_group g st)
  | Bol :: ns' =>
      if Nat.eqb (idx + m_pos st) 0 then m_nodes ic idx ns' rest st else None
  | Eol :: ns' =>
      match rest with
      | [] => m_nodes ic idx ns' rest st
      | _ :: _ => None
      end
  end.

(** The alternatives are tried in order. *)
Fixpoint m_alts (ic : bool) (idx : nat) (alts : list (list node))
    (rest : jsstring) : option mstate :=
  match alts with
  | [] => None
  | ns :: alts' =>
      match m_nodes ic idx ns rest m_init with
      | Some r => Some r
      | None => m_alts ic idx alts' rest
      end
  end.

(** One match attempt of [re] at index [idx], where [rest] starts. *)
Definition exec_at (re : regex) (idx : nat) (rest : jsstring) : option mstate :=
  m_alts (re_ignoreCase re) idx (re_alts re) rest.

(** Replacement templates: literal text and [$n]. *)
Inductive piece : Type :=
| Txt (s : jsstring)
| Grp (g : nat).

(** Text of group [g]; a group that did not take part gives the empty string. *)
Definition group_text (rest : jsstring) (m : mstate) (g : nat) : jsstring :=
  match assoc g (m_caps m) with
  | Some (b, e) => take (e - b) (drop b rest)
  | None => []
  end.

Fixpoint expand (tmpl : list piece) (rest : jsstring) (m : mstate) : jsstring :=
  match tmpl with
  | [] => []
  | Txt s :: t => s ++ expand t rest m
  | Grp g :: t => group_text rest m g ++ expand t rest m
  end.

(** [String.prototype.replace] with a global pattern, from index [idx]:
    [skip] counts the characters of the last match still to be dropped.
    After an empty match the search moves on by one character, which is
    copied. *)
Fixpoint replace_from (re : regex) (tmpl : list piece) (idx skip : nat)
    (s : jsstring) : jsstring :=
  match s with
  | [] =>
      match skip with
      | O => match exec_at re idx [] with
             | Some m => expand tmpl [] m
             | None => []
             end
      | S _ => []
      end
  | c :: s' =>
      match skip with
      | S k => replace_from re tmpl (S idx) k s'
      | O =>
          match exec_at re idx s with
          | Some m =>
              expand tmpl s m ++
              match m_pos m with
              | O => c :: replace_from re tmpl (S idx) 0 s'
              | S k => replace_from re tmpl (S idx) k s'
              end
          | None => c :: replace_from re tmpl (S idx) 0 s'
          end
      end
  end.

Definition replace (re : regex) (tmpl : list piece) (s : jsstring) : jsstring :=
  replace_from re tmpl 0 0 s.

(** Pattern-building helpers. *)
Definition chars (s : string) : list node := map (fun c => One (Chr c)) (lit s).
Definition not_chr (c : char) : cset := NotIn [(c, c)].
Definition star (cs : cset) : node := Many true 0 cs.
Definition lazy_star (cs : cset) : node := Many false 0 cs.
Definition group (g : nat) (ns : list node) : list node := Open g :: ns ++ [Close g].

End Regex.

(* ===================================================================== *)
(** ** exportUtils.ts *)
(* ===================================================================== *)

Module ExportUtils.
Import JsString Regex.

(** [/<tag[^>]*>(.*?)<\/tag>/gi] *)
Definition element_re (tag : string) : regex :=
  {| re_alts := [ chars "<" ++ chars tag ++ [star (not_chr GT_)] ++ chars ">"
                  ++ group 1 [lazy_star Dot]
                  ++ chars "</" ++ chars tag ++ chars ">" ];
     re_ignoreCase := true |}.

(** [/<tag[^>]*>/gi] *)
Definition open_tag_re (tag : string) : regex :=
  {| re_alts := [ chars "<" ++ chars tag ++ [star (not_chr GT_)] ++ chars ">" ];
     re_ignoreCase := true |}.

(** [/<\/tag>/gi] *)
Definition close_tag_re (tag : string) : regex :=
  {| re_alts := [ chars "</" ++ chars tag ++ chars ">" ];
     re_ignoreCase := true |}.

(** The link pattern: [<a], any run of non-[>], [href=], a double quote,
    group 1 = a greedy run of non-quotes, a double quote, any run of
    non-[>], [>], group 2 = a lazy run of [.], and [</a>]; flags gi. *)
Definition link_re : regex :=
  {| re_alts := [ chars "<a" ++ [star (not_chr GT_)] ++ chars "href="
                  ++ [One (Chr 34%N)]
                  ++ group 1 [star (not_chr 34%N)]
                  ++ [One (Chr 34%N)] ++ [star (not_chr GT_)] ++ chars ">"
                  ++ group 2 [lazy_star Dot]
                  ++ chars "</a>" ];
     re_ignoreCase := true |}.

(** [/<[^>]*>/g] *)
Definition any_tag_re : regex :=
  {| re_alts := [ chars "<" ++ [star (not_chr GT_)] ++ chars ">" ];
     re_ignoreCase := false |}.

(** [/\n{3,}/g] *)
Definition blank_lines_re : regex :=
  {| re_alts := [ [Many true 3 (Chr NL)] ]; re_ignoreCase := false |}.

(** The substitutions of [exportAsMarkdown], in the order of the source. *)
Definition markdown_steps : list (regex * list piece) :=
  [ (element_re "h1", [Txt (lit "# "); Grp 1; Txt [NL]]);
    (element_re "h2", [Txt (lit "## "); Grp 1; Txt [NL]]);
    (element_re "h3", [Txt (lit "### "); Grp 1; Txt [NL]]);
    (element_re "h4", [Txt (lit "#### "); Grp 1; Txt [NL]]);
    (element_re "h5", [Txt (lit "##### "); Grp 1; Txt [NL]]);
    (element_re "h6", [Txt (lit "###### "); Grp 1; Txt [NL]]);
    (element_re "p", [Grp 1; Txt [NL; NL]]);
    (element_re "strong", [Txt (lit "**"); Grp 1; Txt (lit "**")]);
    (element_re "b", [Txt (lit "**"); Grp 1; Txt (lit "**")]);
    (element_re "em", [Txt (lit "*"); Grp 1; Txt (lit "*")]);
    (element_re "i", [Txt (lit "*"); Grp 1; Txt (lit "*")]);
    (open_tag_re "ul", []);
    (close_tag_re "ul", [Txt [NL]]);
    (open_tag_re "ol", []);
    (close_tag_re "ol", [Txt [NL]]);
    (element_re "li", [Txt (lit "- "); Grp 1; Txt [NL]]);
    (element_re "blockquote", [Txt (lit "> "); Grp 1; Txt [NL]]);
    (link_re, [Txt (lit "["); Grp 2; Txt (lit "]("); Grp 1; Txt (lit ")")]);
    (any_tag_re, []);
    (blank_lines_re, [Txt [NL; NL]]) ].

Definition apply_steps (steps : list (regex * list piece)) (s : jsstring) : jsstring :=
  fold_left (fun acc st => replace (fst st) (snd st) acc) steps s.

(** The HTML-to-Markdown part of [exportAsMarkdown]. *)
Definition html_to_markdown (htmlContent : jsstring) : jsstring :=
  trim (apply_steps markdown_steps htmlContent).

Record ExportOptions : Type := {
  title : option jsstring;
  includeTitle : bool
}.

(** [exportAsHTML], given what [$generateHtmlFromNodes] returned. *)
Definition exportAsHTML (options : ExportOptions) (htmlString : jsstring) : jsstring :=
  match title options with
  | Some t =>
      if includeTitle options && truthy t
      then lit "<h1>" ++ t ++ lit "</h1>" ++ [NL] ++ htmlString
      else htmlString
  | None => htmlString
  end.

Definition exportAsMarkdown (options : ExportOptions) (htmlString : jsstring) : jsstring :=
  html_to_markdown (exportAsHTML options htmlString).

(** The HTML of a document made of plain paragraphs. *)
Definition paragraph (text : jsstring) : jsstring := lit "<p>" ++ text ++ lit "</p>".

Definition paragraphs_html (texts : list jsstring) : jsstring :=
  concat (map paragraph texts).

(** Text with no markup in it: no [<] occurs. *)
Definition plain (text : jsstring) : Prop := ~ In LT_ text.

(** [/[^a-z0-9]/gi] *)
Definition non_alnum_re : regex :=
  {| re_alts := [ [One (NotIn [(97%N, 122%N); (48%N, 57%N)])] ];
     re_ignoreCase := true |}.

(** [/_{2,}/g] *)
Definition underscores_re : regex :=
  {| re_alts := [ [Many true 2 (Chr UNDERSCORE)] ]; re_ignoreCase := false |}.

(** [/^_|_$/g] *)
Definition boundary_re : regex :=
  {| re_alts := [ [Bol; One (Chr UNDERSCORE)]; [One (Chr UNDERSCORE); Eol] ];
     re_ignoreCase := false |}.

Section Sanitize.
Variable unicode_lower : jsstring -> jsstring.

Definition sanitizeFilename (title : jsstring) : jsstring :=
  toLowerCase unicode_lower
    (replace boundary_re []
       (replace underscores_re [Txt [UNDERSCORE]]
          (replace non_alnum_re [Txt [UNDERSCORE]] title))).
End Sanitize.

End ExportUtils.

(* ===================================================================== *)
(** ** Vocabulary for the statements about exportUtils.ts *)
(* ===================================================================== *)

Module ExportAux.
Import JsString Regex ExportUtils.

(** Length of the run of [x] that [s] starts with. *)
Fixpoint lead (x : char) (s : jsstring) : nat :=
  match s with
  | c :: s' => if (x =? c)%N then S (lead x s') else 0
  | [] => 0
  end.

(** No run of [n] (or more) [x] anywhere in [s]. *)
Fixpoint norun (x : char) (n : nat) (s : jsstring) : Prop :=
  match s with
  | [] => True
  | _ :: s' => lead x s < n /\ norun x n s'
  end.

(** The pattern [x{n,}] with the g flag: [underscores_re] and
    [blank_lines_re] are instances of it. *)
Definition run_re (x : char) (n : nat) : regex :=
  {| re_alts := [ [Many true n (Chr x)] ]; re_ignoreCase := false |}.

(** Replacing each match of [x{n,}] by [n - 1] copies of [x]. *)
Definition collapse_from (x : char) (n idx : nat) (s : jsstring) : jsstring :=
  replace_from (run_re x n) [Txt (repeat x (n - 1))] idx 0 s.

Definition shift (k : nat) (st : mstate) : mstate :=
  {| m_pos := m_pos st + k; m_open := m_open st; m_caps := m_caps st |}.

(** The words of the description of [sanitizeFilename], as functions. *)
Definition is_alnum (c : char) : bool := is_lower c || is_upper c || is_digit c.

Definition underscore_non_alnum (c : char) : char :=
  if is_alnum c then c else UNDERSCORE.

(** Each run of [x] becomes a single [x]. *)
Fixpoint collapse_runs (x : char) (s : jsstring) : jsstring :=
  match s with
  | [] => []
  | c :: s' =>
      if (x =? c)%N && Nat.ltb 0 (lead x s') then collapse_runs x s'
      else c :: collapse_runs x s'
  end.

Definition strip_first (x : char) (s : jsstring) : jsstring :=
  match s with
  | c :: s' => if (x =? c)%N then s' else s
  | [] => []
  end.

Fixpoint strip_last (x : char) (s : jsstring) : jsstring :=
  match s with
  | [] => []
  | c :: s' =>
      match s' with
      | [] => if (x =? c)%N then [] else [c]
      | _ :: _ => c :: strip_last x s'
      end
  end.

(** Non-alphanumerics to underscores, runs collapsed, boundary
    underscores stripped, lowercased. *)
Definition sanitize_spec (title : jsstring) : jsstring :=
  map lower_ascii
    (strip_last UNDERSCORE (strip_first UNDERSCORE
       (collapse_runs UNDERSCORE (map underscore_non_alnum title)))).

(** The characters a file name may hold. *)
Definition filename_char (c : char) : bool :=
  is_lower c || is_digit c || (c =? UNDERSCORE)%N.

Definition alnum_or_us (c : char) : bool := is_alnum c || (c =? UNDERSCORE)%N.

(** Every alternative starts with a literal [<]. *)
Definition lt_guarded (re : regex) : bool :=
  forallb (fun ns => match ns with
                     | One (Chr c) :: _ => (c =? LT_)%N
                     | _ => false
                     end) (re_alts re).

(** The substitutions of [exportAsMarkdown] by group. *)
Definition tag_steps : list (regex * list piece) := take 19 markdown_steps.
Definition heading_steps : list (regex * list piece) := take 6 markdown_steps.
Definition inline_steps : list (regex * list piece) := take 11 (drop 7 markdown_steps).
Definition p_template : list piece := [Grp 1; Txt [NL; NL]].

Definition squeeze_blank (s : jsstring) : jsstring :=
  replace blank_lines_re [Txt [NL; NL]] s.

(** Text in which every [<] opens a [<p>] or a [</p>]. *)
Inductive ptext : jsstring -> Prop :=
| pt_nil : ptext []
| pt_char (c : char) (s : jsstring) : c <> LT_ -> ptext s -> ptext (c :: s)
| pt_open (s : jsstring) : ptext s -> ptext (lit "<p>" ++ s)
| pt_close (s : jsstring) : ptext s -> ptext (lit "</p>" ++ s).

(** A literal at the front of a sequence that the text contradicts. *)
Fixpoint mismatch (ic : bool) (ns : list node) (w : jsstring) : bool :=
  match ns, w with
  | One (Chr p) :: ns', c :: w' => negb (accepts ic (Chr p) c) || mismatch ic ns' w'
  | _, _ => false
  end.

(** The pattern can match neither at [<p>] nor at [</p>]. *)
Definition misses_tokens (re : regex) : bool :=
  forallb (fun ns => mismatch (re_ignoreCase re) ns (lit "<p>")
                     && mismatch (re_ignoreCase re) ns (lit "</p>"))
    (re_alts re).

(** What follows the lazy [.*?] of the paragraph pattern. *)
Definition p_tail : list node :=
  [Close 1; One (Chr 60%N); One (Chr 47%N); One (Chr 112%N); One (Chr 62%N)].

(** Match state after [<p>] and the opening of group 1. *)
Definition p_entered : mstate := {| m_pos := 3; m_open := [(1, 3)]; m_caps := [] |}.

End ExportAux.

(* ===================================================================== *)
(** ** Values, exceptions and HTTP exchanges shared by the hooks *)
(* ===================================================================== *)

Module Js.
Local Open Scope string_scope.

(** JSON-like JavaScript values (numbers restricted to integers). *)
#[local] Set Warnings "-register-all".
Inductive jsvalue : Type :=
| JNull
| JBool (b : bool)
| JNum (z : Z)
| JStr (s : string)
| JArr (items : list jsvalue)
| JObj (fields : list (string * jsvalue)).

(** ToBoolean, as [data ? ... : ...] applies it. *)
Definition js_truthy (v : jsvalue) : bool :=
  match v with
  | JNull => false
  | JBool b => b
  | JNum z => negb (z =? 0)%Z
  | JStr s => negb (String.eqb s "")
  | JArr _ => true
  | JObj _ => true
  end.

Definition str_truthy (s : string) : bool := negb (String.eqb s "").

(** What a [catch (err)] clause may receive. *)
Inductive thrown : Type :=
| ErrorObj (message : string)    (* err instanceof Error *)
| OtherValue.                    (* anything else *)

(** [err instanceof Error ? err.message : 'An unexpected error occurred'] *)
Definition errorMessage (err : thrown) : string :=
  match err with
  | ErrorObj m => m
  | OtherValue => "An unexpected error occurred"
  end.

Inductive result (A : Type) : Type :=
| Ok (a : A)
| Throw (e : thrown).
Arguments Ok {A} a.
Arguments Throw {A} e.

Record Request : Type := {
  req_url : string;
  req_method : string;
  req_headers : list (string * string);
  req_body : option string
}.

(** A [Response]: [json] is what [await response.json()] does. *)
Record Response : Type := {
  ok : bool;
  status : N;
  statusText : string;
  json : result jsvalue
}.

(** The [session] of [supabase.auth.getSession()]. *)
Record Session : Type := { access_token : string }.

(** What the outside world answers to one run of a hook's request code. *)
Record World : Type := {
  getSession : result (option Session);
  fetch : Request -> result Response
}.

(** Code that may throw and that logs the requests it hands to [fetch]. *)
Definition M (A : Type) : Type := list Request -> result A * list Request.

Definition ret {A} (a : A) : M A := fun log => (Ok a, log).
Definition throw {A} (e : thrown) : M A := fun log => (Throw e, log).
Definition bind {A B} (c : M A) (k : A -> M B) : M B :=
  fun log =>
    match c log with
    | (Ok a, log') => k a log'
    | (Throw e, log') => (Throw e, log')
    end.
Definition lift {A} (r : result A) : M A := fun log => (r, log).
Definition call_fetch (w : World) (req : Request) : M Response :=
  fun log => (fetch w req, (log ++ [req])%list).

Declare Scope js_scope.
Notation "'await' x <- c ; k" := (bind c (fun x => k))
  (at level 20, x name, c at level 100, k at level 200) : js_scope.

(** Number to string, in decimal. *)
Definition show_N (n : N) : string := NilZero.string_of_uint (N.to_uint n).

(** [`HTTP ${response.status}: ${response.statusText}`] *)
Definition http_error (r : Response) : string :=
  "HTTP " ++ show_N (status r) ++ ": " ++ statusText r.

(** The headers both hooks build: the content type, and the bearer token
    when [session?.access_token] is truthy. *)
Definition auth_headers (session : option Session) : list (string * string) :=
  ("Content-Type", "application/json") ::
  match session with
  | Some s =>
      if str_truthy (access_token s)
      then [("Authorization", "Bearer " ++ access_token s)]
      else []
  | None => []
  end.

End Js.

(* ===================================================================== *)
(** ** useApi *)
(* ===================================================================== *)

(** One run of [fetchData] is modelled to its end: the [World] answers
    what it awaits. *)
Module UseApi.
Import Js.
Local Open Scope string_scope.
Local Open Scope js_scope.

Record ApiState : Type := {
  data : option jsvalue;
  loading : bool;
  error : option string
}.

Section Hook.
Variable API_BASE_URL : string.

(** The [try] block of [fetchData]. *)
Definition fetchData_try (endpoint : string) (w : World) : M jsvalue :=
  await session <- lift (getSession w);
  await response <- call_fetch w {| req_url := API_BASE_URL ++ endpoint;
                              req_method := "GET";
                              req_headers := auth_headers session;
                              req_body := None |};
  if negb (ok response) then throw (ErrorObj (http_error response))
  else
    await result <- lift (json response);
    ret result.

(** State while the request is awaited:
    [setState(prev => ({ ...prev, loading: true, error: null }))]. *)
Definition fetchData_pending (prev : ApiState) : ApiState :=
  {| data := data prev; loading := true; error := None |}.

(** [fetchData]: the requests issued and the state it settles on. *)
Definition fetchData (endpoint : string) (w : World) (log : list Request)
    : ApiState * list Request :=
  match fetchData_try endpoint w log with
  | (Ok result, log') => ({| data := Some result; loading := false; error := None |}, log')
  | (Throw err, log') =>
      ({| data := None; loading := false; error := Some (errorMessage err) |}, log')
  end.

(** One hook instance: its state, what the last render passed, and every
    request it has issued. *)
Record Hook : Type := {
  state : ApiState;
  mounted : bool;
  endpoint : string;
  immediate : bool;
  requests : list Request
}.

(** [useState({ data: null, loading: immediate, error: null })]; the
    default of [immediate] is [true]. *)
Definition init (ep : string) (imm : option bool) : Hook :=
  let i := match imm with Some b => b | None => true end in
  {| state := {| data := None; loading := i; error := None |};
     mounted := false; endpoint := ep; immediate := i; requests := [] |}.

Inductive event : Type :=
| Render (ep : string) (imm : bool) (deps_changed : bool) (w : World)
    (* a render and its effects; [deps_changed]: an entry of [deps] differs *)
| Refetch (w : World).
    (* a call of the returned [refetch] *)

Definition run_fetch (h : Hook) (w : World) : Hook :=
  let '(st, log) := fetchData (endpoint h) w (requests h) in
  {| state := st; mounted := mounted h; endpoint := endpoint h;
     immediate := immediate h; requests := log |}.

(** The effect [if (immediate) fetchData()] runs after the first render
    and whenever [fetchData] (that is, [endpoint]), [immediate] or an
    entry of [deps] changed. *)
Definition step (h : Hook) (e : event) : Hook :=
  match e with
  | Render ep imm deps_changed w =>
      let effect_runs :=
        negb (mounted h) || negb (String.eqb ep (endpoint h))
        || negb (Bool.eqb imm (immediate h)) || deps_changed in
      let h' := {| state := state h; mounted := true; endpoint := ep;
                   immediate := imm; requests := requests h |} in
      if effect_runs && imm then run_fetch h' w else h'
  | Refetch w => run_fetch h w
  end.

Definition run (h : Hook) (es : list event) : Hook := fold_left step es h.

Definition is_refetch (e : event) : bool :=
  match e with Refetch _ => true | Render _ _ _ _ => false end.

Definition render_immediate (e : event) : bool :=
  match e with Render _ imm _ _ => imm | Refetch _ => false end.

End Hook.
End UseApi.

(* ===================================================================== *)
(** ** useApiMutation *)
(* ===================================================================== *)

Module UseApiMutation.
Import Js.
Local Open Scope string_scope.
Local Open Scope js_scope.

Inductive http_method : Type := POST | PUT | DELETE.

Definition method_name (m : http_method) : string :=
  match m with POST => "POST" | PUT => "PUT" | DELETE => "DELETE" end.

Record MutationState : Type := {
  loading : bool;
  error : option string
}.

(** [method: 'POST' | 'PUT' | 'DELETE' = 'POST'] *)
Definition method_or_default (method : option http_method) : http_method :=
  match method with Some m => m | None => POST end.

Section Hook.
Variable API_BASE_URL : string.
(** [JSON.stringify], the runtime's serializer. *)
Variable JSON_stringify : jsvalue -> string.

(** [body: data ? JSON.stringify(data) : undefined] *)
Definition request_body (data : option jsvalue) : option string :=
  match data with
  | Some v => if js_truthy v then Some (JSON_stringify v) else None
  | None => None
  end.

(** The [try] block of [mutate]. *)
Definition mutate_try (endpoint : string) (data : option jsvalue)
    (method : http_method) (w : World) : M jsvalue :=
  await session <- lift (getSession w);
  await response <- call_fetch w {| req_url := API_BASE_URL ++ endpoint;
                              req_method := method_name method;
                              req_headers := auth_headers session;
                              req_body := request_body data |};
  if negb (ok response) then throw (ErrorObj (http_error response))
  else
    await result <- lift (json response);
    ret result.

(** [mutate]: the value returned ([JNull] for [null]), the hook state it
    leaves, and the requests issued.  [setError(null)] comes first, the
    [catch] clause sets the message, [finally] clears [loading]. *)
Definition mutate (endpoint : string) (data : option jsvalue)
    (method : option http_method) (w : World) (log : list Request)
    : jsvalue * MutationState * list Request :=
  match mutate_try endpoint data (method_or_default method) w log with
  | (Ok result, log') => (result, {| loading := false; error := None |}, log')
  | (Throw err, log') =>
      (JNull, {| loading := false; error := Some (errorMessage err) |}, log')
  end.

End Hook.
End UseApiMutation.

(* ===================================================================== *)
(** ** YahooLeagueConnection.tsx: the authorization-code relay *)
(* ===================================================================== *)

(** One event is one call of a handler, run to its end: what it awaits is
    answered by the [World] it is given, and the updates it makes after
    an [await] touch neither the processed set nor the timers.  The guard
    reads the set of the latest render.  A timer fires at or after its
    due time. *)
Module Yahoo.
Import Js.
Local Open Scope string_scope.
Local Open Scope js_scope.

(** Delay of the timer that forgets a processed code, in milliseconds. *)
Definition EXPIRY : N := 300000.

(** [s.includes(sub)] *)
Fixpoint includes (s sub : string) : bool :=
  String.prefix sub s ||
  match s with
  | EmptyString => false
  | String _ s' => includes s' sub
  end.

(** Property read [v.k]: reading a property of [null] or [undefined]
    throws; a missing property reads as [undefined] (here [JNull]). *)
Definition get (v : jsvalue) (k : string) : result jsvalue :=
  match v with
  | JNull => Throw (ErrorObj "Cannot read properties of null")
  | JObj fields =>
      match List.find (fun f => String.eqb (fst f) k) fields with
      | Some f => Ok (snd f)
      | None => Ok JNull
      end
  | _ => Ok JNull
  end.

(** [a || b] *)
Definition js_or (a b : jsvalue) : jsvalue := if js_truthy a then a else b.

Record State : Type := {
  now : N;                              (* wall clock, ms *)
  processedCodes : gset string;
  timers : list (N * string);           (* pending timers: due time, code to forget *)
  loading : bool;
  error : option jsvalue;
  connectingYahoo : bool;
  showManualAuth : bool;
  leagues : jsvalue;
  sent : list (N * Request);            (* every request handed to fetch *)
  exchanges : list (N * string)         (* time and code of each token-exchange request *)
}.

Definition init : State :=
  {| now := 0; processedCodes := ∅; timers := []; loading := false;
     error := None; connectingYahoo := false; showManualAuth := false;
     leagues := JArr []; sent := []; exchanges := [] |}.

Section Component.
Variable BASE_URL : string.
Variable JSON_stringify : jsvalue -> string.
(** Template-literal conversion of a value to text. *)
Variable toString : jsvalue -> string.

(** [`Bearer ${session?.access_token}`] *)
Definition bearer (token : option string) : string :=
  "Bearer " ++ match token with Some t => t | None => "undefined" end.

Definition headers (token : option string) : list (string * string) :=
  [("Authorization", bearer token); ("Content-Type", "application/json")].

(** What a piece of asynchronous code leaves behind: UI state updates are
    functions of the state, applied when the code has run. *)
Definition set_loading (b : bool) (st : State) : State :=
  {| now := now st; processedCodes := processedCodes st; timers := timers st;
     loading := b; error := error st; connectingYahoo := connectingYahoo st;
     showManualAuth := showManualAuth st; leagues := leagues st;
     sent := sent st; exchanges := exchanges st |}.

Definition set_error (e : option jsvalue) (st : State) : State :=
  {| now := now st; processedCodes := processedCodes st; timers := timers st;
     loading := loading st; error := e; connectingYahoo := connectingYahoo st;
     showManualAuth := showManualAuth st; leagues := leagues st;
     sent := sent st; exchanges := exchanges st |}.

Definition set_connecting (b : bool) (st : State) : State :=
  {| now := now st; processedCodes := processedCodes st; timers := timers st;
     loading := loading st; error := error st; connectingYahoo := b;
     showManualAuth := showManualAuth st; leagues := leagues st;
     sent := sent st; exchanges := exchanges st |}.

Definition set_manual (b : bool) (st : State) : State :=
  {| now := now st; processedCodes := processedCodes st; timers := timers st;
     loading := loading st; error := error st; connectingYahoo := connectingYahoo st;
     showManualAuth := b; leagues := leagues st;
     sent := sent st; exchanges := exchanges st |}.

Definition set_leagues (v : jsvalue) (st : State) : State :=
  {| now := now st; processedCodes := processedCodes st; timers := timers st;
     loading := loading st; error := error st; connectingYahoo := connectingYahoo st;
     showManualAuth := showManualAuth st; leagues := v;
     sent := sent st; exchanges := exchanges st |}.

Definition log_request (r : Request) (st : State) : State :=
  {| now := now st; processedCodes := processedCodes st; timers := timers st;
     loading := loading st; error := error st; connectingYahoo := connectingYahoo st;
     showManualAuth := showManualAuth st; leagues := leagues st;
     sent := (sent st ++ [(now st, r)])%list; exchanges := exchanges st |}.

(** [fetchLeagues] *)
Definition fetchLeagues (token : option string) (w : World) (st : State) : State :=
  match token with
  | Some t =>
      if str_truthy t then
        let req := {| req_url := BASE_URL ++ "/api/v1/leagues/"; req_method := "GET";
                      req_headers := headers token; req_body := None |} in
        let st1 := log_request req (set_loading true st) in
        let st2 :=
          match fetch w req with
          | Ok response =>
              if ok response then
                match json response with
                | Ok data =>
                    match get data "leagues", get data "data" with
                    | Ok l, Ok d => set_error None (set_leagues (js_or (js_or l d) (JArr [])) st1)
                    | _, _ => set_error (Some (JStr "Error fetching leagues")) st1
                    end
                | Throw _ => set_error (Some (JStr "Error fetching leagues")) st1
                end
              else set_error (Some (JStr "Failed to fetch leagues")) st1
          | Throw _ => set_error (Some (JStr "Error fetching leagues")) st1
          end in
        set_loading false st2
      else st
  | None => st
  end.

(** [importYahooLeagues] *)
Definition importYahooLeagues (token : option string) (w : World) (st : State) : State :=
  let req := {| req_url := BASE_URL ++ "/api/v1/leagues/connect/yahoo";
                req_method := "POST"; req_headers := headers token;
                req_body := Some (JSON_stringify
                  (JObj [("platform", JStr "yahoo"); ("season", JNum 2024)])) |} in
  let st1 := log_request req (set_error None (set_loading true st)) in
  let failed := set_error (Some (JStr "Error importing Yahoo leagues")) in
  let st2 :=
    match fetch w req with
    | Ok connectResponse =>
        if ok connectResponse then
          match json connectResponse with
          | Ok connectData =>
              match get connectData "success" with
              | Ok success =>
                  if js_truthy success then set_error None (fetchLeagues token w st1)
                  else
                    match get connectData "error" with
                    | Ok e => set_error (Some (JStr ("Failed to import Yahoo leagues: "
                                  ++ toString (js_or e (JStr "Unknown error"))))) st1
                    | Throw _ => failed st1
                    end
              | Throw _ => failed st1
              end
          | Throw _ => failed st1
          end
        else
          match json connectResponse with
          | Ok errorData =>
              match get errorData "detail" with
              | Ok d => set_error (Some (JStr ("Failed to import Yahoo leagues: "
                            ++ toString (js_or d (JStr "Unknown error"))))) st1
              | Throw _ => failed st1
              end
          | Throw _ => failed st1
          end
    | Throw _ => failed st1
    end in
  set_loading false st2.

(** [setProcessedCodes(prev => new Set(prev).add(code))] and the timer
    that will delete the code again. *)
Definition mark_processed (code : string) (st : State) : State :=
  {| now := now st; processedCodes := {[ code ]} ∪ processedCodes st;
     timers := (timers st ++ [((now st + EXPIRY)%N, code)])%list;
     loading := loading st; error := error st; connectingYahoo := connectingYahoo st;
     showManualAuth := showManualAuth st; leagues := leagues st;
     sent := sent st; exchanges := exchanges st |}.

Definition log_exchange (code : string) (r : Request) (st : State) : State :=
  {| now := now st; processedCodes := processedCodes st; timers := timers st;
     loading := loading st; error := error st; connectingYahoo := connectingYahoo st;
     showManualAuth := showManualAuth st; leagues := leagues st;
     sent := (sent st ++ [(now st, r)])%list;
     exchanges := (exchanges st ++ [(now st, code)])%list |}.

Definition opt_str (s : option string) : jsvalue :=
  match s with Some x => JStr x | None => JNull end.

Definition is_str (s : string) (v : jsvalue) : bool :=
  match v with JStr x => String.eqb x s | _ => false end.

Definition EXPIRED_MESSAGE : string :=
  "Authorization code expired. Please try connecting to Yahoo again - codes expire quickly!".

(** The error stored when the exchange is refused:
    [result.detail || result.message || 'Yahoo authentication failed'],
    replaced by a fixed text when it mentions an expired code.  A string
    and an array have an [includes] method; calling it on another value
    throws. *)
Definition refusal (body : jsvalue) : result jsvalue :=
  match get body "detail", get body "message" with
  | Ok d, Ok m =>
      match js_or (js_or d m) (JStr "Yahoo authentication failed") with
      | JStr msg =>
          if includes msg "Authorization code expired" || includes msg "invalid_grant"
          then Ok (JStr EXPIRED_MESSAGE)
          else Ok (JStr msg)
      | JArr items =>
          if existsb (is_str "Authorization code expired") items
             || existsb (is_str "invalid_grant") items
          then Ok (JStr EXPIRED_MESSAGE)
          else Ok (JArr items)
      | _ => Throw (ErrorObj "errorMessage.includes is not a function")
      end
  | _, _ => Throw (ErrorObj "Cannot read properties of null")
  end.

(** [handleYahooCallback(code, state)] *)
Definition handleYahooCallback (code : string) (state : option string)
    (token : option string) (w : World) (st : State) : State :=
  if decide (code ∈ processedCodes st) then st
  else
    let req := {| req_url := BASE_URL ++ "/api/v1/fantasy/yahoo/callback";
                  req_method := "POST"; req_headers := headers token;
                  req_body := Some (JSON_stringify
                    (JObj [("code", JStr code); ("state", opt_str state)])) |} in
    let st1 := log_exchange code req
                 (mark_processed code (set_error None (set_loading true st))) in
    let failed := set_error (Some (JStr "Failed to process Yahoo authentication")) in
    let st2 :=
      match fetch w req with
      | Ok response =>
          match json response with
          | Ok body =>
              (* [response.ok && result.success] *)
              match (if ok response then get body "success" else Ok (JBool false)) with
              | Ok success =>
                  if js_truthy success
                  then importYahooLeagues token w st1
                  else match refusal body with
                       | Ok e => set_error (Some e) st1
                       | Throw _ => failed st1
                       end
              | Throw _ => failed st1
              end
          | Throw _ => failed st1
          end
      | Throw _ => failed st1
      end in
    set_connecting false (set_loading false st2).

(** The popup's [yahoo_auth_success] message: the exchange was done by the
    backend, only the leagues are imported. *)
Definition handleMessage (token : option string) (w : World) (st : State) : State :=
  importYahooLeagues token w (set_connecting false (set_manual false st)).

(** A due timer runs [setProcessedCodes(prev => { newSet.delete(code) })]. *)
Definition expire (k : nat) (st : State) : State :=
  match timers st !! k with
  | Some (due, code) =>
      if (due <=? now st)%N then
        {| now := now st; processedCodes := processedCodes st ∖ {[ code ]};
           timers := delete k (timers st);
           loading := loading st; error := error st;
           connectingYahoo := connectingYahoo st;
           showManualAuth := showManualAuth st; leagues := leagues st;
           sent := sent st; exchanges := exchanges st |}
      else st
  | None => st
  end.

Definition advance (dt : N) (st : State) : State :=
  {| now := (now st + dt)%N; processedCodes := processedCodes st; timers := timers st;
     loading := loading st; error := error st; connectingYahoo := connectingYahoo st;
     showManualAuth := showManualAuth st; leagues := leagues st;
     sent := sent st; exchanges := exchanges st |}.

Inductive event : Type :=
| Callback (code : string) (state : option string) (token : option string) (w : World)
    (* [handleYahooCallback], from the URL-parameter effect or the pasted URL *)
| PopupMessage (token : option string) (w : World)
| Advance (dt : N)
| Expire (k : nat).        (* the [k]-th pending timer fires, if it is due *)

Definition step (st : State) (e : event) : State :=
  match e with
  | Callback code state token w => handleYahooCallback code state token w st
  | PopupMessage token w => handleMessage token w st
  | Advance dt => advance dt st
  | Expire k => expire k st
  end.

Definition run (st : State) (es : list event) : State := fold_left step es st.

End Component.
End Yahoo.

(* ===================================================================== *)
(** ** useWebSocket.ts: reconnection *)
(* ===================================================================== *)

Module WebSocketHook.
Import Js.
Local Open Scope string_scope.

Inductive readyState : Type := CONNECTING | OPEN | CLOSING | CLOSED.

(** Close code of an application-initiated, clean close. *)
Definition NORMAL_CLOSURE : N := 1000.

Record State : Type := {
  now : N;
  sockets : list readyState;          (* every WebSocket created so far *)
  wsRef : option nat;                 (* wsRef.current, an index in [sockets] *)
  reconnectCount : nat;               (* reconnectCountRef.current *)
  reconnectTimeoutRef : option nat;   (* id of the timer set last *)
  timers : list (nat * N);            (* pending timers: id, due time *)
  nextTimer : nat;
  isConnected : bool;
  lastMessage : option jsvalue;
  error : option string;
  scheduled : list (N * N)            (* reconnections scheduled: when, due time *)
}.

Definition init : State :=
  {| now := 0; sockets := []; wsRef := None; reconnectCount := 0;
     reconnectTimeoutRef := None; timers := []; nextTimer := 1;
     isConnected := false; lastMessage := None; error := None; scheduled := [] |}.

Section Hook.
(** The options and the signed-in user of the render whose closures run. *)
Variable enabled : bool.
Variable user : bool.
Variable reconnectAttempts : nat.
Variable reconnectInterval : N.
(** What [new WebSocket(url)] throws, as text, when it rejects the url. *)
Variable construct_error : option string.

Definition is_open (st : State) : bool :=
  match wsRef st with
  | Some i => match sockets st !! i with Some OPEN => true | _ => false end
  | None => false
  end.

(** [connect] *)
Definition connect (st : State) : State :=
  if negb enabled || negb user || is_open st then st
  else match construct_error with
  | None =>
    {| now := now st; sockets := (sockets st ++ [CONNECTING])%list;
       wsRef := Some (length (sockets st));
       reconnectCount := reconnectCount st;
       reconnectTimeoutRef := reconnectTimeoutRef st; timers := timers st;
       nextTimer := nextTimer st; isConnected := isConnected st;
       lastMessage := lastMessage st; error := error st; scheduled := scheduled st |}
  | Some err =>
    {| now := now st; sockets := sockets st; wsRef := wsRef st;
       reconnectCount := reconnectCount st;
       reconnectTimeoutRef := reconnectTimeoutRef st; timers := timers st;
       nextTimer := nextTimer st; isConnected := isConnected st;
       lastMessage := lastMessage st;
       error := Some ("Failed to create WebSocket connection: " ++ err);
       scheduled := scheduled st |}
  end.

(** [onopen] of socket [i] *)
Definition onopen (i : nat) (st : State) : State :=
  match sockets st !! i with
  | Some CONNECTING =>
      {| now := now st; sockets := <[i := OPEN]> (sockets st); wsRef := wsRef st;
         reconnectCount := 0;
         reconnectTimeoutRef := reconnectTimeoutRef st; timers := timers st;
         nextTimer := nextTimer st; isConnected := true;
         lastMessage := lastMessage st; error := None; scheduled := scheduled st |}
  | _ => st
  end.

(** The reconnection branch of [onclose]. *)
Definition reconnects (code : N) (st : State) : bool :=
  negb (code =? NORMAL_CLOSURE)%N && Nat.ltb (reconnectCount st) reconnectAttempts.

(** [onclose] of socket [i], with the event's close code *)
Definition onclose (i : nat) (code : N) (st : State) : State :=
  match sockets st !! i with
  | Some CLOSED | None => st
  | Some _ =>
      if reconnects code st then
        {| now := now st; sockets := <[i := CLOSED]> (sockets st); wsRef := wsRef st;
           reconnectCount := S (reconnectCount st);
           reconnectTimeoutRef := Some (nextTimer st);
           timers := (timers st ++ [(nextTimer st, (now st + reconnectInterval)%N)])%list;
           nextTimer := S (nextTimer st); isConnected := false;
           lastMessage := lastMessage st; error := error st;
           scheduled := (scheduled st ++ [(now st, (now st + reconnectInterval)%N)])%list |}
      else
        {| now := now st; sockets := <[i := CLOSED]> (sockets st); wsRef := wsRef st;
           reconnectCount := reconnectCount st;
           reconnectTimeoutRef := reconnectTimeoutRef st; timers := timers st;
           nextTimer := nextTimer st; isConnected := false;
           lastMessage := lastMessage st; error := error st;
           scheduled := scheduled st |}
  end.

(** [onerror] *)
Definition onerror (st : State) : State :=
  {| now := now st; sockets := sockets st; wsRef := wsRef st;
     reconnectCount := reconnectCount st;
     reconnectTimeoutRef := reconnectTimeoutRef st; timers := timers st;
     nextTimer := nextTimer st; isConnected := isConnected st;
     lastMessage := lastMessage st; error := Some "WebSocket connection error";
     scheduled := scheduled st |}.

(** [onmessage]: [parsed] is what [JSON.parse(event.data)] gave. *)
Definition onmessage (parsed : result jsvalue) (st : State) : State :=
  match parsed with
  | Ok message =>
      {| now := now st; sockets := sockets st; wsRef := wsRef st;
         reconnectCount := reconnectCount st;
         reconnectTimeoutRef := reconnectTimeoutRef st; timers := timers st;
         nextTimer := nextTimer st; isConnected := isConnected st;
         lastMessage := Some message; error := error st; scheduled := scheduled st |}
  | Throw _ => st
  end.

Definition clear_timer (id : nat) (l : list (nat * N)) : list (nat * N) :=
  List.filter (fun t => negb (Nat.eqb (fst t) id)) l.

Definition close_socket (i : nat) (l : list readyState) : list readyState :=
  match l !! i with
  | Some CLOSED | None => l
  | Some _ => <[i := CLOSING]> l
  end.

(** [disconnect] *)
Definition disconnect (st : State) : State :=
  {| now := now st;
     sockets := match wsRef st with
                | Some i => close_socket i (sockets st)
                | None => sockets st
                end;
     wsRef := None;
     reconnectCount := 0;
     reconnectTimeoutRef := None;
     timers := match reconnectTimeoutRef st with
               | Some id => clear_timer id (timers st)
               | None => timers st
               end;
     nextTimer := nextTimer st; isConnected := false;
     lastMessage := None; error := None; scheduled := scheduled st |}.

(** A pending timer that is due runs [connect]. *)
Definition fire (id : nat) (st : State) : State :=
  match List.find (fun t => Nat.eqb (fst t) id) (timers st) with
  | Some (_, due) =>
      if (due <=? now st)%N then
        connect
          {| now := now st; sockets := sockets st; wsRef := wsRef st;
             reconnectCount := reconnectCount st;
             reconnectTimeoutRef := reconnectTimeoutRef st;
             timers := clear_timer id (timers st);
             nextTimer := nextTimer st; isConnected := isConnected st;
             lastMessage := lastMessage st; error := error st;
             scheduled := scheduled st |}
      else st
  | None => st
  end.

Definition advance (dt : N) (st : State) : State :=
  {| now := (now st + dt)%N; sockets := sockets st; wsRef := wsRef st;
     reconnectCount := reconnectCount st;
     reconnectTimeoutRef := reconnectTimeoutRef st; timers := timers st;
     nextTimer := nextTimer st; isConnected := isConnected st;
     lastMessage := lastMessage st; error := error st; scheduled := scheduled st |}.

Inductive event : Type :=
| Connect                        (* the mount effect, or the exported [connect] *)
| Disconnect                     (* the effect cleanup, or the exported [disconnect] *)
| OnOpen (i : nat)
| OnClose (i : nat) (code : N)
| OnError (i : nat)
| OnMessage (i : nat) (parsed : result jsvalue)
| Advance (dt : N)
| Fire (id : nat).

Definition step (st : State) (e : event) : State :=
  match e with
  | Connect => connect st
  | Disconnect => disconnect st
  | OnOpen i => onopen i st
  | OnClose i code => onclose i code st
  | OnError _ => onerror st
  | OnMessage _ parsed => onmessage parsed st
  | Advance dt => advance dt st
  | Fire id => fire id st
  end.

Definition run (st : State) (es : list event) : State := fold_left step es st.

(** Events that reset the reconnection counter. *)
Definition resets (e : event) : bool :=
  match e with
  | OnOpen _ | Disconnect => true
  | _ => false
  end.

End Hook.
End WebSocketHook.

(* ===================================================================== *)
(** ** RecapsOverview: pagination *)
(* ===================================================================== *)

Module RecapsOverview.

(** [PaginatedResponse<T>] of [types/api.ts]. *)
Record PaginatedResponse (T : Type) : Type := {
  success : bool;
  data : list T;
  count : N;
  has_more : option bool;
  total : option N
}.
Arguments success {T} _.
Arguments data {T} _.
Arguments count {T} _.
Arguments has_more {T} _.
Arguments total {T} _.

Definition pageSize : N := 6.

Section View.
Context {T : Type}.

(** [recapsResponse?.data || []] *)
Definition recaps (recapsResponse : option (PaginatedResponse T)) : list T :=
  match recapsResponse with
  | Some r => data r
  | None => []
  end.

(** [recapsResponse?.count || 0] *)
Definition totalRecaps (recapsResponse : option (PaginatedResponse T)) : N :=
  match recapsResponse with
  | Some r => count r
  | None => 0%N
  end.

(** [(currentPage * pageSize) < totalRecaps] *)
Definition hasMore (currentPage : N) (recapsResponse : option (PaginatedResponse T)) : bool :=
  (currentPage * pageSize <? totalRecaps recapsResponse)%N.

(** The cards the component renders: none on the loading skeleton of the
    first page or on the error panel; otherwise one per element of
    [recaps], inside [totalRecaps > 0 && ...]. *)
Definition displayed (currentPage : N) (recapsLoading : bool)
    (recapsError : option string)
    (recapsResponse : option (PaginatedResponse T)) : list T :=
  if recapsLoading && (currentPage =? 1)%N then []
  else if match recapsError with Some e => Js.str_truthy e | None => false end then []
  else if (0 <? totalRecaps recapsResponse)%N then recaps recapsResponse
  else [].

End View.
End RecapsOverview.

(* ===================================================================== *)
(** ** RecapEditor.tsx: save and auto-save *)
(* ===================================================================== *)

(** The component is driven by events, handled one at a time.  A click or
    a keystroke is a discrete React event: the render it causes and the
    effects of that render are flushed before any other task runs.  Every
    other state update (the editor's listener, a settled promise, a timer
    callback, the effect's own [setAutoSaveTimeout]) is rendered in a
    later task, the event [Rerender], which may come at any moment and
    any number of times.  The auto-save effect lists [autoSaveTimeout]
    among its dependencies and sets it, so while changes are unsaved
    every render is followed by another one.  Time is a clock in
    milliseconds; a timer fires at or after its due time. *)
Module Editor.
Import JsString.
Local Open Scope string_scope.

(** Delay of the auto-save timer, in milliseconds. *)
Definition AUTOSAVE_DELAY : N := 2000.

Inductive origin : Type := Auto | Manual.

(** What one [handleAutoSave] closed over (the dependencies of its
    [useCallback], [onSave] apart). *)
Record Closure : Type := {
  c_hasUnsavedChanges : bool;
  c_isSaving : bool;
  c_title : jsstring;
  c_editorState : jsstring
}.

Record Timer : Type := {
  t_id : nat;
  t_due : N;
  t_closure : Closure
}.

(** One call of [onSave]. *)
Record Save : Type := {
  s_time : N;
  s_origin : origin;
  s_content : jsstring;
  s_title : jsstring
}.

Record State : Type := {
  now : N;
  mounted : bool;
  (* props *)
  recap_content : option jsstring;
  isLoading : bool;
  (* useState *)
  title : jsstring;
  isSaving : bool;
  hasUnsavedChanges : bool;
  editorState : jsstring;
  htmlContent : jsstring;
  autoSaveTimeout : option nat;
  (* [autoSaveTimeout] as the last run of the auto-save effect saw it:
     what that run's cleanup clears *)
  cleanupTimeout : option nat;
  (* the world *)
  timers : list Timer;            (* pending timers *)
  nextTimer : nat;                (* timer ids are positive and fresh *)
  inflight : list origin;         (* [onSave] promises not settled yet *)
  saves : list Save;              (* every call of [onSave], oldest first *)
  alerts : list string
}.

Definition ALERT_TITLE : string := "Please enter a title for the recap".
Definition ALERT_FAILED : string := "Failed to save recap. Please try again.".

(** [s.trim()] used as a condition. *)
Definition nonblank (s : jsstring) : bool := truthy (trim s).

Definition closure_of (st : State) : Closure :=
  {| c_hasUnsavedChanges := hasUnsavedChanges st; c_isSaving := isSaving st;
     c_title := title st; c_editorState := editorState st |}.

Definition clearTimeout (id : option nat) (l : list Timer) : list Timer :=
  match id with
  | Some i => List.filter (fun t => negb (Nat.eqb (t_id t) i)) l
  | None => l
  end.

(** The guard of [handleAutoSave]. *)
Definition autosave_guard (c : Closure) : bool :=
  c_hasUnsavedChanges c && negb (c_isSaving c)
  && nonblank (c_title c) && nonblank (c_editorState c).

(** [handleAutoSave], up to its [await]: the state setter is a no-op once
    the component is unmounted. *)
Definition handleAutoSave (c : Closure) (st : State) : State :=
  if autosave_guard c then
    {| now := now st; mounted := mounted st; recap_content := recap_content st;
       isLoading := isLoading st; title := title st;
       isSaving := if mounted st then true else isSaving st;
       hasUnsavedChanges := hasUnsavedChanges st; editorState := editorState st;
       htmlContent := htmlContent st; autoSaveTimeout := autoSaveTimeout st;
       cleanupTimeout := cleanupTimeout st; timers := timers st;
       nextTimer := nextTimer st; inflight := (inflight st ++ [Auto])%list;
       saves := (saves st ++ [{| s_time := now st; s_origin := Auto;
                                 s_content := c_editorState c;
                                 s_title := c_title c |}])%list;
       alerts := alerts st |}
  else st.

(** The auto-save effect: the cleanup of its previous run, then its body,
    which clears the timer held in state and, with unsaved changes, arms
    a new one and stores its id. *)
Definition autoSaveEffect (st : State) : State :=
  let cleared := clearTimeout (autoSaveTimeout st)
                   (clearTimeout (cleanupTimeout st) (timers st)) in
  if hasUnsavedChanges st then
    {| now := now st; mounted := mounted st; recap_content := recap_content st;
       isLoading := isLoading st; title := title st; isSaving := isSaving st;
       hasUnsavedChanges := hasUnsavedChanges st; editorState := editorState st;
       htmlContent := htmlContent st;
       autoSaveTimeout := Some (nextTimer st);
       cleanupTimeout := autoSaveTimeout st;
       timers := (cleared ++ [{| t_id := nextTimer st;
                                 t_due := (now st + AUTOSAVE_DELAY)%N;
                                 t_closure := closure_of st |}])%list;
       nextTimer := S (nextTimer st); inflight := inflight st;
       saves := saves st; alerts := alerts st |}
  else
    {| now := now st; mounted := mounted st; recap_content := recap_content st;
       isLoading := isLoading st; title := title st; isSaving := isSaving st;
       hasUnsavedChanges := hasUnsavedChanges st; editorState := editorState st;
       htmlContent := htmlContent st;
       autoSaveTimeout := autoSaveTimeout st;
       cleanupTimeout := autoSaveTimeout st;
       timers := cleared;
       nextTimer := nextTimer st; inflight := inflight st;
       saves := saves st; alerts := alerts st |}.

(** The effect that loads the recap's content into an empty editor. *)
Definition initEffect (st : State) : State :=
  match recap_content st, editorState st with
  | Some content, [] =>
      if truthy content then
        {| now := now st; mounted := mounted st; recap_content := recap_content st;
           isLoading := isLoading st; title := title st; isSaving := isSaving st;
           hasUnsavedChanges := false; editorState := content;
           htmlContent := htmlContent st; autoSaveTimeout := autoSaveTimeout st;
           cleanupTimeout := cleanupTimeout st; timers := timers st;
           nextTimer := nextTimer st; inflight := inflight st;
           saves := saves st; alerts := alerts st |}
      else st
  | _, _ => st
  end.

(** The effects of one render, in the order of their declaration. *)
Definition effects (st : State) : State := initEffect (autoSaveEffect st).

(** [handleSave], up to its [await]. *)
Definition handleSave (st : State) : State :=
  if negb (nonblank (title st)) then
    {| now := now st; mounted := mounted st; recap_content := recap_content st;
       isLoading := isLoading st; title := title st; isSaving := isSaving st;
       hasUnsavedChanges := hasUnsavedChanges st; editorState := editorState st;
       htmlContent := htmlContent st; autoSaveTimeout := autoSaveTimeout st;
       cleanupTimeout := cleanupTimeout st; timers := timers st;
       nextTimer := nextTimer st; inflight := inflight st;
       saves := saves st; alerts := (alerts st ++ [ALERT_TITLE])%list |}
  else
    {| now := now st; mounted := mounted st; recap_content := recap_content st;
       isLoading := isLoading st; title := title st; isSaving := true;
       hasUnsavedChanges := hasUnsavedChanges st; editorState := editorState st;
       htmlContent := htmlContent st; autoSaveTimeout := autoSaveTimeout st;
       cleanupTimeout := cleanupTimeout st; timers := timers st;
       nextTimer := nextTimer st; inflight := (inflight st ++ [Manual])%list;
       saves := (saves st ++ [{| s_time := now st; s_origin := Manual;
                                 s_content := editorState st;
                                 s_title := title st |}])%list;
       alerts := alerts st |}.

(** The [disabled] attribute of the Save button. *)
Definition saveDisabled (st : State) : bool :=
  isLoading st || isSaving st || negb (nonblank (title st))
  || negb (nonblank (editorState st)).

(** A click on the Save button: a disabled button dispatches nothing; the
    render that follows a click flushes its effects before anything else
    runs. *)
Definition clickSave (st : State) : State :=
  if negb (mounted st) || saveDisabled st then st else effects (handleSave st).

(** [handleTitleChange]; the input is disabled while loading. *)
Definition handleTitleChange (value : jsstring) (st : State) : State :=
  {| now := now st; mounted := mounted st; recap_content := recap_content st;
     isLoading := isLoading st; title := value; isSaving := isSaving st;
     hasUnsavedChanges := true; editorState := editorState st;
     htmlContent := htmlContent st; autoSaveTimeout := autoSaveTimeout st;
     cleanupTimeout := cleanupTimeout st; timers := timers st;
     nextTimer := nextTimer st; inflight := inflight st;
     saves := saves st; alerts := alerts st |}.

Definition typeTitle (value : jsstring) (st : State) : State :=
  if negb (mounted st) || isLoading st then st
  else effects (handleTitleChange value st).

(** The editor's update listener. *)
Definition onEditorUpdate (textContent html : jsstring) (st : State) : State :=
  if negb (mounted st) then st else
  {| now := now st; mounted := mounted st; recap_content := recap_content st;
     isLoading := isLoading st; title := title st; isSaving := isSaving st;
     hasUnsavedChanges := true; editorState := textContent;
     htmlContent := html; autoSaveTimeout := autoSaveTimeout st;
     cleanupTimeout := cleanupTimeout st; timers := timers st;
     nextTimer := nextTimer st; inflight := inflight st;
     saves := saves st; alerts := alerts st |}.

(** The [k]-th pending [onSave] promise settles: the code after the
    [await] of [handleAutoSave] or [handleSave] runs. *)
Definition settle (k : nat) (success : bool) (st : State) : State :=
  match inflight st !! k with
  | Some o =>
      {| now := now st; mounted := mounted st; recap_content := recap_content st;
         isLoading := isLoading st; title := title st;
         isSaving := if mounted st then false else isSaving st;
         hasUnsavedChanges :=
           if mounted st && success then false else hasUnsavedChanges st;
         editorState := editorState st;
         htmlContent := htmlContent st; autoSaveTimeout := autoSaveTimeout st;
         cleanupTimeout := cleanupTimeout st; timers := timers st;
         nextTimer := nextTimer st; inflight := delete k (inflight st);
         saves := saves st;
         alerts := match o, success with
                   | Manual, false => (alerts st ++ [ALERT_FAILED])%list
                   | _, _ => alerts st
                   end |}
  | None => st
  end.

(** A pending timer that is due runs the [handleAutoSave] it was given. *)
Definition fire (id : nat) (st : State) : State :=
  match List.find (fun t => Nat.eqb (t_id t) id) (timers st) with
  | Some t =>
      if (t_due t <=? now st)%N then
        handleAutoSave (t_closure t)
          {| now := now st; mounted := mounted st; recap_content := recap_content st;
             isLoading := isLoading st; title := title st; isSaving := isSaving st;
             hasUnsavedChanges := hasUnsavedChanges st; editorState := editorState st;
             htmlContent := htmlContent st; autoSaveTimeout := autoSaveTimeout st;
             cleanupTimeout := cleanupTimeout st;
             timers := clearTimeout (Some id) (timers st);
             nextTimer := nextTimer st; inflight := inflight st;
             saves := saves st; alerts := alerts st |}
      else st
  | None => st
  end.

(** A render outside a click or keystroke (after the editor's listener, a
    settled promise, a timer, the effect's own [setAutoSaveTimeout], or a
    new [onSave] from the parent) and its effects. *)
Definition rerender (st : State) : State :=
  if mounted st then effects st else st.

Definition setLoading (b : bool) (st : State) : State :=
  if negb (mounted st) then st else
  {| now := now st; mounted := mounted st; recap_content := recap_content st;
     isLoading := b; title := title st; isSaving := isSaving st;
     hasUnsavedChanges := hasUnsavedChanges st; editorState := editorState st;
     htmlContent := htmlContent st; autoSaveTimeout := autoSaveTimeout st;
     cleanupTimeout := cleanupTimeout st; timers := timers st;
     nextTimer := nextTimer st; inflight := inflight st;
     saves := saves st; alerts := alerts st |}.

(** Unmounting runs the cleanup of the last effect run. *)
Definition unmount (st : State) : State :=
  if negb (mounted st) then st else
  {| now := now st; mounted := false; recap_content := recap_content st;
     isLoading := isLoading st; title := title st; isSaving := isSaving st;
     hasUnsavedChanges := hasUnsavedChanges st; editorState := editorState st;
     htmlContent := htmlContent st; autoSaveTimeout := autoSaveTimeout st;
     cleanupTimeout := cleanupTimeout st;
     timers := clearTimeout (cleanupTimeout st) (timers st);
     nextTimer := nextTimer st; inflight := inflight st;
     saves := saves st; alerts := alerts st |}.

Definition advance (dt : N) (st : State) : State :=
  {| now := (now st + dt)%N; mounted := mounted st; recap_content := recap_content st;
     isLoading := isLoading st; title := title st; isSaving := isSaving st;
     hasUnsavedChanges := hasUnsavedChanges st; editorState := editorState st;
     htmlContent := htmlContent st; autoSaveTimeout := autoSaveTimeout st;
     cleanupTimeout := cleanupTimeout st; timers := timers st;
     nextTimer := nextTimer st; inflight := inflight st;
     saves := saves st; alerts := alerts st |}.

(** The component after its first render and effects:
    [useState(recap?.title || '')] and the other initial values. *)
Definition init (recap_title recap_content : option jsstring) (isLoading : bool) : State :=
  effects
    {| now := 0; mounted := true; recap_content := recap_content;
       isLoading := isLoading;
       title := match recap_title with Some t => t | None => [] end;
       isSaving := false; hasUnsavedChanges := false; editorState := [];
       htmlContent := []; autoSaveTimeout := None; cleanupTimeout := None;
       timers := []; nextTimer := 1; inflight := []; saves := []; alerts := [] |}.

Inductive event : Type :=
| EditorUpdate (textContent html : jsstring)
| TitleInput (value : jsstring)
| ClickSave
| Settle (k : nat) (success : bool)
| Fire (id : nat)
| Rerender
| SetLoading (b : bool)
| Unmount
| Advance (dt : N).

Definition step (st : State) (e : event) : State :=
  match e with
  | EditorUpdate t h => onEditorUpdate t h st
  | TitleInput v => typeTitle v st
  | ClickSave => clickSave st
  | Settle k success => settle k success st
  | Fire id => fire id st
  | Rerender => rerender st
  | SetLoading b => setLoading b st
  | Unmount => unmount st
  | Advance dt => advance dt st
  end.

Definition run (st : State) (es : list event) : State := fold_left step es st.

(** Events after which the content on screen may differ from what a save
    in progress carries, or after which a save has failed. *)
Definition disturbs (e : event) : bool :=
  match e with
  | EditorUpdate _ _ | TitleInput _ => true
  | Settle _ success => negb success
  | _ => false
  end.

Definition is_auto (s : Save) : bool :=
  match s_origin s with Auto => true | Manual => false end.

(** The auto-saves of a log. *)
Definition auto_saves (l : list Save) : list Save := List.filter is_auto l.

(** Every two entries of a log lie at least [d] apart, in log order. *)
Fixpoint spaced (d : N) (l : list Save) : Prop :=
  match l with
  | [] => True
  | s :: l' => Forall (fun s' => (s_time s + d <= s_time s')%N) l' /\ spaced d l'
  end.

End Editor.

(* ===================================================================== *)
(** ** Invariants and sample runs used by the theorems *)
(* ===================================================================== *)

Module YahooAux.
Import Js Yahoo.

(** The part of the state that the duplicate guard is about. *)
Definition core (st : State) : N * gset string * list (N * string) * list (N * string) :=
  (now st, processedCodes st, timers st, exchanges st).

(** The invariant behind the guard: timers and set go together, and a
    recent exchange still has its timer. *)
Record guard_inv (st : State) : Prop := {
  gi_unique : forall i j d1 d2 c,
    timers st !! i = Some (d1, c) -> timers st !! j = Some (d2, c) -> i = j;
  gi_marked : forall i d c, timers st !! i = Some (d, c) -> c ∈ processedCodes st;
  gi_pending : forall t c, (t, c) ∈ exchanges st -> (now st < t + EXPIRY)%N ->
    exists i, timers st !! i = Some ((t + EXPIRY)%N, c);
  gi_past : forall t c, (t, c) ∈ exchanges st -> (t <= now st)%N;
  gi_spaced : forall i j t1 t2 c, i < j ->
    exchanges st !! i = Some (t1, c) -> exchanges st !! j = Some (t2, c) ->
    (t1 + EXPIRY <= t2)%N
}.

End YahooAux.

Module EditorAux.
Import JsString Editor.

(** At most one timer is pending, and it is the one held in state. *)
Definition single_timer (st : State) : Prop :=
  timers st = [] \/ exists t, timers st = [t] /\ autoSaveTimeout st = Some (t_id t).

(** What the log and the pending timer have to do with the clock. *)
Record timing (st : State) : Prop := {
  tm_single : single_timer st;
  tm_past : Forall (fun s => (s_time s <= now st)%N) (saves st);
  tm_due : Forall (fun t => Forall (fun s => (s_time s + AUTOSAVE_DELAY <= t_due t)%N)
                              (auto_saves (saves st))) (timers st);
  tm_spaced : spaced AUTOSAVE_DELAY (auto_saves (saves st))
}.

(** Nothing can auto-save: the guard of every pending [handleAutoSave]
    fails, and so does the guard of any that the state would arm. *)
Record quiet (st : State) : Prop := {
  q_state : mounted st = true -> isSaving st = true \/ hasUnsavedChanges st = false;
  q_timers : Forall (fun t => autosave_guard (t_closure t) = false) (timers st)
}.

End EditorAux.

Module Samples.
Import JsString Js.
Local Open Scope string_scope.

(** A backend that accepts the exchange and has no league to import. *)
Definition friendly_world : World :=
  {| getSession := Ok None;
     fetch := fun _ => Ok {| ok := true; status := 200; statusText := "OK";
                             json := Ok (JObj [("success", JBool true)]) |} |}.

(** The same code submitted again just before five minutes have passed. *)
Definition resubmission : list Yahoo.event :=
  [ Yahoo.Callback "ABC123" (Some "xyz") (Some "token") friendly_world;
    Yahoo.Advance 299999;
    Yahoo.Callback "ABC123" (Some "xyz") (Some "token") friendly_world ].

(** A signed-in user and a backend that answers 404. *)
Definition sample_world : World :=
  {| getSession := Ok (Some {| access_token := "jwt" |});
     fetch := fun _ => Ok {| ok := false; status := 404; statusText := "Not Found";
                             json := Ok JNull |} |}.

(** A signed-in user and a backend that answers 201 with a JSON body. *)
Definition created_world : World :=
  {| getSession := Ok (Some {| access_token := "jwt" |});
     fetch := fun _ => Ok {| ok := true; status := 201; statusText := "Created";
                             json := Ok (JObj [("success", JBool true)]) |} |}.

(** A serializer, good enough for scalars. *)
Definition show_body (v : jsvalue) : string :=
  match v with
  | JNum z => NilZero.string_of_int (Z.to_int z)
  | JBool true => "true"
  | JBool false => "false"
  | JStr s => s
  | _ => "{}"
  end.



(** An editor with text and no title. *)
Definition untitled : Editor.State :=
  Editor.run (Editor.init None None false)
    [Editor.EditorUpdate (lit "What a week") (lit "<p>What a week</p>")].

(** A connection that keeps dropping right after it opened. *)
Definition flapping : list WebSocketHook.event :=
  [ WebSocketHook.Connect; WebSocketHook.OnClose 0 1006; WebSocketHook.Advance 3000;
    WebSocketHook.Fire 1; WebSocketHook.OnOpen 1; WebSocketHook.OnClose 1 1006 ].

(** Seven recaps in answer to a request for a page of six. *)
Definition oversized : RecapsOverview.PaginatedResponse nat :=
  {| RecapsOverview.success := true; RecapsOverview.data := [1; 2; 3; 4; 5; 6; 7];
     RecapsOverview.count := 7; RecapsOverview.has_more := Some false;
     RecapsOverview.total := Some 7%N |}.

End Samples.

(* ===================================================================== *)
(** ** Vocabulary for the statements about the Markdown export *)
(* ===================================================================== *)

Module MarkdownAux.
Import JsString Regex ExportUtils ExportAux.

(** Index of the first [>] of [s]. *)
Fixpoint until_gt (s : jsstring) : option nat :=
  match s with
  | [] => None
  | c :: s' => if (GT_ =? c)%N then Some 0 else option_map S (until_gt s')
  end.

(** No [<] of [s] has a [>] anywhere after it: [s] holds no tag. *)
Fixpoint tag_free (s : jsstring) : Prop :=
  match s with
  | [] => True
  | c :: s' => (c = LT_ -> ~ In GT_ s') /\ tag_free s'
  end.

(** One line of text with no markup: no [<] and no line terminator. *)
Definition inline_text (t : jsstring) : bool :=
  forallb (fun c => negb (LT_ =? c)%N && negb (is_line_terminator c)) t.

(** Text that is not empty and that [trim] would leave alone. *)
Definition solid (t : jsstring) : bool :=
  match head t, last t with
  | Some a, Some b => negb (is_trimmed a) && negb (is_trimmed b)
  | _, _ => false
  end.

(** Each block followed by an empty line. *)
Definition blocks (texts : list jsstring) : jsstring :=
  concat (map (fun t => t ++ [NL; NL]) texts).

(** The blocks with one empty line between them. *)
Fixpoint join_blank (texts : list jsstring) : jsstring :=
  match texts with
  | [] => []
  | t :: ts => match ts with [] => t | _ :: _ => t ++ [NL; NL] ++ join_blank ts end
  end.

(** Match state after [<h1>] and the opening of group 1. *)
Definition h1_entered : mstate := {| m_pos := 4; m_open := [(1, 4)]; m_caps := [] |}.

(** What follows the lazy [.*?] of the [h1] pattern. *)
Definition h1_tail : list node :=
  Close 1 :: chars "</h1>".

End MarkdownAux.

(* ===================================================================== *)
(** ** Documents of headings, paragraphs and lists, in HTML and in Markdown *)
(* ===================================================================== *)

Module MarkdownDoc.
Import JsString Regex ExportUtils ExportAux MarkdownAux.

(** The block elements that the export turns into lines of Markdown. *)
Inductive kind : Type := Head1 | Head2 | Head3 | Head4 | Head5 | Head6 | Para | Item.

(** The inline elements that it turns into marks. *)
Inductive style : Type := Strong | Bold | Em | Italic.

(** The tags around the items of a list. *)
Inductive wrapper : Type := UlOpen | UlClose | OlOpen | OlClose.

Definition kind_tag (k : kind) : string :=
  match k with
  | Head1 => "h1" | Head2 => "h2" | Head3 => "h3"
  | Head4 => "h4" | Head5 => "h5" | Head6 => "h6"
  | Para => "p" | Item => "li"
  end%string.

(** What the step of [k] writes in front of the text. *)
Definition kind_mark (k : kind) : jsstring :=
  match k with
  | Head1 => lit "# " | Head2 => lit "## " | Head3 => lit "### "
  | Head4 => lit "#### " | Head5 => lit "##### " | Head6 => lit "###### "
  | Para => []
  | Item => lit "- "
  end.

(** The line feeds it writes after the text. *)
Definition kind_gap (k : kind) : jsstring :=
  match k with
  | Para => [NL; NL]
  | _ => [NL]
  end.

Definition kind_template (k : kind) : list piece :=
  match k with
  | Para => [Grp 1; Txt [NL; NL]]
  | _ => [Txt (kind_mark k); Grp 1; Txt [NL]]
  end.

Definition kind_step (k : kind) : regex * list piece :=
  (element_re (kind_tag k), kind_template k).

Definition style_tag (s : style) : string :=
  match s with
  | Strong => "strong" | Bold => "b" | Em => "em" | Italic => "i"
  end%string.

Definition style_mark (s : style) : jsstring :=
  match s with
  | Strong | Bold => lit "**"
  | Em | Italic => lit "*"
  end.

Definition style_template (s : style) : list piece :=
  [Txt (style_mark s); Grp 1; Txt (style_mark s)].

Definition style_step (s : style) : regex * list piece :=
  (element_re (style_tag s), style_template s).

Definition opening (tag : string) : jsstring := lit "<" ++ lit tag ++ lit ">".
Definition closing (tag : string) : jsstring := lit "</" ++ lit tag ++ lit ">".

(** [<tag>inner</tag>] *)
Definition element (tag : string) (inner : jsstring) : jsstring :=
  opening tag ++ inner ++ closing tag.

Definition wrapper_html (w : wrapper) : jsstring :=
  match w with
  | UlOpen => opening "ul" | UlClose => closing "ul"
  | OlOpen => opening "ol" | OlClose => closing "ol"
  end.

(** An opening list tag is dropped, a closing one becomes a line feed. *)
Definition wrapper_markdown (w : wrapper) : jsstring :=
  match w with
  | UlOpen | OlOpen => []
  | UlClose | OlClose => [NL]
  end.

Definition wrapper_step (w : wrapper) : regex * list piece :=
  match w with
  | UlOpen => (open_tag_re "ul", [])
  | UlClose => (close_tag_re "ul", [Txt [NL]])
  | OlOpen => (open_tag_re "ol", [])
  | OlClose => (close_tag_re "ol", [Txt [NL]])
  end.

Definition styles : list style := [Strong; Bold; Em; Italic].
Definition wrappers : list wrapper := [UlOpen; UlClose; OlOpen; OlClose].

(** A run of text inside a block: plain, or wrapped in one inline
    element. *)
Inductive span : Type :=
| Plain (t : jsstring)
| Styled (s : style) (t : jsstring).

Definition span_text (sp : span) : jsstring :=
  match sp with
  | Plain t => t
  | Styled _ t => t
  end.

(** A document is a sequence of block elements and list tags. *)
Inductive block : Type :=
| Element (k : kind) (spans : list span)
| Wrapper (w : wrapper).

(** The HTML of a document. *)
Definition span_html (sp : span) : jsstring :=
  match sp with
  | Plain t => t
  | Styled s t => element (style_tag s) t
  end.

Definition block_html (b : block) : jsstring :=
  match b with
  | Element k spans => element (kind_tag k) (concat (map span_html spans))
  | Wrapper w => wrapper_html w
  end.

Definition doc_html (doc : list block) : jsstring := concat (map block_html doc).

(** Its Markdown, before blank lines are squeezed and the ends trimmed:
    one line per block element. *)
Definition span_markdown (sp : span) : jsstring :=
  match sp with
  | Plain t => t
  | Styled s t => style_mark s ++ t ++ style_mark s
  end.

Definition block_line (k : kind) (spans : list span) : jsstring :=
  kind_mark k ++ concat (map span_markdown spans).

Definition block_markdown (b : block) : jsstring :=
  match b with
  | Element k spans => block_line k spans ++ kind_gap k
  | Wrapper w => wrapper_markdown w
  end.

Definition doc_markdown (doc : list block) : jsstring :=
  concat (map block_markdown doc).

(** The title that [exportAsHTML] puts in front. *)
Definition shown_title (options : ExportOptions) : option jsstring :=
  match title options with
  | Some t => if includeTitle options && truthy t then Some t else None
  | None => None
  end.

Definition title_markdown (options : ExportOptions) : jsstring :=
  match shown_title options with
  | Some t => lit "# " ++ t ++ [NL; NL]
  | None => []
  end.

(** The line feeds that the list tags at the front of [doc] leave. *)
Fixpoint wrapper_gap (doc : list block) : jsstring :=
  match doc with
  | Wrapper w :: rest => wrapper_markdown w ++ wrapper_gap rest
  | _ => []
  end.

(** The lines of the blocks, each with the line feeds that follow it. *)
Fixpoint doc_entries (doc : list block) : list (jsstring * jsstring) :=
  match doc with
  | [] => []
  | Element k spans :: rest =>
      (block_line k spans, kind_gap k ++ wrapper_gap rest) :: doc_entries rest
  | Wrapper _ :: rest => doc_entries rest
  end.

(** The lines of the export: the title as a level-one heading and an
    empty line, then the blocks. *)
Definition doc_lines (options : ExportOptions) (doc : list block)
    : list (jsstring * jsstring) :=
  match shown_title options with
  | Some t => (lit "# " ++ t, [NL; NL] ++ wrapper_gap doc) :: doc_entries doc
  | None => doc_entries doc
  end.

(** Every line with its line feeds. *)
Definition lines_text (ls : list (jsstring * jsstring)) : jsstring :=
  concat (map (fun l => fst l ++ snd l) ls).

(** The same without the line feeds of the last line. *)
Fixpoint join_lines (ls : list (jsstring * jsstring)) : jsstring :=
  match ls with
  | [] => []
  | l :: ls' =>
      match ls' with
      | [] => fst l
      | _ :: _ => fst l ++ snd l ++ join_lines ls'
      end
  end.

(** The title and the text of every span are single lines without [<]. *)
Definition spans_ok (spans : list span) : bool :=
  forallb (fun sp => inline_text (span_text sp)) spans.

Definition block_ok (b : block) : bool :=
  match b with
  | Element _ spans => spans_ok spans
  | Wrapper _ => true
  end.

Definition blocks_ok (doc : list block) : bool := forallb block_ok doc.

Definition well_formed (options : ExportOptions) (doc : list block) : bool :=
  match shown_title options with
  | Some t => inline_text t
  | None => true
  end
  && blocks_ok doc.

(** No line starts or ends with white space or is empty, at most one
    empty line follows a line, and no line feed comes before the first
    line. *)
Definition tidy (options : ExportOptions) (doc : list block) : bool :=
  forallb (fun l => solid (fst l) && (length (snd l) <=? 2)) (doc_lines options doc)
  && match shown_title options, wrapper_gap doc with
     | None, _ :: _ => false
     | _, _ => true
     end.

Definition tidy_line (l : jsstring * jsstring) : Prop :=
  ~ In NL (fst l) /\ solid (fst l) = true /\ (snd l = [NL] \/ snd l = [NL; NL]).

(** The document while the substitutions run: the blocks of the kinds in
    [bd], the spans of the styles in [sd] and the list tags in [wd] are
    Markdown already, the others are still HTML. *)
Definition span_at (sd : style -> bool) (sp : span) : jsstring :=
  match sp with
  | Plain t => t
  | Styled s t =>
      if sd s then style_mark s ++ t ++ style_mark s else element (style_tag s) t
  end.

Definition inner_at (sd : style -> bool) (spans : list span) : jsstring :=
  concat (map (span_at sd) spans).

Definition block_at (bd : kind -> bool) (sd : style -> bool) (wd : wrapper -> bool)
    (b : block) : jsstring :=
  match b with
  | Element k spans =>
      if bd k then kind_mark k ++ inner_at sd spans ++ kind_gap k
      else element (kind_tag k) (inner_at sd spans)
  | Wrapper w => if wd w then wrapper_markdown w else wrapper_html w
  end.

(** What stands in front of the text of a block, and after it. *)
Definition block_front (bd : kind -> bool) (k : kind) : jsstring :=
  if bd k then kind_mark k else opening (kind_tag k).

Definition block_back (bd : kind -> bool) (k : kind) : jsstring :=
  if bd k then kind_gap k else closing (kind_tag k).

Definition doc_at (bd : kind -> bool) (sd : style -> bool) (wd : wrapper -> bool)
    (doc : list block) : jsstring :=
  concat (map (block_at bd sd wd) doc).

Definition kind_eqb (a b : kind) : bool :=
  match a, b with
  | Head1, Head1 | Head2, Head2 | Head3, Head3 | Head4, Head4
  | Head5, Head5 | Head6, Head6 | Para, Para | Item, Item => true
  | _, _ => false
  end.

Definition style_eqb (a b : style) : bool :=
  match a, b with
  | Strong, Strong | Bold, Bold | Em, Em | Italic, Italic => true
  | _, _ => false
  end.

Definition wrapper_eqb (a b : wrapper) : bool :=
  match a, b with
  | UlOpen, UlOpen | UlClose, UlClose | OlOpen, OlOpen | OlClose, OlClose => true
  | _, _ => false
  end.

Definition with_kind (bd : kind -> bool) (k : kind) : kind -> bool :=
  fun j => kind_eqb j k || bd j.

Definition with_style (sd : style -> bool) (s : style) : style -> bool :=
  fun j => style_eqb j s || sd j.

Definition with_wrapper (wd : wrapper -> bool) (w : wrapper) : wrapper -> bool :=
  fun j => wrapper_eqb j w || wd j.

Definition none {A} : A -> bool := fun _ => false.
Definition all {A} : A -> bool := fun _ => true.

(** The literal nodes of a text. *)
Definition lits (w : jsstring) : list node := map (fun c => One (Chr c)) w.

(** No alternative of [re] can match where [w] starts. *)
Definition misses (re : regex) (w : jsstring) : bool :=
  forallb (fun ns => mismatch (re_ignoreCase re) ns w) (re_alts re).

(** After its first character [w] holds no [<]. *)
Definition quiet_tail (w : jsstring) : bool :=
  forallb (fun c => negb (LT_ =? c)%N) (tail w).

Definition one_line (s : jsstring) : bool :=
  forallb (fun c => negb (is_line_terminator c)) s.

(** Text in which every [<] starts a token that [ok] accepts. *)
Inductive ttext (ok : jsstring -> bool) : jsstring -> Prop :=
| tt_nil : ttext ok []
| tt_char (c : char) (s : jsstring) : c <> LT_ -> ttext ok s -> ttext ok (c :: s)
| tt_token (w s : jsstring) : ok w = true -> ttext ok s -> ttext ok (w ++ s).

(** A token at which the pattern [re] does not start. *)
Definition skipped (re : regex) (w : jsstring) : bool :=
  misses re w && quiet_tail w.

(** A token over which the lazy group of the pattern of [tag] runs. *)
Definition passed_by (tag : string) (w : jsstring) : bool :=
  mismatch true (lits (closing tag)) w && quiet_tail w.

(** The match of the pattern of [tag] on [<tag>inner</tag>], [n] the
    length of [inner]. *)
Definition matched (tag : string) (n : nat) : mstate :=
  {| m_pos := length (opening tag) + n + length (closing tag);
     m_open := [(1, length (opening tag))];
     m_caps := [(1, (length (opening tag), length (opening tag) + n))] |}.

End MarkdownDoc.

(* ===================================================================== *)
(** ** exportUtils.ts: text export and download; the editor's export handler *)
(* ===================================================================== *)

Module Exporter.
Import JsString Regex ExportUtils.

(** [exportAsText], given what [root.getTextContent()] returned. *)
Definition exportAsText (options : ExportOptions) (textContent : jsstring) : jsstring :=
  match title options with
  | Some t =>
      if includeTitle options && truthy t
      then t ++ [NL; NL] ++ textContent
      else textContent
  | None => textContent
  end.

(** What the exporter reads from the editor: the HTML of the nodes and
    the text content of the root. *)
Record Document : Type := {
  doc_html : jsstring;
  doc_text : jsstring
}.

(** One call of [downloadFile]. *)
Record Download : Type := {
  content : jsstring;
  filename : jsstring;
  mimeType : string
}.

(** [exportAndDownload]; [format] is the field of that name of the
    options.  Any format other than ['html'] and ['markdown'] takes the
    [default] branch. *)
Definition exportAndDownload (format : string) (options : ExportOptions)
    (filename : option jsstring) (doc : Document) : Download :=
  let baseFilename :=
    match filename with
    | Some f => if truthy f then f else lit "recap"
    | None => lit "recap"
    end in
  if String.eqb format "html" then
    {| content := exportAsHTML options (doc_html doc);
       filename := baseFilename ++ lit "." ++ lit "html";
       mimeType := "text/html" |}
  else if String.eqb format "markdown" then
    {| content := exportAsMarkdown options (doc_html doc);
       filename := baseFilename ++ lit "." ++ lit "md";
       mimeType := "text/markdown" |}
  else
    {| content := exportAsText options (doc_text doc);
       filename := baseFilename ++ lit "." ++ lit "txt";
       mimeType := "text/plain" |}.

Section Editor.
Variable unicode_lower : jsstring -> jsstring.

(** [handleExport] of RecapEditor.tsx: nothing happens before the
    exporter is set up; otherwise the download it triggers. *)
Definition handleExport (exporter : bool) (format : string) (title : jsstring)
    (doc : Document) : option Download :=
  if negb exporter then None
  else
    let filename := sanitizeFilename unicode_lower
                      (if truthy title then title else lit "recap") in
    Some (exportAndDownload format {| title := Some title; includeTitle := true |}
            (Some filename) doc).
End Editor.

End Exporter.

(* ===================================================================== *)
(** ** RecapCard: the content preview *)
(* ===================================================================== *)

Module RecapCard.
Import JsString.

(** [truncateContent(content, maxLength = 150)]; [maxLength] is a
    non-negative integer, [substring(0, maxLength)] the first
    [maxLength] code units. *)
Definition truncateContent (content : jsstring) (maxLength : option nat) : jsstring :=
  let maxLength := match maxLength with Some m => m | None => 150 end in
  if Nat.leb (length content) maxLength then content
  else trim (take maxLength content) ++ lit "...".

End RecapCard.

(* ===================================================================== *)
(** ** GenerateRecapModal.tsx: the week estimate and the submission *)
(* ===================================================================== *)

Module GenerateRecapModal.
Import Js UseApiMutation.
Local Open Scope string_scope.


(** [Math.ceil(a / b)] for an integer [a] and a positive integer [b];
    with times in milliseconds of one and the same year the quotient of
    the doubles is exact enough for [Math.ceil] to give this integer. *)
Definition ceil_div (a b : Z) : Z := (- ((- a) / b))%Z.


(** What one submission of the form did: the callbacks it called,
    whether it handed the reset updater to [setFormData], the state of
    the mutation hook and the requests. *)
Record Outcome : Type := {
  onSuccess_called : bool;
  onClose_called : bool;
  form_reset : bool;
  mutation : MutationState;
  requests : list Request
}.

Section Modal.
Variable API_BASE_URL : string.
Variable JSON_stringify : jsvalue -> string.

(** [handleSubmit]; [formData] holds the fields of the form object. *)
Definition handleSubmit (formData : list (string * jsvalue)) (w : World)
    (log : list Request) : Outcome :=
  let '(result, m, log') :=
    mutate API_BASE_URL JSON_stringify "/recaps/generate" (Some (JObj formData))
      None w log in
  if js_truthy result then
    {| onSuccess_called := true; onClose_called := true; form_reset := true;
       mutation := m; requests := log' |}
  else
    {| onSuccess_called := false; onClose_called := false; form_reset := false;
       mutation := m; requests := log' |}.

End Modal.

End GenerateRecapModal.

(* ===================================================================== *)
(** ** RecapsOverview: the pagination bar and the card handlers *)
(* ===================================================================== *)

Module RecapsPage.
Import Js RecapsOverview.
Local Open Scope string_scope.

(** What the three hooks hand to one render of the page. *)
Record View (T : Type) : Type := {
  recapsLoading : bool;
  recapsError : option string;
  recapsResponse : option (PaginatedResponse T)
}.
Arguments recapsLoading {T} _.
Arguments recapsError {T} _.
Arguments recapsResponse {T} _.

Section Pagination.
Context {T : Type}.

(** [Math.ceil(totalRecaps / pageSize)], the page count of the label. *)
Definition totalPages (v : View T) : N :=
  (totalRecaps (recapsResponse v) + (pageSize - 1)) / pageSize.

(** Whether the render reaches the pagination bar: not the loading
    skeleton, not the error panel, [totalRecaps > 0] and
    [currentPage > 1 || hasMore]. *)
Definition nav_shown (currentPage : N) (v : View T) : bool :=
  negb (recapsLoading v && (currentPage =? 1)%N)
  && negb (match recapsError v with Some e => str_truthy e | None => false end)
  && (0 <? totalRecaps (recapsResponse v))%N
  && ((1 <? currentPage)%N || hasMore currentPage (recapsResponse v)).

(** The [disabled] attributes of the two buttons. *)
Definition prevDisabled (currentPage : N) (v : View T) : bool :=
  (currentPage =? 1)%N || recapsLoading v.

Definition nextDisabled (currentPage : N) (v : View T) : bool :=
  negb (hasMore currentPage (recapsResponse v)) || recapsLoading v.

(** A click on Previous: [setCurrentPage(Math.max(1, currentPage - 1))]. *)
Definition clickPrev (currentPage : N) (v : View T) : N :=
  if nav_shown currentPage v && negb (prevDisabled currentPage v)
  then N.max 1 (currentPage - 1) else currentPage.

(** A click on Next: [setCurrentPage(currentPage + 1)]. *)
Definition clickNext (currentPage : N) (v : View T) : N :=
  if nav_shown currentPage v && negb (nextDisabled currentPage v)
  then (currentPage + 1)%N else currentPage.

Inductive click : Type :=
| Prev (v : View T)     (* a click on Previous while the page shows [v] *)
| Next (v : View T).

Definition step (currentPage : N) (c : click) : N :=
  match c with
  | Prev v => clickPrev currentPage v
  | Next v => clickNext currentPage v
  end.

(** [useState(1)] and the clicks that follow. *)
Definition run (clicks : list click) : N := fold_left step clicks 1%N.

End Pagination.

(** The endpoint of [useRecaps({ page, page_size })]: a parameter is set
    when its number is truthy; the three other filters are undefined in
    this call.  Digits and these keys need no escaping. *)
Definition useRecaps_endpoint (page page_size : N) : string :=
  let queryParams : list (string * string) := [] in
  let queryParams :=
    if (page =? 0)%N then queryParams
    else (queryParams ++ [("page", show_N page)])%list in
  let queryParams :=
    if (page_size =? 0)%N then queryParams
    else (queryParams ++ [("page_size", show_N page_size)])%list in
  let text := String.concat "&" (map (fun p => fst p ++ "=" ++ snd p) queryParams) in
  "/recaps" ++ (if str_truthy text then "?" ++ text else "").

(** State of the page that the two handlers touch, and the requests of
    its hooks. *)
Record Page : Type := {
  currentPage : N;
  deletingRecapId : option string;
  regeneratingRecapId : option string;
  recaps : UseApi.ApiState;               (* useRecaps *)
  deleteRecap : UseApiMutation.MutationState;
  regenerateRecap : UseApiMutation.MutationState;
  sent : list Request
}.

Section Handlers.
Variable API_BASE_URL : string.
Variable JSON_stringify : jsvalue -> string.

(** [handleDeleteRecap]; [confirmed] is what [confirm(...)] returned,
    the two worlds answer the mutation and the refetch. *)
Definition handleDeleteRecap (confirmed : bool) (recapId : string)
    (w_delete w_refetch : World) (st : Page) : Page :=
  if negb confirmed then st
  else
    let '(_, m, log1) :=
      UseApiMutation.mutate API_BASE_URL JSON_stringify ("/recaps/" ++ recapId)
        None None w_delete (sent st) in
    let '(a, log2) :=
      UseApi.fetchData API_BASE_URL (useRecaps_endpoint (currentPage st) pageSize)
        w_refetch log1 in
    {| currentPage := currentPage st; deletingRecapId := None;
       regeneratingRecapId := regeneratingRecapId st; recaps := a;
       deleteRecap := m; regenerateRecap := regenerateRecap st; sent := log2 |}.

(** [handleRegenerateRecap] *)
Definition handleRegenerateRecap (recapId : string)
    (w_regenerate w_refetch : World) (st : Page) : Page :=
  let '(_, m, log1) :=
    UseApiMutation.mutate API_BASE_URL JSON_stringify
      ("/recaps/" ++ recapId ++ "/regenerate") None None w_regenerate (sent st) in
  let '(a, log2) :=
    UseApi.fetchData API_BASE_URL (useRecaps_endpoint (currentPage st) pageSize)
      w_refetch log1 in
  {| currentPage := currentPage st; deletingRecapId := deletingRecapId st;
     regeneratingRecapId := None; recaps := a;
     deleteRecap := deleteRecap st; regenerateRecap := m; sent := log2 |}.

End Handlers.
End RecapsPage.

(* ===================================================================== *)
(** ** Dashboard/RecapEditor.tsx: the page around the editor *)
(* ===================================================================== *)

Module RecapEditorPage.
Import JsString Js UseApiMutation.
Local Open Scope string_scope.

Definition DASHBOARD : string := "/dashboard?tab=recaps".

Section Page.
Variable API_BASE_URL : string.
Variable JSON_stringify : jsvalue -> string.
(** The text of a string of code units as a JSON value. *)
Variable text : jsstring -> jsvalue.
(** [parseInt] *)
Variable parseInt : string -> jsvalue.
(** [new Date().getFullYear().toString()] *)
Variable thisYear : string.

(** [a || b] on a parameter that may be absent. *)
Definition or_default (a : option string) (b : string) : string :=
  match a with
  | Some s => if str_truthy s then s else b
  | None => b
  end.

(** [Boolean(recapId && recap)]; [recap] is the id of the recap given. *)
Definition isEditMode (recapId recap : option string) : bool :=
  match recapId, recap with
  | Some i, Some _ => str_truthy i
  | _, _ => false
  end.

(** [handleSave] of the page, the [onSave] it hands to the editor: the
    promise's outcome, the calls of [navigate], the requests. *)
Definition handleSave (searchParams : string -> option string) (recap : option string)
    (content title : jsstring) (w : World) (log : list Request)
    : result unit * list string * list Request :=
  let '(_, _, log') :=
    (* [isEditMode && recap] *)
    match (if isEditMode (searchParams "id") recap then recap else None) with
    | Some id =>
        mutate API_BASE_URL JSON_stringify ("/recaps/" ++ id)
          (Some (JObj [("title", text title); ("content", text content);
                       ("status", JStr "completed")])) None w log
    | None =>
        mutate API_BASE_URL JSON_stringify "/recaps"
          (Some (JObj [("title", text title); ("content", text content);
                       ("league_id", JStr (or_default (searchParams "league_id") ""));
                       ("week", parseInt (or_default (searchParams "week") "1"));
                       ("season", parseInt (or_default (searchParams "season") thisYear));
                       ("tone", JStr "humorous"); ("length", JStr "medium");
                       ("status", JStr "completed"); ("include_awards", JBool true);
                       ("include_predictions", JBool true);
                       ("focus_on_user_team", JBool false)])) None w log
    end in
  (Ok tt, [DASHBOARD], log').

End Page.
End RecapEditorPage.

(* ===================================================================== *)
(** ** Vocabulary for the statements about the hooks *)
(* ===================================================================== *)

Module UseApiAux.
Import Js UseApi.
Local Open Scope string_scope.

(** Whether reading the session succeeds. *)
Definition session_readable (w : World) : bool :=
  match getSession w with Ok _ => true | Throw _ => false end.

(** An event that runs [fetchData] whatever the hook's state: a call of
    [refetch], or a render with [immediate] set and a changed
    dependency. *)
Definition fetches (e : event) : bool :=
  match e with
  | Render _ imm deps_changed w => imm && deps_changed && session_readable w
  | Refetch w => session_readable w
  end.

(** A request as [fetchData] builds it. *)
Definition plain_get (base : string) (r : Request) : bool :=
  String.eqb (req_method r) "GET"
  && match req_body r with None => true | Some _ => false end
  && String.prefix base (req_url r)
  && match req_headers r with
     | (k, v) :: _ => String.eqb k "Content-Type" && String.eqb v "application/json"
     | [] => false
     end.

End UseApiAux.

Module WebSocketAux.
Import Js WebSocketHook.


(** A hook that has never created a socket. *)
Definition idle (st : State) : Prop :=
  sockets st = [] /\ wsRef st = None /\ timers st = [] /\ isConnected st = false
  /\ scheduled st = [].

End WebSocketAux.

Module EditorLog.
Import JsString Editor.

(** A call of [onSave] that carries a title and a text, neither of them
    blank. *)
Definition filled (s : Save) : bool := nonblank (s_title s) && nonblank (s_content s).

End EditorLog.

(* ===================================================================== *)
(** ** useWebSocket.ts: sending, and the league sync hook *)
(* ===================================================================== *)

Module LeagueSync.
Import Js WebSocketHook.
Local Open Scope string_scope.

Section Hook.
Variable JSON_stringify : jsvalue -> string.

(** [sendMessage]: what it returns and the frame it hands to the
    socket. *)
Definition sendMessage (message : jsvalue) (st : State) : bool * option string :=
  if is_open st then (true, Some (JSON_stringify message)) else (false, None).

(** [subscribeTo] and [unsubscribeFrom] of [useLeagueSyncWebSocket]. *)
Definition subscribeTo (leagueId : string) (st : State) : bool * option string :=
  sendMessage (JObj [("type", JStr "subscribe"); ("league_id", JStr leagueId)]) st.

Definition unsubscribeFrom (leagueId : string) (st : State) : bool * option string :=
  sendMessage (JObj [("type", JStr "unsubscribe"); ("league_id", JStr leagueId)]) st.

End Hook.

(** Property read [v.k] for the keys read here ([type], [data],
    [league_id]): [None] is [undefined], which parsed JSON never holds
    but a missing property reads as; reading a property of [null]
    throws. *)
Definition prop (v : jsvalue) (k : string) : result (option jsvalue) :=
  match v with
  | JNull => Throw (ErrorObj "Cannot read properties of null")
  | JObj fields =>
      Ok (option_map snd (List.find (fun f => String.eqb (fst f) k) fields))
  | _ => Ok None
  end.

(** Keys of the [Map]: any value, [undefined] included. *)
Definition key : Type := option jsvalue.

(** SameValueZero on keys.  Arrays and objects are compared by identity,
    and those of a parsed message are new: they equal no earlier key. *)
Definition same_key (a b : key) : bool :=
  match a, b with
  | None, None => true
  | Some JNull, Some JNull => true
  | Some (JBool x), Some (JBool y) => Bool.eqb x y
  | Some (JNum x), Some (JNum y) => (x =? y)%Z
  | Some (JStr x), Some (JStr y) => String.eqb x y
  | _, _ => false
  end.

(** A [Map], in insertion order. *)
Definition statuses : Type := list (key * jsvalue).

(** [map.set(k, v)]: an existing key keeps its place. *)
Fixpoint map_set (k : key) (v : jsvalue) (m : statuses) : statuses :=
  match m with
  | [] => [(k, v)]
  | (k', v') :: m' =>
      if same_key k' k then (k', v) :: m' else (k', v') :: map_set k v m'
  end.

(** [map.get(k)] *)
Fixpoint map_get (k : key) (m : statuses) : option jsvalue :=
  match m with
  | [] => None
  | (k', v') :: m' => if same_key k' k then Some v' else map_get k m'
  end.

(** [lastMessage?.type === 'league_sync_update'] *)
Definition is_sync_update (lastMessage : option jsvalue) : bool :=
  match lastMessage with
  | None | Some JNull => false
  | Some m =>
      match prop m "type" with
      | Ok (Some (JStr t)) => String.eqb t "league_sync_update"
      | _ => false
      end
  end.

(** The effect that runs when [lastMessage] changes, with the updater it
    hands to [setSyncStatuses] applied; the updater throws when the
    message has no [data] to read [league_id] from. *)
Definition syncEffect (lastMessage : option jsvalue) (prev : statuses) : result statuses :=
  if is_sync_update lastMessage then
    match lastMessage with
    | Some m =>
        match prop m "data" with
        | Ok (Some data) =>
            match prop data "league_id" with
            | Ok league_id => Ok (map_set league_id data prev)
            | Throw e => Throw e
            end
        | Ok None => Throw (ErrorObj "Cannot read properties of undefined")
        | Throw e => Throw e
        end
    | None => Ok prev
    end
  else Ok prev.

End LeagueSync.

(* ===================================================================== *)
(** ** YahooLeagueConnection.tsx: removing a league, the pasted callback URL *)
(* ===================================================================== *)

Module YahooPanel.
Import JsString Js Yahoo.
Local Open Scope string_scope.

(** The component state that [processManualCallback] works on: the state
    of the relay and the pasted URL. *)
Record Panel : Type := {
  relay : State;
  callbackUrl : jsstring
}.

Section Component.
Variable BASE_URL : string.
Variable JSON_stringify : jsvalue -> string.
Variable toString : jsvalue -> string.
(** [new URL(text).searchParams.get]: the constructor throws on text that
    is no URL; [get] gives [null] for a parameter that is absent. *)
Variable URL_searchParams : jsstring -> result (string -> option string).

(** [deleteLeague]; [confirmed] is what [window.confirm] returned. *)
Definition deleteLeague (confirmed : bool) (leagueId : string) (token : option string)
    (w : World) (st : State) : State :=
  if negb confirmed then st
  else
    let req := {| req_url := BASE_URL ++ "/api/v1/leagues/" ++ leagueId;
                  req_method := "DELETE"; req_headers := headers token;
                  req_body := None |} in
    let st1 := log_request req (set_loading true st) in
    let failed := set_error (Some (JStr "Error deleting league")) in
    let st2 :=
      match fetch w req with
      | Ok response =>
          if ok response then set_error None (fetchLeagues BASE_URL token w st1)
          else
            match json response with
            | Ok errorData =>
                match get errorData "detail" with
                | Ok d => set_error (Some (JStr ("Failed to delete league: "
                              ++ toString (js_or d (JStr "Unknown error"))))) st1
                | Throw _ => failed st1
                end
            | Throw _ => failed st1
            end
      | Throw _ => failed st1
      end in
    set_loading false st2.

Definition NO_URL : string := "Please enter the callback URL".
Definition NO_CODE : string :=
  "No authorization code found in URL. Make sure you copied the complete URL.".
Definition BAD_URL : string :=
  "Invalid URL format. Please copy the complete URL from the browser address bar.".

(** [processManualCallback] *)
Definition processManualCallback (token : option string) (w : World) (p : Panel) : Panel :=
  if negb (truthy (trim (callbackUrl p))) then
    {| relay := set_error (Some (JStr NO_URL)) (relay p); callbackUrl := callbackUrl p |}
  else
    let st1 := set_error None (set_loading true (relay p)) in
    let no_code :=
      {| relay := set_loading false (set_error (Some (JStr NO_CODE)) st1);
         callbackUrl := callbackUrl p |} in
    match URL_searchParams (callbackUrl p) with
    | Ok params =>
        match params "code" with
        | Some code =>
            if str_truthy code then
              let st2 := handleYahooCallback BASE_URL JSON_stringify toString
                           code (params "state") token w st1 in
              {| relay := set_loading false (set_manual false st2); callbackUrl := [] |}
            else no_code
        | None => no_code
        end
    | Throw _ =>
        {| relay := set_loading false (set_error (Some (JStr BAD_URL)) st1);
           callbackUrl := callbackUrl p |}
    end.

End Component.

(** An answer that the relay takes for a success: status ok, a body that
    parses, and a truthy [success] in it. *)
Definition accepted (answer : result Response) : bool :=
  match answer with
  | Ok response =>
      ok response &&
      match json response with
      | Ok body => match get body "success" with
                   | Ok success => js_truthy success
                   | Throw _ => false
                   end
      | Throw _ => false
      end
  | Throw _ => false
  end.

Section Requests.
Variable BASE_URL : string.
Variable JSON_stringify : jsvalue -> string.

(** The three requests of the relay, as the handlers build them. *)
Definition exchange_request (code : string) (state token : option string) : Request :=
  {| req_url := BASE_URL ++ "/api/v1/fantasy/yahoo/callback";
     req_method := "POST"; req_headers := headers token;
     req_body := Some (JSON_stringify
       (JObj [("code", JStr code); ("state", opt_str state)])) |}.

Definition import_request (token : option string) : Request :=
  {| req_url := BASE_URL ++ "/api/v1/leagues/connect/yahoo";
     req_method := "POST"; req_headers := headers token;
     req_body := Some (JSON_stringify
       (JObj [("platform", JStr "yahoo"); ("season", JNum 2024)])) |}.

Definition leagues_request (token : option string) : Request :=
  {| req_url := BASE_URL ++ "/api/v1/leagues/"; req_method := "GET";
     req_headers := headers token; req_body := None |}.

Definition delete_request (leagueId : string) (token : option string) : Request :=
  {| req_url := BASE_URL ++ "/api/v1/leagues/" ++ leagueId;
     req_method := "DELETE"; req_headers := headers token; req_body := None |}.

End Requests.

(** [session?.access_token] is truthy. *)
Definition has_token (token : option string) : bool :=
  match token with Some t => str_truthy t | None => false end.

End YahooPanel.

Module YahooExpiry.
Import Js Yahoo.

(** Every processed code has a pending timer that will forget it, due
    no later than 300000 ms from now. *)
Definition forgettable (st : State) : Prop :=
  forall code : string, code ∈ processedCodes st ->
    exists (i : nat) (due : N),
      timers st !! i = Some (due, code) /\ (due <= now st + EXPIRY)%N.

End YahooExpiry.

Module YahooSamples.
Import Js.
Local Open Scope string_scope.

(** A backend that refuses the exchange: the code was used before. *)
Definition refusing_world : World :=
  {| getSession := Ok None;
     fetch := fun _ => Ok {| ok := false; status := 400; statusText := "Bad Request";
                             json := Ok (JObj [("detail",
                               JStr "Token exchange failed: invalid_grant")]) |} |}.

End YahooSamples.

(* ===================================================================== *)
(** * Theorems *)
(* ===================================================================== *)

(** ** The pattern matcher *)

Section RegexFacts.
Import JsString Regex ExportAux.

Lemma m_nodes_many (ic : bool) (idx : nat) (g : bool) (min : nat) (cs : cset)
    (ns : list node) (rest : jsstring) (st : mstate) :
  m_nodes ic idx (Many g min cs :: ns) rest st =
  match min with
  | S min' =>
      match rest with
      | c :: rest' =>
          if accepts ic cs c
          then m_nodes ic idx (Many g min' cs :: ns) rest' (advance st)
          else None
      | [] => None
      end
  | O =>
      if g then
        match rest with
        | c :: rest' =>
            if accepts ic cs c then
              match m_nodes ic idx (Many g 0 cs :: ns) rest' (advance st) with
              | Some r => Some r
              | None => m_nodes ic idx ns rest st
              end
            else m_nodes ic idx ns rest st
        | [] => m_nodes ic idx ns rest st
        end
      else
        match m_nodes ic idx ns rest st with
        | Some r => Some r
        | None =>
            match rest with
            | c :: rest' =>
                if accepts ic cs c
                then m_nodes ic idx (Many g 0 cs :: ns) rest' (advance st)
                else None
            | [] => None
            end
        end
  end.
Proof. destruct min, g, rest; reflexivity. Qed.

Lemma m_nodes_one (ic : bool) (idx : nat) (cs : cset) (ns : list node)
    (rest : jsstring) (st : mstate) :
  m_nodes ic idx (One cs :: ns) rest st =
  match rest with
  | c :: rest' =>
      if accepts ic cs c then m_nodes ic idx ns rest' (advance st) else None
  | [] => None
  end.
Proof. reflexivity. Qed.

(** A match never reads past the end of the text. *)
Lemma m_nodes_pos (ic : bool) (idx : nat) (ns : list node) :
  forall (rest : jsstring) (st r : mstate),
    m_nodes ic idx ns rest st = Some r ->
    m_pos st <= m_pos r <= m_pos st + length rest.
Proof.
  induction ns as [|n ns IH]; intros rest st r H.
  - injection H as <-. lia.
  - destruct n as [cs|g min cs|k|k| |].
    + rewrite m_nodes_one in H. destruct rest as [|c rest']; [discriminate|].
      destruct (accepts ic cs c); [|discriminate].
      apply IH in H. simpl in *. lia.
    + revert min st H. induction rest as [|c rest' IHr]; intros min st H;
        rewrite m_nodes_many in H.
      * destruct min; [|discriminate].
        assert (m_nodes ic idx ns [] st = Some r) as H'
          by (destruct g; [exact H|]; destruct (m_nodes ic idx ns [] st); congruence).
        apply IH in H'. simpl in *. lia.
      * destruct min as [|min'].
        -- destruct g.
           ++ destruct (accepts ic cs c).
              ** destruct (m_nodes ic idx (Many true 0 cs :: ns) rest' (advance st)) eqn:E.
                 --- injection H as <-. apply IHr in E. simpl in *. lia.
                 --- apply IH in H. simpl in *. lia.
              ** apply IH in H. simpl in *. lia.
           ++ destruct (m_nodes ic idx ns (c :: rest') st) eqn:E.
              ** injection H as <-. apply IH in E. simpl in *. lia.
              ** destruct (accepts ic cs c); [|discriminate].
                 apply IHr in H. simpl in *. lia.
        -- destruct (accepts ic cs c); [|discriminate].
           apply IHr in H. simpl in *. lia.
    + simpl in H. apply IH in H. simpl in *. lia.
    + simpl in H. apply IH in H. unfold close_group in H.
      destruct (assoc k (m_open st)); simpl in *; lia.
    + simpl in H. destruct (Nat.eqb (idx + m_pos st) 0); [|discriminate].
      apply IH in H. lia.
    + simpl in H. destruct rest; [|discriminate]. apply IH in H. lia.
Qed.

Lemma exec_at_pos (re : regex) (idx : nat) (rest : jsstring) (m : mstate) :
  exec_at re idx rest = Some m -> m_pos m <= length rest.
Proof.
  unfold exec_at. generalize (re_alts re) as alts.
  induction alts as [|ns alts IH]; simpl; [discriminate|].
  destruct (m_nodes (re_ignoreCase re) idx ns rest m_init) eqn:E.
  - intros [= <-]. apply m_nodes_pos in E. simpl in E. lia.
  - exact IH.
Qed.

(** Dropping the rest of a match is skipping it. *)
Lemma replace_from_skip (re : regex) (tmpl : list piece) :
  forall (s : jsstring) (idx k : nat),
    k <= length s ->
    replace_from re tmpl idx k s = replace_from re tmpl (idx + k) 0 (drop k s).
Proof.
  induction s as [|c s IH]; intros idx k Hk.
  - simpl in Hk. assert (k = 0) as -> by lia. rewrite Nat.add_0_r. reflexivity.
  - destruct k as [|k].
    + rewrite Nat.add_0_r. reflexivity.
    + simpl in Hk. simpl. rewrite IH by lia. f_equal. lia.
Qed.

Lemma replace_from_nil (re : regex) (tmpl : list piece) (idx : nat) :
  exec_at re idx [] = None -> replace_from re tmpl idx 0 [] = [].
Proof. intros H. simpl. rewrite H. reflexivity. Qed.

Lemma replace_from_miss (re : regex) (tmpl : list piece) (idx : nat)
    (c : char) (s : jsstring) :
  exec_at re idx (c :: s) = None ->
  replace_from re tmpl idx 0 (c :: s) = c :: replace_from re tmpl (S idx) 0 s.
Proof. intros H. simpl. rewrite H. reflexivity. Qed.

Lemma replace_from_hit (re : regex) (tmpl : list piece) (idx : nat)
    (s : jsstring) (m : mstate) :
  exec_at re idx s = Some m ->
  0 < m_pos m ->
  replace_from re tmpl idx 0 s =
  expand tmpl s m ++ replace_from re tmpl (idx + m_pos m) 0 (drop (m_pos m) s).
Proof.
  intros H Hpos. pose proof (exec_at_pos _ _ _ _ H) as Hlen.
  destruct s as [|c s]; [simpl in Hlen; lia|].
  simpl. rewrite H. destruct (m_pos m) as [|k] eqn:E; [lia|].
  f_equal. simpl in Hlen. rewrite replace_from_skip by lia.
  simpl. f_equal. lia.
Qed.

End RegexFacts.

Section Runs.
Import JsString Regex ExportAux.

Lemma shift_0 (st : mstate) : shift 0 st = st.
Proof. destruct st. unfold shift. simpl. f_equal. lia. Qed.

Lemma shift_advance (k : nat) (st : mstate) : shift k (advance st) = shift (S k) st.
Proof. unfold shift, advance. simpl. f_equal. lia. Qed.

Lemma accepts_chr_cs (x c : char) : accepts false (Chr x) c = (x =? c)%N.
Proof. reflexivity. Qed.

(** The greedy quantifier takes the whole run. *)
Lemma many_run (idx : nat) (x : char) :
  forall (rest : jsstring) (n : nat) (st : mstate),
    m_nodes false idx [Many true n (Chr x)] rest st =
    if Nat.leb n (lead x rest) then Some (shift (lead x rest) st) else None.
Proof.
  induction rest as [|c rest IH]; intros n st; rewrite m_nodes_many.
  - destruct n; simpl; [rewrite shift_0|]; reflexivity.
  - rewrite accepts_chr_cs. simpl lead. destruct n as [|n].
    + destruct (x =? c)%N.
      * rewrite IH. simpl. rewrite shift_advance. reflexivity.
      * simpl. rewrite shift_0. reflexivity.
    + destruct (x =? c)%N.
      * rewrite IH. simpl Nat.leb. destruct (Nat.leb n (lead x rest)); [|reflexivity].
        rewrite shift_advance. reflexivity.
      * reflexivity.
Qed.

Lemma exec_run (idx : nat) (x : char) (n : nat) (rest : jsstring) :
  exec_at (run_re x n) idx rest =
  if Nat.leb n (lead x rest) then Some (shift (lead x rest) m_init) else None.
Proof.
  unfold exec_at, run_re. cbn [m_alts re_alts re_ignoreCase]. rewrite many_run.
  destruct (Nat.leb n (lead x rest)); reflexivity.
Qed.

Lemma lead_le_length (x : char) (s : jsstring) : lead x s <= length s.
Proof. induction s as [|c s IH]; simpl; [lia|]. destruct (x =? c)%N; simpl; lia. Qed.

Lemma lead_drop (x : char) (s : jsstring) : lead x (drop (lead x s) s) = 0.
Proof.
  induction s as [|c s IH]; [reflexivity|]. simpl.
  destruct (x =? c)%N eqn:E; simpl; [exact IH|]. rewrite E. reflexivity.
Qed.

Lemma lead_repeat (x : char) (k : nat) (t : jsstring) :
  lead x (repeat x k ++ t) = k + lead x t.
Proof.
  induction k as [|k IH]; [reflexivity|]. simpl. rewrite N.eqb_refl, IH. reflexivity.
Qed.

Lemma In_lead (x : char) (s : jsstring) : 0 < lead x s -> In x s.
Proof.
  destruct s as [|c s]; simpl; [lia|]. destruct (N.eqb_spec x c); [|lia].
  intros _. left. congruence.
Qed.

Section Collapse.
Variable x : char.
Variable n : nat.
Hypothesis n_pos : 0 < n.

Lemma collapse_nil (idx : nat) : collapse_from x n idx [] = [].
Proof using n_pos.
  unfold collapse_from. apply replace_from_nil. rewrite exec_run. simpl.
  destruct n; [lia|reflexivity].
Qed.

Lemma collapse_short (idx : nat) (c : char) (s : jsstring) :
  lead x (c :: s) < n ->
  collapse_from x n idx (c :: s) = c :: collapse_from x n (S idx) s.
Proof using Type.
  clear n_pos.
  intros H. unfold collapse_from. apply replace_from_miss. rewrite exec_run.
  destruct (Nat.leb_spec n (lead x (c :: s))); [lia|reflexivity].
Qed.

Lemma collapse_long (idx : nat) (s : jsstring) :
  n <= lead x s ->
  collapse_from x n idx s =
  repeat x (n - 1) ++ collapse_from x n (idx + lead x s) (drop (lead x s) s).
Proof using n_pos.
  intros H. unfold collapse_from.
  assert (exec_at (run_re x n) idx s = Some (shift (lead x s) m_init)) as E.
  { rewrite exec_run. destruct (Nat.leb_spec n (lead x s)); [reflexivity|lia]. }
  rewrite (replace_from_hit _ _ _ _ _ E) by (simpl; lia).
  simpl. rewrite app_nil_r. reflexivity.
Qed.

(** A run shorter than [n] at the front stays as it is. *)
Lemma lead_collapse_short :
  forall (s : jsstring) (idx : nat),
    lead x s < n -> lead x (collapse_from x n idx s) = lead x s.
Proof using n_pos.
  induction s as [|c s IH]; intros idx H.
  - rewrite collapse_nil. reflexivity.
  - rewrite collapse_short by exact H. simpl in *.
    destruct (x =? c)%N; [|reflexivity]. rewrite IH by lia. reflexivity.
Qed.

Lemma norun_repeat (k : nat) (t : jsstring) :
  k < n -> lead x t = 0 -> norun x n t -> norun x n (repeat x k ++ t).
Proof using Type.
  clear n_pos.
  intros Hk H0 Ht. induction k as [|k IH]; [exact Ht|].
  change (repeat x (S k) ++ t) with (x :: (repeat x k ++ t)).
  split; [|apply IH; lia].
  change (x :: repeat x k ++ t) with (repeat x (S k) ++ t).
  rewrite lead_repeat. lia.
Qed.

(** The result holds no run of [n]. *)
Lemma collapse_norun :
  forall (len : nat) (s : jsstring) (idx : nat),
    length s <= len -> norun x n (collapse_from x n idx s).
Proof using n_pos.
  induction len as [|len IH]; intros s idx Hlen.
  - destruct s; [|simpl in Hlen; lia]. rewrite collapse_nil. exact I.
  - destruct s as [|c s]; [rewrite collapse_nil; exact I|].
    destruct (Nat.le_gt_cases n (lead x (c :: s))) as [Hl|Hs].
    + rewrite collapse_long by exact Hl.
      pose proof (lead_le_length x (c :: s)) as Hle.
      apply norun_repeat; [lia| |].
      * rewrite lead_collapse_short; rewrite lead_drop; [reflexivity|lia].
      * apply IH. rewrite length_drop. simpl in *. lia.
    + rewrite collapse_short by exact Hs. split.
      * simpl in *. destruct (x =? c)%N; [|lia].
        rewrite lead_collapse_short by lia. exact Hs.
      * apply IH. simpl in Hlen. lia.
Qed.

(** Text with no run of [n] is left alone. *)
Lemma collapse_fixed :
  forall (s : jsstring) (idx : nat), norun x n s -> collapse_from x n idx s = s.
Proof using n_pos.
  induction s as [|c s IH]; intros idx H.
  - apply collapse_nil.
  - destruct H as [H1 H2]. rewrite collapse_short by exact H1.
    rewrite IH by exact H2. reflexivity.
Qed.

(** Collapsing invents no character. *)
Lemma collapse_In (a : char) :
  forall (len : nat) (s : jsstring) (idx : nat),
    length s <= len -> In a (collapse_from x n idx s) -> In a s.
Proof using n_pos.
  induction len as [|len IH]; intros s idx Hlen Hin.
  - destruct s; [|simpl in Hlen; lia]. rewrite collapse_nil in Hin. exact Hin.
  - destruct s as [|c s]; [rewrite collapse_nil in Hin; exact Hin|].
    destruct (Nat.le_gt_cases n (lead x (c :: s))) as [Hl|Hs].
    + rewrite collapse_long in Hin by exact Hl.
      pose proof (lead_le_length x (c :: s)) as Hle.
      apply in_app_or in Hin as [Hin|Hin].
      * apply repeat_spec in Hin. subst a. apply In_lead. lia.
      * apply IH in Hin; [|rewrite length_drop; simpl in *; lia].
        rewrite <- (take_drop (lead x (c :: s)) (c :: s)). apply in_or_app. now right.
    + rewrite collapse_short in Hin by exact Hs. destruct Hin as [->|Hin].
      * now left.
      * right. apply (IH s (S idx)); [simpl in Hlen; lia|exact Hin].
Qed.

End Collapse.
End Runs.

Section SanitizeFacts.
Import JsString Regex ExportUtils ExportAux.

Ltac split_leb :=
  repeat match goal with
  | |- context [(?a <=? ?b)%N] => destruct (N.leb_spec a b)
  | |- context [(?a =? ?b)%N] => destruct (N.eqb_spec a b)
  | |- context [(?a <? ?b)%N] => destruct (N.ltb_spec a b)
  end; simpl; try reflexivity; try lia.

Lemma accepts_non_alnum (c : char) :
  accepts true (NotIn [(97%N, 122%N); (48%N, 57%N)]) c = negb (is_alnum c).
Proof.
  unfold accepts, existsb, range_mem, canonicalize, lower_ascii, is_alnum,
    is_lower, is_upper, is_digit, in_range, fst, snd.
  destruct (N.leb_spec 97 c), (N.leb_spec c 122), (N.leb_spec 65 c),
    (N.leb_spec c 90), (N.leb_spec 48 c), (N.leb_spec c 57); simpl; split_leb.
Qed.

Lemma exec_non_alnum (idx : nat) (c : char) (s : jsstring) :
  exec_at non_alnum_re idx (c :: s) =
  if is_alnum c then None else Some (advance m_init).
Proof.
  unfold exec_at, non_alnum_re. cbn [m_alts re_alts re_ignoreCase].
  rewrite m_nodes_one, accepts_non_alnum. destruct (is_alnum c); reflexivity.
Qed.

(** Step 1: every character outside [a-zA-Z0-9] becomes an underscore. *)
Lemma replace_non_alnum :
  forall (s : jsstring) (idx : nat),
    replace_from non_alnum_re [Txt [UNDERSCORE]] idx 0 s = map underscore_non_alnum s.
Proof.
  induction s as [|c s IH]; intros idx; [reflexivity|].
  pose proof (exec_non_alnum idx c s) as E. cbn [map].
  unfold underscore_non_alnum at 1. destruct (is_alnum c) eqn:Ha.
  - rewrite replace_from_miss by exact E. rewrite IH. reflexivity.
  - rewrite (replace_from_hit _ _ _ _ _ E) by (simpl; lia).
    simpl. rewrite IH. reflexivity.
Qed.

(** Step 2, against its description. *)
Lemma collapse_runs_run (x : char) :
  forall (k : nat) (s : jsstring),
    lead x s = S k -> collapse_runs x s = x :: collapse_runs x (drop (S k) s).
Proof.
  induction k as [|k IH]; intros s H; destruct s as [|c s]; simpl in H; try lia;
    destruct (N.eqb_spec x c) as [->|]; try lia; injection H as H; simpl.
  - rewrite N.eqb_refl, H. simpl. rewrite drop_0. reflexivity.
  - rewrite N.eqb_refl, H. simpl. apply IH. exact H.
Qed.

Lemma collapse_runs_other (x c : char) (s : jsstring) :
  lead x (c :: s) < 2 -> collapse_runs x (c :: s) = c :: collapse_runs x s.
Proof.
  simpl. destruct (x =? c)%N; [|reflexivity]. intros H.
  destruct (Nat.ltb_spec 0 (lead x s)); [lia|reflexivity].
Qed.

Lemma replace_underscores_spec (x : char) :
  forall (len : nat) (s : jsstring) (idx : nat),
    length s <= len -> collapse_from x 2 idx s = collapse_runs x s.
Proof.
  induction len as [|len IH]; intros s idx Hlen.
  - destruct s; [|simpl in Hlen; lia]. apply collapse_nil. lia.
  - destruct s as [|c s]; [apply collapse_nil; lia|].
    destruct (Nat.le_gt_cases 2 (lead x (c :: s))) as [Hl|Hs].
    + rewrite collapse_long by lia.
      pose proof (lead_le_length x (c :: s)) as Hle.
      destruct (lead x (c :: s)) as [|k] eqn:E; [lia|].
      rewrite (collapse_runs_run x k (c :: s) E). simpl repeat. simpl app.
      f_equal. apply IH. rewrite length_drop. simpl in *. lia.
    + rewrite collapse_short by exact Hs. rewrite collapse_runs_other by exact Hs.
      f_equal. apply IH. simpl in Hlen. lia.
Qed.

(** Step 3: the boundary pattern. *)
Lemma exec_boundary (idx : nat) (rest : jsstring) :
  exec_at boundary_re idx rest =
  match rest with
  | [] => None
  | c :: rest' =>
      if (UNDERSCORE =? c)%N
         && (Nat.eqb idx 0 || match rest' with [] => true | _ => false end)
      then Some (advance m_init) else None
  end.
Proof.
  unfold exec_at, boundary_re. cbn [m_alts re_alts re_ignoreCase].
  destruct rest as [|c [|c' r]], idx as [|idx]; cbn -[N.eqb];
    try reflexivity; destruct (UNDERSCORE =? c)%N; reflexivity.
Qed.

Lemma replace_boundary_tail :
  forall (s : jsstring) (idx : nat),
    replace_from boundary_re [] (S idx) 0 s = strip_last UNDERSCORE s.
Proof.
  induction s as [|c s IH]; intros idx.
  - apply replace_from_nil. apply exec_boundary.
  - pose proof (exec_boundary (S idx) (c :: s)) as E. simpl Nat.eqb in E.
    simpl orb in E. destruct s as [|c' s].
    + cbn [strip_last]. destruct (UNDERSCORE =? c)%N eqn:Ec; simpl in E.
      * rewrite (replace_from_hit _ _ _ _ _ E) by (simpl; lia).
        cbn [expand app advance m_pos m_init drop].
        apply replace_from_nil. apply exec_boundary.
      * rewrite replace_from_miss by exact E. reflexivity.
    + rewrite andb_false_r in E. rewrite replace_from_miss by exact E.
      rewrite IH. reflexivity.
Qed.

Lemma replace_boundary (s : jsstring) :
  replace boundary_re [] s = strip_last UNDERSCORE (strip_first UNDERSCORE s).
Proof.
  unfold replace. destruct s as [|c s].
  - apply replace_from_nil. apply exec_boundary.
  - pose proof (exec_boundary 0 (c :: s)) as E. cbv beta iota in E.
    cbn [Nat.eqb orb] in E. rewrite andb_true_r in E. unfold strip_first.
    destruct (UNDERSCORE =? c)%N eqn:Ec.
    + rewrite (replace_from_hit _ _ _ _ _ E) by (simpl; lia).
      cbn [expand app advance m_pos m_init drop Nat.add].
      apply replace_boundary_tail.
    + rewrite replace_from_miss by exact E. rewrite replace_boundary_tail.
      destruct s; cbn [strip_last]; [rewrite Ec|]; reflexivity.
Qed.

(** The source and the description agree. *)
Lemma sanitizeFilename_steps (title : jsstring) :
  replace boundary_re []
    (replace underscores_re [Txt [UNDERSCORE]]
       (replace non_alnum_re [Txt [UNDERSCORE]] title)) =
  strip_last UNDERSCORE (strip_first UNDERSCORE
    (collapse_runs UNDERSCORE (map underscore_non_alnum title))).
Proof.
  rewrite replace_boundary. f_equal. f_equal.
  unfold replace at 2. rewrite replace_non_alnum.
  apply (replace_underscores_spec UNDERSCORE _ _ 0 (Nat.le_refl _)).
Qed.

End SanitizeFacts.

Section SanitizeShape.
Import JsString Regex ExportUtils ExportAux.

Ltac split_leb :=
  repeat match goal with
  | |- context [(?a <=? ?b)%N] => destruct (N.leb_spec a b)
  | |- context [(?a =? ?b)%N] => destruct (N.eqb_spec a b)
  | |- context [(?a <? ?b)%N] => destruct (N.ltb_spec a b)
  end; cbn -[N.eqb N.leb N.ltb N.add N.sub]; try reflexivity; try lia; try discriminate; try (exfalso; lia).

Lemma underscore_non_alnum_ok (c : char) : alnum_or_us (underscore_non_alnum c) = true.
Proof.
  unfold underscore_non_alnum, alnum_or_us. destruct (is_alnum c) eqn:E.
  - rewrite E. reflexivity.
  - rewrite orb_true_r. reflexivity.
Qed.

Lemma alnum_or_us_ascii (c : char) : alnum_or_us c = true -> is_ascii c = true.
Proof.
  unfold alnum_or_us, is_alnum, is_lower, is_upper, is_digit, in_range, is_ascii,
    UNDERSCORE.
  destruct (N.ltb_spec c 128); [reflexivity|]. split_leb.
Qed.

Lemma lower_filename_char (c : char) :
  alnum_or_us c = true -> filename_char (lower_ascii c) = true.
Proof.
  unfold alnum_or_us, filename_char, lower_ascii, is_alnum, is_lower, is_upper,
    is_digit, in_range, UNDERSCORE.
  destruct (N.leb_spec 65 c), (N.leb_spec c 90); cbn -[N.eqb N.leb N.ltb N.add N.sub]; split_leb.
Qed.

Lemma lower_underscore (c : char) :
  (UNDERSCORE =? lower_ascii c)%N = (UNDERSCORE =? c)%N.
Proof.
  unfold lower_ascii, is_upper, in_range, UNDERSCORE.
  destruct (N.leb_spec 65 c), (N.leb_spec c 90); cbn -[N.eqb N.leb N.ltb N.add N.sub]; split_leb.
Qed.

Lemma lead_map_lower (s : jsstring) :
  lead UNDERSCORE (map lower_ascii s) = lead UNDERSCORE s.
Proof.
  induction s as [|c s IH]; [reflexivity|]. cbn [map lead].
  rewrite lower_underscore, IH. reflexivity.
Qed.

Lemma norun_map_lower (n : nat) (s : jsstring) :
  norun UNDERSCORE n s -> norun UNDERSCORE n (map lower_ascii s).
Proof.
  induction s as [|c s IH]; [trivial|]. intros [H1 H2]. split; [|apply IH, H2].
  change (lower_ascii c :: map lower_ascii s) with (map lower_ascii (c :: s)).
  rewrite lead_map_lower. exact H1.
Qed.

Lemma norun_tail (x : char) (n : nat) (c : char) (s : jsstring) :
  norun x n (c :: s) -> norun x n s.
Proof. intros [_ H]. exact H. Qed.

Lemma In_collapse_runs (x a : char) (s : jsstring) :
  In a (collapse_runs x s) -> In a s.
Proof.
  induction s as [|c s IH]; [trivial|]. simpl.
  destruct ((x =? c)%N && Nat.ltb 0 (lead x s)); simpl; intuition.
Qed.

Lemma In_strip_first (x a : char) (s : jsstring) : In a (strip_first x s) -> In a s.
Proof. destruct s as [|c s]; simpl; [trivial|]. destruct (x =? c)%N; simpl; intuition. Qed.

Lemma In_strip_last (x a : char) (s : jsstring) : In a (strip_last x s) -> In a s.
Proof.
  induction s as [|c s IH]; [trivial|]. destruct s as [|c' s].
  - simpl. destruct (x =? c)%N; simpl; intuition.
  - change (strip_last x (c :: c' :: s)) with (c :: strip_last x (c' :: s)).
    intros [->|H]; [now left|right; apply IH, H].
Qed.

Lemma norun_strip_first (x : char) (n : nat) (s : jsstring) :
  norun x n s -> norun x n (strip_first x s).
Proof.
  destruct s as [|c s]; [trivial|]. simpl strip_first.
  destruct (x =? c)%N; [apply norun_tail|trivial].
Qed.

Lemma lead_strip_last (x : char) (s : jsstring) : lead x (strip_last x s) <= lead x s.
Proof.
  induction s as [|c s IH]; [reflexivity|]. destruct s as [|c' s].
  - simpl. destruct (x =? c)%N eqn:E; simpl; [lia|]. rewrite E. lia.
  - change (strip_last x (c :: c' :: s)) with (c :: strip_last x (c' :: s)).
    cbn [lead] in *. destruct (x =? c)%N; lia.
Qed.

Lemma norun_strip_last (x : char) (n : nat) (s : jsstring) :
  norun x n s -> norun x n (strip_last x s).
Proof.
  induction s as [|c s IH]; [trivial|]. intros [H1 H2]. destruct s as [|c' s].
  - simpl. destruct (x =? c)%N; [exact I|]. split; [exact H1|exact I].
  - change (strip_last x (c :: c' :: s)) with (c :: strip_last x (c' :: s)).
    split; [|apply IH, H2].
    pose proof (lead_strip_last x (c' :: s)) as Hl.
    cbn [lead] in *. destruct (x =? c)%N; lia.
Qed.

Lemma head_strip_first (x : char) (s : jsstring) :
  norun x 2 s -> head (strip_first x s) <> Some x.
Proof.
  destruct s as [|c s]; [discriminate|]. intros [H _]. simpl strip_first.
  destruct (N.eqb_spec x c) as [->|Hne].
  - destruct s as [|c' s]; [discriminate|]. simpl in *.
    rewrite N.eqb_refl in H. destruct (N.eqb_spec c c'); [lia|congruence].
  - simpl. congruence.
Qed.

Lemma head_strip_last (x : char) (s : jsstring) :
  head s <> Some x -> head (strip_last x s) <> Some x.
Proof.
  destruct s as [|c [|c' s]]; simpl; [trivial| |trivial].
  destruct (x =? c)%N; [discriminate|trivial].
Qed.

Lemma last_strip_last (x : char) (s : jsstring) :
  norun x 2 s -> last (strip_last x s) <> Some x.
Proof.
  induction s as [|c s IH]; [discriminate|]. intros [H1 H2]. destruct s as [|c' s].
  - simpl. destruct (N.eqb_spec x c); [discriminate|]. simpl. congruence.
  - change (strip_last x (c :: c' :: s)) with (c :: strip_last x (c' :: s)).
    rewrite last_cons. specialize (IH H2).
    destruct (last (strip_last x (c' :: s))) as [y|] eqn:E; [exact IH|].
    (* the tail was a lone [x]: then [c] is no [x] *)
    destruct s as [|c'' s].
    + revert E. cbn [strip_last].
      destruct (N.eqb_spec x c') as [->|Hne]; [intros _|cbn; discriminate].
      simpl in H1. rewrite N.eqb_refl in H1.
      destruct (N.eqb_spec c' c); [lia|congruence].
    + change (strip_last x (c' :: c'' :: s)) with (c' :: strip_last x (c'' :: s)) in E.
      rewrite last_cons in E. destruct (last (strip_last x (c'' :: s))); discriminate.
Qed.

Lemma head_map_lower (s : jsstring) :
  head s <> Some UNDERSCORE -> head (map lower_ascii s) <> Some UNDERSCORE.
Proof.
  destruct s as [|c s]; [trivial|]. simpl. intros H [= E]. apply H. f_equal.
  pose proof (lower_underscore c) as L. rewrite E, N.eqb_refl in L.
  symmetry in L. apply N.eqb_eq in L. congruence.
Qed.

Lemma lower_is_underscore (c : char) : lower_ascii c = UNDERSCORE -> c = UNDERSCORE.
Proof.
  intros E. pose proof (lower_underscore c) as L. rewrite E, N.eqb_refl in L.
  symmetry in L. apply N.eqb_eq in L. congruence.
Qed.

Lemma last_map_list {A B} (f : A -> B) (l : list A) :
  last (map f l) = option_map f (last l).
Proof.
  induction l as [|a l IH]; [reflexivity|]. cbn [map]. rewrite !last_cons, IH.
  destruct (last l); reflexivity.
Qed.

Lemma last_map_lower (s : jsstring) :
  last s <> Some UNDERSCORE -> last (map lower_ascii s) <> Some UNDERSCORE.
Proof.
  rewrite last_map_list. destruct (last s) as [y|]; [|discriminate].
  simpl. intros H [= E]. apply H. f_equal. apply lower_is_underscore, E.
Qed.

Lemma norun_no_pair (x : char) (l1 l2 : jsstring) :
  ~ norun x 2 (l1 ++ [x; x] ++ l2).
Proof.
  induction l1 as [|c l1 IH]; simpl.
  - rewrite !N.eqb_refl. lia.
  - intros [_ H]. exact (IH H).
Qed.

End SanitizeShape.

Section SanitizeTheorem.
Import JsString Regex ExportUtils ExportAux.

Lemma stripped_alnum_or_us (title : jsstring) :
  Forall (fun c => alnum_or_us c = true)
    (strip_last UNDERSCORE (strip_first UNDERSCORE
       (collapse_runs UNDERSCORE (map underscore_non_alnum title)))).
Proof.
  apply List.Forall_forall. intros a Ha.
  apply In_strip_last, In_strip_first, In_collapse_runs, in_map_iff in Ha.
  destruct Ha as (c & <- & _). apply underscore_non_alnum_ok.
Qed.

Lemma stripped_norun (title : jsstring) :
  norun UNDERSCORE 2
    (strip_first UNDERSCORE
       (collapse_runs UNDERSCORE (map underscore_non_alnum title))).
Proof.
  apply norun_strip_first.
  rewrite <- (replace_underscores_spec UNDERSCORE _ _ 0 (Nat.le_refl _)).
  apply (collapse_norun UNDERSCORE 2 (Nat.lt_0_succ 1) _ _ 0 (Nat.le_refl _)).
Qed.

Lemma toLowerCase_ascii (unicode_lower : jsstring -> jsstring) (s : jsstring) :
  Forall (fun c => alnum_or_us c = true) s ->
  toLowerCase unicode_lower s = map lower_ascii s.
Proof.
  intros H. unfold toLowerCase.
  assert (forallb is_ascii s = true) as ->; [|reflexivity].
  apply forallb_forall. intros c Hc. apply alnum_or_us_ascii.
  rewrite List.Forall_forall in H. exact (H c Hc).
Qed.

(** C10. For every input string, [sanitizeFilename] returns a string of
    lowercase letters, digits and underscores only, with no two
    consecutive underscores and no leading or trailing underscore; it is
    the input with every character outside [a-zA-Z0-9] replaced by an
    underscore, runs of underscores collapsed to one, the boundary
    underscores stripped, and the result lowercased. *)
Theorem sanitizeFilename_shape (unicode_lower : jsstring -> jsstring)
    (title : jsstring) :
  let r := sanitizeFilename unicode_lower title in
  Forall (fun c => filename_char c = true) r
  /\ (forall l1 l2 : jsstring, r <> l1 ++ [UNDERSCORE; UNDERSCORE] ++ l2)
  /\ head r <> Some UNDERSCORE
  /\ last r <> Some UNDERSCORE
  /\ r = sanitize_spec title.
Proof.
  intros r. subst r. unfold sanitizeFilename. rewrite sanitizeFilename_steps.
  pose proof (stripped_alnum_or_us title) as Hall.
  pose proof (stripped_norun title) as Hrun.
  rewrite (toLowerCase_ascii _ _ Hall). fold (sanitize_spec title).
  unfold sanitize_spec.
  set (b := strip_first UNDERSCORE
              (collapse_runs UNDERSCORE (map underscore_non_alnum title))) in *.
  repeat split.
  - apply List.Forall_forall. intros a Ha. apply in_map_iff in Ha as (c & <- & Hc).
    apply lower_filename_char. rewrite List.Forall_forall in Hall. exact (Hall c Hc).
  - intros l1 l2 E. apply (norun_no_pair UNDERSCORE l1 l2). rewrite <- E.
    apply norun_map_lower, norun_strip_last, Hrun.
  - apply head_map_lower, head_strip_last. subst b. apply head_strip_first.
    rewrite <- (replace_underscores_spec UNDERSCORE _ _ 0 (Nat.le_refl _)).
    apply (collapse_norun UNDERSCORE 2 (Nat.lt_0_succ 1) _ _ 0 (Nat.le_refl _)).
  - apply last_map_lower, last_strip_last, Hrun.
Qed.

End SanitizeTheorem.

Section MarkdownFixed.
Import JsString Regex ExportUtils ExportAux.

(** [<] matches itself only, with or without the i flag. *)
Lemma accepts_lt (ic : bool) (c : char) : accepts ic (Chr LT_) c = (LT_ =? c)%N.
Proof.
  unfold accepts, canonicalize, is_lower, in_range, LT_.
  destruct ic; cbn -[N.eqb N.leb N.sub]; [|reflexivity].
  destruct (N.leb_spec 97 c), (N.leb_spec c 122); cbn -[N.eqb N.sub]; try reflexivity.
  destruct (N.eqb_spec 60 (c - 32)), (N.eqb_spec 60 c); try reflexivity; lia.
Qed.

Lemma exec_guarded (re : regex) (idx : nat) (rest : jsstring) :
  lt_guarded re = true -> head rest <> Some LT_ -> exec_at re idx rest = None.
Proof.
  unfold lt_guarded, exec_at. intros Hg Hh.
  induction (re_alts re) as [|ns alts IH]; [reflexivity|].
  simpl in Hg. apply andb_prop in Hg as [Hn Ha]. cbn [m_alts].
  destruct ns as [|[[p| |]| | | | |] ns]; try discriminate.
  apply N.eqb_eq in Hn. subst p. rewrite m_nodes_one.
  destruct rest as [|c rest].
  - exact (IH Ha).
  - rewrite accepts_lt. destruct (N.eqb_spec LT_ c) as [<-|_].
    + exfalso. apply Hh. reflexivity.
    + exact (IH Ha).
Qed.

(** Text without [<] is left alone by a pattern that needs one. *)
Lemma replace_guarded (re : regex) (tmpl : list piece) :
  lt_guarded re = true ->
  forall (s : jsstring) (idx : nat),
    ~ In LT_ s -> replace_from re tmpl idx 0 s = s.
Proof.
  intros Hg. induction s as [|c s IH]; intros idx Hs.
  - apply replace_from_nil. apply exec_guarded; [exact Hg|discriminate].
  - rewrite replace_from_miss.
    + rewrite IH; [reflexivity|]. intros H. apply Hs. now right.
    + apply exec_guarded; [exact Hg|]. simpl. intros [= E]. apply Hs. now left.
Qed.

Lemma apply_steps_guarded (steps : list (regex * list piece)) (s : jsstring) :
  forallb (fun st => lt_guarded (fst st)) steps = true ->
  ~ In LT_ s -> apply_steps steps s = s.
Proof.
  unfold apply_steps. revert s. induction steps as [|[re t] steps IH]; intros s Hg Hs.
  - reflexivity.
  - simpl in Hg. apply andb_prop in Hg as [H1 H2]. cbn [fold_left fst snd].
    unfold replace. rewrite (replace_guarded re t H1 s 0 Hs). apply IH; assumption.
Qed.

Lemma apply_steps_app (a b : list (regex * list piece)) (s : jsstring) :
  apply_steps (a ++ b) s = apply_steps b (apply_steps a s).
Proof. unfold apply_steps. apply fold_left_app. Qed.

Lemma markdown_steps_split :
  markdown_steps = tag_steps ++ [(blank_lines_re, [Txt [NL; NL]])].
Proof. reflexivity. Qed.

Lemma tag_steps_guarded : forallb (fun st => lt_guarded (fst st)) tag_steps = true.
Proof. vm_compute. reflexivity. Qed.

Lemma squeeze_blank_collapse (s : jsstring) : squeeze_blank s = collapse_from NL 3 0 s.
Proof. reflexivity. Qed.

Lemma html_to_markdown_unfold (h : jsstring) :
  html_to_markdown h = trim (squeeze_blank (apply_steps tag_steps h)).
Proof.
  unfold html_to_markdown. rewrite markdown_steps_split, apply_steps_app. reflexivity.
Qed.

(** Facts about [trim]. *)
Lemma trimStart_suffix (s : jsstring) : exists l, s = l ++ trimStart s.
Proof.
  induction s as [|c s [l IH]]; [exists []; reflexivity|]. simpl.
  destruct (is_trimmed c).
  - exists (c :: l). simpl. f_equal. exact IH.
  - exists []. reflexivity.
Qed.

Lemma trimEnd_prefix (s : jsstring) : exists l, s = trimEnd s ++ l.
Proof.
  unfold trimEnd. destruct (trimStart_suffix (rev s)) as [l E].
  exists (rev l). rewrite <- rev_app_distr, <- E, rev_involutive. reflexivity.
Qed.

Lemma trimStart_head (s : jsstring) (c : char) :
  head (trimStart s) = Some c -> is_trimmed c = false.
Proof.
  induction s as [|a s IH]; [discriminate|]. simpl.
  destruct (is_trimmed a) eqn:E; [exact IH|]. simpl. intros [= <-]. exact E.
Qed.

Lemma trimStart_fixed (s : jsstring) :
  (forall c, head s = Some c -> is_trimmed c = false) -> trimStart s = s.
Proof.
  destruct s as [|a s]; [reflexivity|]. intros H. simpl.
  rewrite (H a eq_refl). reflexivity.
Qed.

Lemma trimStart_idem (s : jsstring) : trimStart (trimStart s) = trimStart s.
Proof. apply trimStart_fixed, trimStart_head. Qed.

Lemma trim_idem (s : jsstring) : trim (trim s) = trim s.
Proof.
  unfold trim. set (t := trimStart s).
  assert (trimStart (trimEnd t) = trimEnd t) as ->.
  { apply trimStart_fixed. intros c Hc. apply (trimStart_head s).
    fold t. destruct (trimEnd_prefix t) as [l E].
    destruct (trimEnd t) as [|a u]; [discriminate|].
    rewrite E. exact Hc. }
  unfold trimEnd. rewrite rev_involutive, trimStart_idem. reflexivity.
Qed.

Lemma trim_sublist (s : jsstring) : exists l1 l2, s = l1 ++ trim s ++ l2.
Proof.
  unfold trim. destruct (trimStart_suffix s) as [l1 E1].
  destruct (trimEnd_prefix (trimStart s)) as [l2 E2].
  exists l1, l2. rewrite <- E2. exact E1.
Qed.

Lemma In_trim (a : char) (s : jsstring) : In a (trim s) -> In a s.
Proof.
  destruct (trim_sublist s) as (l1 & l2 & E). intros H. rewrite E.
  apply in_or_app. right. apply in_or_app. now left.
Qed.

Lemma lead_app_le (x : char) (l1 l2 : jsstring) : lead x l1 <= lead x (l1 ++ l2).
Proof.
  induction l1 as [|c l1 IH]; simpl; [lia|]. destruct (x =? c)%N; lia.
Qed.

Lemma norun_app_l (x : char) (n : nat) (l1 l2 : jsstring) :
  norun x n (l1 ++ l2) -> norun x n l1.
Proof.
  induction l1 as [|c l1 IH]; [intros _; exact I|]. rewrite <- app_comm_cons.
  intros [H1 H2]. split; [|apply IH, H2].
  pose proof (lead_app_le x (c :: l1) l2) as Hle. rewrite <- app_comm_cons in Hle. lia.
Qed.

Lemma norun_app_r (x : char) (n : nat) (l1 l2 : jsstring) :
  norun x n (l1 ++ l2) -> norun x n l2.
Proof.
  induction l1 as [|c l1 IH]; [trivial|]. rewrite <- app_comm_cons.
  intros [_ H]. apply IH, H.
Qed.

Lemma norun_trim (x : char) (n : nat) (s : jsstring) :
  norun x n s -> norun x n (trim s).
Proof.
  destruct (trim_sublist s) as (l1 & l2 & E). intros H. rewrite E in H.
  apply norun_app_r, norun_app_l in H. exact H.
Qed.

(** Markdown that holds no [<] is a fixed point of the conversion. *)
Lemma html_to_markdown_fixed (h : jsstring) :
  ~ In LT_ (html_to_markdown h) ->
  html_to_markdown (html_to_markdown h) = html_to_markdown h.
Proof.
  intros Hlt. rewrite (html_to_markdown_unfold (html_to_markdown h)).
  rewrite (apply_steps_guarded _ _ tag_steps_guarded Hlt).
  rewrite squeeze_blank_collapse, collapse_fixed; [| lia |].
  - rewrite html_to_markdown_unfold. apply trim_idem.
  - rewrite html_to_markdown_unfold. apply norun_trim.
    rewrite squeeze_blank_collapse.
    apply (collapse_norun NL 3 (Nat.lt_0_succ 2) _ _ 0 (Nat.le_refl _)).
Qed.

End MarkdownFixed.

Section Paragraphs.
Import JsString Regex ExportUtils ExportAux.

Lemma ptext_app (a b : jsstring) : ptext a -> ptext b -> ptext (a ++ b).
Proof.
  intros Ha Hb. induction Ha as [|c s Hc Hs IH|s Hs IH|s Hs IH].
  - exact Hb.
  - apply pt_char; assumption.
  - rewrite <- app_assoc. apply pt_open, IH.
  - rewrite <- app_assoc. apply pt_close, IH.
Qed.

Lemma plain_ptext (t : jsstring) : plain t -> ptext t.
Proof.
  unfold plain. induction t as [|c t IH]; intros H; [constructor|].
  apply pt_char.
  - intros ->. apply H. now left.
  - apply IH. intros Hin. apply H. now right.
Qed.

Lemma paragraphs_ptext (texts : list jsstring) :
  Forall plain texts -> ptext (paragraphs_html texts).
Proof.
  induction 1 as [|t texts Ht _ IH]; [constructor|].
  unfold paragraphs_html. cbn [map concat]. fold (paragraphs_html texts).
  unfold paragraph. rewrite <- !app_assoc. apply pt_open.
  apply ptext_app; [apply plain_ptext, Ht|]. apply pt_close, IH.
Qed.

Lemma mismatch_none (ic : bool) (idx : nat) :
  forall (ns : list node) (w s : jsstring) (st : mstate),
    mismatch ic ns w = true -> m_nodes ic idx ns (w ++ s) st = None.
Proof.
  induction ns as [|n ns IH]; intros w s st H; [discriminate|].
  destruct n as [[p| |]| | | | |]; try discriminate.
  destruct w as [|c w]; [discriminate|]. cbn [mismatch] in H.
  rewrite <- app_comm_cons, m_nodes_one.
  destruct (accepts ic (Chr p) c); [|reflexivity]. apply IH. exact H.
Qed.

Lemma misses_tokens_exec (re : regex) (idx : nat) (s : jsstring) :
  misses_tokens re = true ->
  exec_at re idx (lit "<p>" ++ s) = None /\ exec_at re idx (lit "</p>" ++ s) = None.
Proof.
  unfold misses_tokens, exec_at. induction (re_alts re) as [|ns alts IH]; intros H.
  - split; reflexivity.
  - cbn [forallb] in H. apply andb_prop in H as [H1 H2].
    apply andb_prop in H1 as [Ho Hc]. destruct (IH H2) as [IHo IHc].
    cbn [m_alts]. rewrite (mismatch_none _ idx ns _ s m_init Ho).
    rewrite (mismatch_none _ idx ns _ s m_init Hc). split; assumption.
Qed.

Lemma replace_misses (re : regex) (tmpl : list piece) :
  lt_guarded re = true -> misses_tokens re = true ->
  forall s : jsstring, ptext s ->
  forall idx : nat, replace_from re tmpl idx 0 s = s.
Proof.
  intros Hg Hm s Hs. induction Hs as [|c s Hc Hs IH|s Hs IH|s Hs IH]; intros idx.
  - apply replace_from_nil. apply exec_guarded; [exact Hg|discriminate].
  - rewrite replace_from_miss, IH; [reflexivity|].
    apply exec_guarded; [exact Hg|]. simpl. congruence.
  - destruct (misses_tokens_exec re idx s Hm) as [E _].
    change (lit "<p>" ++ s) with (60%N :: 112%N :: 62%N :: s) in *.
    rewrite (replace_from_miss _ _ _ _ _ E).
    rewrite !replace_from_miss, IH; try reflexivity;
      apply exec_guarded; try exact Hg; discriminate.
  - destruct (misses_tokens_exec re idx s Hm) as [_ E].
    change (lit "</p>" ++ s) with (60%N :: 47%N :: 112%N :: 62%N :: s) in *.
    rewrite (replace_from_miss _ _ _ _ _ E).
    rewrite !replace_from_miss, IH; try reflexivity;
      apply exec_guarded; try exact Hg; discriminate.
Qed.

Lemma apply_steps_misses (steps : list (regex * list piece)) (s : jsstring) :
  forallb (fun st => lt_guarded (fst st) && misses_tokens (fst st)) steps = true ->
  ptext s -> apply_steps steps s = s.
Proof.
  unfold apply_steps. revert s. induction steps as [|[re t] steps IH]; intros s Hg Hs.
  - reflexivity.
  - cbn [forallb] in Hg. apply andb_prop in Hg as [H1 H2].
    apply andb_prop in H1 as [Ha Hb]. cbn [fold_left fst snd].
    unfold replace. rewrite (replace_misses re t Ha Hb s Hs 0). apply IH; assumption.
Qed.

(** The tag pattern deletes each [<p>] and [</p>]. *)
Lemma any_tag_ptext (s : jsstring) :
  ptext s -> forall idx : nat, ~ In LT_ (replace_from any_tag_re [] idx 0 s).
Proof.
  assert (lt_guarded any_tag_re = true) as Hg by reflexivity.
  induction 1 as [|c s Hc Hs IH|s Hs IH|s Hs IH]; intros idx.
  - rewrite replace_from_nil; [intros []|].
    apply exec_guarded; [exact Hg|discriminate].
  - rewrite replace_from_miss.
    + intros [E|Hin]; [congruence|exact (IH _ Hin)].
    + apply exec_guarded; [exact Hg|]. simpl. congruence.
  - assert (exec_at any_tag_re idx (lit "<p>" ++ s)
            = Some (advance (advance (advance m_init)))) as E by reflexivity.
    rewrite (replace_from_hit _ _ _ _ _ E) by (simpl; lia). apply IH.
  - assert (exec_at any_tag_re idx (lit "</p>" ++ s)
            = Some (advance (advance (advance (advance m_init))))) as E by reflexivity.
    rewrite (replace_from_hit _ _ _ _ _ E) by (simpl; lia). apply IH.
Qed.

End Paragraphs.

Section ParagraphStep.
Import JsString Regex ExportUtils ExportAux.

Lemma exec_p_open (idx : nat) (s : jsstring) :
  exec_at (element_re "p") idx (lit "<p>" ++ s) =
  match m_nodes true idx (Many false 0 Dot :: p_tail) s p_entered with
  | Some r => Some r
  | None => None
  end.
Proof. reflexivity. Qed.

Lemma p_tail_sound (idx : nat) (rest : jsstring) (st r : mstate) :
  m_nodes true idx p_tail rest st = Some r ->
  exists x0 x1 x2 x3 rest',
    rest = x0 :: x1 :: x2 :: x3 :: rest'
    /\ accepts true (Chr 60%N) x0 = true
    /\ accepts true (Chr 47%N) x1 = true
    /\ accepts true (Chr 112%N) x2 = true
    /\ accepts true (Chr 62%N) x3 = true
    /\ r = advance (advance (advance (advance (close_group 1 st)))).
Proof.
  unfold p_tail. cbn [m_nodes]. intros H.
  destruct rest as [|x0 rest]; [discriminate|].
  destruct (accepts true (Chr 60%N) x0) eqn:E0; [|discriminate].
  destruct rest as [|x1 rest]; [discriminate|].
  destruct (accepts true (Chr 47%N) x1) eqn:E1; [|discriminate].
  destruct rest as [|x2 rest]; [discriminate|].
  destruct (accepts true (Chr 112%N) x2) eqn:E2; [|discriminate].
  destruct rest as [|x3 rest]; [discriminate|].
  destruct (accepts true (Chr 62%N) x3) eqn:E3; [|discriminate].
  injection H as <-. exists x0, x1, x2, x3, rest. repeat split; assumption.
Qed.

(** The lazy run stops in front of some [</p>]. *)
Lemma p_lazy_sound (idx : nat) :
  forall (s : jsstring) (st r : mstate),
    m_nodes true idx (Many false 0 Dot :: p_tail) s st = Some r ->
    exists v x0 x1 x2 x3 rest,
      s = v ++ x0 :: x1 :: x2 :: x3 :: rest
      /\ accepts true (Chr 60%N) x0 = true
      /\ accepts true (Chr 47%N) x1 = true
      /\ accepts true (Chr 112%N) x2 = true
      /\ accepts true (Chr 62%N) x3 = true
      /\ r = advance (advance (advance (advance
               (close_group 1 (shift (length v) st))))).
Proof.
  induction s as [|c s IH]; intros st r H; rewrite m_nodes_many in H.
  - destruct (m_nodes true idx p_tail [] st) eqn:E; [|discriminate].
    apply p_tail_sound in E as (x0 & x1 & x2 & x3 & rest & E & _). discriminate.
  - destruct (m_nodes true idx p_tail (c :: s) st) eqn:E.
    + injection H as <-.
      apply p_tail_sound in E as (x0 & x1 & x2 & x3 & rest & E & A0 & A1 & A2 & A3 & ->).
      exists [], x0, x1, x2, x3, rest. rewrite shift_0. repeat split; assumption.
    + destruct (accepts true Dot c); [|discriminate].
      apply IH in H as (v & x0 & x1 & x2 & x3 & rest & E' & A0 & A1 & A2 & A3 & ->).
      exists (c :: v), x0, x1, x2, x3, rest. rewrite shift_advance.
      repeat split; try assumption. rewrite E'. reflexivity.
Qed.

Lemma ptext_split (s : jsstring) :
  ptext s ->
  forall (v : jsstring) (x0 x1 x2 x3 : char) (rest : jsstring),
    s = v ++ x0 :: x1 :: x2 :: x3 :: rest ->
    accepts true (Chr 60%N) x0 = true ->
    accepts true (Chr 47%N) x1 = true ->
    accepts true (Chr 112%N) x2 = true ->
    accepts true (Chr 62%N) x3 = true ->
    ptext v /\ ptext rest.
Proof.
  induction 1 as [|c s Hc Hs IH|s Hs IH|s Hs IH]; intros v x0 x1 x2 x3 rest E A0 A1 A2 A3.
  - destruct v; discriminate.
  - destruct v as [|a v]; injection E as -> E.
    + rewrite (accepts_lt true) in A0. apply N.eqb_eq in A0. congruence.
    + destruct (IH _ _ _ _ _ _ E A0 A1 A2 A3) as [Hv Hr].
      split; [apply pt_char|]; assumption.
  - change (lit "<p>" ++ s) with (60%N :: 112%N :: 62%N :: s) in E.
    destruct v as [|a [|b [|c v]]]; cbn [app] in E.
    + injection E as <- <- <- E. discriminate A1.
    + injection E as <- <- <- E. discriminate A0.
    + injection E as <- <- <- E. discriminate A0.
    + injection E as <- <- <- E.
      destruct (IH _ _ _ _ _ _ E A0 A1 A2 A3) as [Hv Hr].
      split; [exact (pt_open _ Hv)|exact Hr].
  - change (lit "</p>" ++ s) with (60%N :: 47%N :: 112%N :: 62%N :: s) in E.
    destruct v as [|a [|b [|c [|d v]]]]; cbn [app] in E.
    + injection E as <- <- <- <- <-. split; [constructor|exact Hs].
    + injection E as <- <- <- <- E. discriminate A0.
    + injection E as <- <- <- <- E. discriminate A0.
    + injection E as <- <- <- <- E. discriminate A0.
    + injection E as <- <- <- <- E.
      destruct (IH _ _ _ _ _ _ E A0 A1 A2 A3) as [Hv Hr].
      split; [exact (pt_close _ Hv)|exact Hr].
Qed.

(** The paragraph substitution keeps the invariant. *)
Lemma p_step_ptext :
  forall (len : nat) (s : jsstring) (idx : nat),
    length s <= len -> ptext s ->
    ptext (replace_from (element_re "p") p_template idx 0 s).
Proof.
  assert (lt_guarded (element_re "p") = true) as Hg by reflexivity.
  induction len as [|len IH]; intros s idx Hlen Hs.
  - destruct s; [|simpl in Hlen; lia].
    rewrite replace_from_nil; [constructor|].
    apply exec_guarded; [exact Hg|discriminate].
  - destruct Hs as [|c s Hc Hs|s Hs|s Hs].
    + rewrite replace_from_nil; [constructor|].
      apply exec_guarded; [exact Hg|discriminate].
    + rewrite replace_from_miss.
      * apply pt_char; [exact Hc|]. apply IH; [simpl in Hlen; lia|exact Hs].
      * apply exec_guarded; [exact Hg|]. simpl. congruence.
    + destruct (exec_at (element_re "p") idx (lit "<p>" ++ s)) as [m|] eqn:E.
      * pose proof E as E'. rewrite exec_p_open in E'.
        destruct (m_nodes true idx (Many false 0 Dot :: p_tail) s p_entered)
          as [r|] eqn:Er; [|discriminate].
        injection E' as ->.
        apply p_lazy_sound in Er
          as (v & x0 & x1 & x2 & x3 & rest & Es & A0 & A1 & A2 & A3 & ->).
        destruct (ptext_split s Hs _ _ _ _ _ _ Es A0 A1 A2 A3) as [Hv Hr].
        rewrite (replace_from_hit _ _ _ _ _ E) by (simpl; lia).
        assert (expand p_template (lit "<p>" ++ s)
                  (advance (advance (advance (advance
                     (close_group 1 (shift (length v) p_entered))))))
                = v ++ [NL; NL]) as ->.
        { cbn. rewrite Nat.sub_0_r, drop_0, Es, take_app_length. reflexivity. }
        assert (drop (m_pos (advance (advance (advance (advance
                   (close_group 1 (shift (length v) p_entered)))))))
                  (lit "<p>" ++ s) = rest) as ->.
        { cbn. rewrite Es.
          replace (S (S (S (S (length v))))) with (length v + 4) by lia.
          rewrite <- drop_drop, drop_app_length. reflexivity. }
        apply ptext_app.
        -- apply ptext_app; [exact Hv|].
           apply pt_char; [discriminate|]. apply pt_char; [discriminate|]. constructor.
        -- apply IH; [|exact Hr]. rewrite Es in Hlen. simpl in Hlen.
           rewrite length_app in Hlen. simpl in Hlen. lia.
      * change (lit "<p>" ++ s) with (60%N :: 112%N :: 62%N :: s) in *.
        rewrite (replace_from_miss _ _ _ _ _ E).
        rewrite !replace_from_miss by (apply exec_guarded; [exact Hg|discriminate]).
        apply (pt_open (replace_from _ _ _ 0 s)).
        apply IH; [simpl in Hlen; lia|exact Hs].
    + change (lit "</p>" ++ s) with (60%N :: 47%N :: 112%N :: 62%N :: s) in *.
      assert (exec_at (element_re "p") idx (60%N :: 47%N :: 112%N :: 62%N :: s) = None)
        as E by reflexivity.
      rewrite (replace_from_miss _ _ _ _ _ E).
      rewrite !replace_from_miss by (apply exec_guarded; [exact Hg|discriminate]).
      apply (pt_close (replace_from _ _ _ 0 s)).
      apply IH; [simpl in Hlen; lia|exact Hs].
Qed.

End ParagraphStep.

Section MarkdownTheorem.
Import JsString Regex ExportUtils ExportAux.

Lemma tag_steps_split :
  tag_steps = heading_steps ++ [(element_re "p", p_template)]
              ++ inline_steps ++ [(any_tag_re, [])].
Proof. reflexivity. Qed.

Lemma heading_steps_miss :
  forallb (fun st => lt_guarded (fst st) && misses_tokens (fst st)) heading_steps = true.
Proof. vm_compute. reflexivity. Qed.

Lemma inline_steps_miss :
  forallb (fun st => lt_guarded (fst st) && misses_tokens (fst st)) inline_steps = true.
Proof. vm_compute. reflexivity. Qed.

(** After the tag substitutions no [<] is left of a paragraph document. *)
Lemma tag_steps_ptext (s : jsstring) : ptext s -> ~ In LT_ (apply_steps tag_steps s).
Proof.
  intros Hs. rewrite tag_steps_split, !apply_steps_app.
  rewrite (apply_steps_misses _ _ heading_steps_miss Hs).
  assert (ptext (apply_steps [(element_re "p", p_template)] s)) as Hp
    by exact (p_step_ptext _ s 0 (Nat.le_refl _) Hs).
  rewrite (apply_steps_misses _ _ inline_steps_miss Hp).
  exact (any_tag_ptext _ Hp 0).
Qed.

Lemma markdown_of_ptext (s : jsstring) : ptext s -> ~ In LT_ (html_to_markdown s).
Proof.
  intros Hs Hin. rewrite html_to_markdown_unfold in Hin.
  apply In_trim in Hin. rewrite squeeze_blank_collapse in Hin.
  apply (collapse_In NL 3 (Nat.lt_0_succ 2) LT_ _ _ 0 (Nat.le_refl _)) in Hin.
  exact (tag_steps_ptext s Hs Hin).
Qed.

(** C1. Markdown export is idempotent on plain paragraphs: when the HTML
    is a sequence of [<p>text</p>] paragraphs whose text holds no markup,
    applying the substitution pipeline of [exportAsMarkdown] to its own
    output gives that output again. *)
Theorem markdown_idempotent_on_paragraphs (texts : list jsstring) :
  Forall plain texts ->
  html_to_markdown (html_to_markdown (paragraphs_html texts))
  = html_to_markdown (paragraphs_html texts).
Proof.
  intros H. apply html_to_markdown_fixed, markdown_of_ptext, paragraphs_ptext, H.
Qed.

Lemma markdown_idempotent_witness :
  Forall plain [lit "Week one was wild."; lit "Final score 3 > 2 & done"]
  /\ html_to_markdown (html_to_markdown
       (paragraphs_html [lit "Week one was wild."; lit "Final score 3 > 2 & done"]))
     = html_to_markdown
         (paragraphs_html [lit "Week one was wild."; lit "Final score 3 > 2 & done"]).
Proof.
  assert (Forall plain [lit "Week one was wild."; lit "Final score 3 > 2 & done"]) as H.
  { repeat constructor; intros Hin; vm_compute in Hin; intuition discriminate. }
  split; [exact H|exact (markdown_idempotent_on_paragraphs _ H)].
Defined.

End MarkdownTheorem.

(** ** useApi and useApiMutation *)

Section UseApiFacts.
Import Js UseApi Samples.
Local Open Scope string_scope.

Lemma step_not_immediate (base : string) (h : Hook) (e : event) :
  is_refetch e = false -> render_immediate e = false ->
  requests (step base h e) = requests h.
Proof.
  destruct e as [ep imm deps_changed w|w]; simpl; [|discriminate].
  intros _ ->. rewrite andb_false_r. reflexivity.
Qed.

Lemma run_not_immediate (base : string) (es : list event) :
  forall h : Hook,
    Forall (fun e => is_refetch e = false /\ render_immediate e = false) es ->
    requests (run base h es) = requests h.
Proof.
  induction es as [|e es IH]; intros h H; [reflexivity|].
  apply Forall_cons_1 in H as [[H1 H2] H]. simpl.
  rewrite (IH _ H). apply step_not_immediate; assumption.
Qed.

(** C3. A hook created with [immediate: false] issues no request, however
    often it re-renders with changed dependencies or endpoint, as long as
    [immediate] stays false and [refetch] is not called; and a call of
    [refetch] then does hand a request to [fetch] (once the session is
    read). *)
Theorem useApi_lazy_until_refetch (base endpoint : string) (es : list event) :
  Forall (fun e => is_refetch e = false /\ render_immediate e = false) es ->
  let h := run base (init endpoint (Some false)) es in
  requests h = []
  /\ forall (w : World) (session : option Session),
       getSession w = Ok session ->
       length (requests (step base h (Refetch w))) = 1.
Proof.
  intros H h. assert (requests h = []) as E.
  { subst h. rewrite (run_not_immediate base es _ H). reflexivity. }
  split; [exact E|]. intros w session Hs. simpl. unfold run_fetch, fetchData.
  unfold fetchData_try, bind, lift, call_fetch. rewrite Hs, E.
  destruct (fetch w _) as [r|err]; [|reflexivity].
  destruct (ok r); simpl; [|reflexivity].
  destruct (json r); reflexivity.
Qed.

Lemma useApi_lazy_witness :
  requests (run "http://localhost:8000/api/v1" (init "/recaps" (Some false))
              [Render "/recaps" false true sample_world;
               Render "/recaps?page=2" false true sample_world;
               Render "/recaps?page=2" false false sample_world]) = [].
Proof.
  refine (proj1 (useApi_lazy_until_refetch _ _ _ _)).
  repeat constructor.
Defined.

(** C6. One run of [fetchData], once the session is read: exactly one
    request is issued, a GET on the endpoint, carrying the bearer token
    when the session has one; a response that is not ok leaves [data]
    null and the error [HTTP <status>: <statusText>]; an ok response
    whose body parses leaves the parsed body as [data] and no error. *)
Theorem fetchData_contract (base endpoint : string) (w : World)
    (log : list Request) (session : option Session) :
  getSession w = Ok session ->
  let req := {| req_url := base ++ endpoint; req_method := "GET";
                req_headers := auth_headers session; req_body := None |} in
  snd (fetchData base endpoint w log) = (log ++ [req])%list
  /\ (forall s : Session, session = Some s -> access_token s <> "" ->
        In ("Authorization", "Bearer " ++ access_token s) (req_headers req))
  /\ (forall r : Response, fetch w req = Ok r -> ok r = false ->
        fst (fetchData base endpoint w log)
        = {| data := None; loading := false;
             error := Some ("HTTP " ++ show_N (status r) ++ ": " ++ statusText r) |})
  /\ (forall (r : Response) (v : jsvalue),
        fetch w req = Ok r -> ok r = true -> json r = Ok v ->
        fst (fetchData base endpoint w log)
        = {| data := Some v; loading := false; error := None |}).
Proof.
  intros Hs req. unfold fetchData, fetchData_try, bind, lift, call_fetch.
  rewrite Hs. fold req. repeat split.
  - destruct (fetch w req) as [r|err]; [|reflexivity].
    destruct (ok r); simpl; [|reflexivity]. destruct (json r); reflexivity.
  - intros s -> Hne. simpl. unfold str_truthy.
    destruct (String.eqb_spec (access_token s) ""); [contradiction|].
    right. left. reflexivity.
  - intros r Hr Hok. rewrite Hr, Hok. reflexivity.
  - intros r v Hr Hok Hj. rewrite Hr, Hok. simpl. rewrite Hj. reflexivity.
Qed.

Lemma fetchData_witness :
  fst (fetchData "http://localhost:8000/api/v1" "/recaps" sample_world [])
  = {| data := None; loading := false; error := Some "HTTP 404: Not Found" |}
  /\ In ("Authorization", "Bearer jwt")
        (req_headers {| req_url := "http://localhost:8000/api/v1/recaps";
                        req_method := "GET";
                        req_headers := auth_headers (Some {| access_token := "jwt" |});
                        req_body := None |}).
Proof.
  pose proof (fetchData_contract "http://localhost:8000/api/v1" "/recaps"
                sample_world [] (Some {| access_token := "jwt" |}) eq_refl) as H.
  destruct H as (_ & Hh & Herr & _). split.
  - exact (Herr _ eq_refl eq_refl).
  - apply (Hh _ eq_refl). discriminate.
Defined.

End UseApiFacts.

Section MutationFacts.
Import Js UseApiMutation Samples.
Local Open Scope string_scope.

(** C5, as the code has it.  One call of [mutate], once the session is
    read, issues one request with the given method (POST by default);
    its body is the JSON text of the payload when the payload is truthy,
    and absent when the payload is missing or falsy.  An ok response
    whose body parses is returned, with a null error; a response that is
    not ok, a body that does not parse and a [fetch] that throws each
    return null with an error string.  When reading the session throws,
    null is returned with an error string and nothing is sent. *)
Theorem mutate_contract (base : string) (JSON_stringify : jsvalue -> string)
    (endpoint : string) (data : option jsvalue) (method : option http_method)
    (w : World) (log : list Request) :
  let call := mutate base JSON_stringify endpoint data method w log in
  (forall session : option Session, getSession w = Ok session ->
     let req := {| req_url := base ++ endpoint;
                   req_method := method_name (method_or_default method);
                   req_headers := auth_headers session;
                   req_body := request_body JSON_stringify data |} in
     snd call = (log ++ [req])%list
     /\ (forall v, data = Some v -> js_truthy v = true ->
           req_body req = Some (JSON_stringify v))
     /\ (forall v, data = Some v -> js_truthy v = false -> req_body req = None)
     /\ (data = None -> req_body req = None)
     /\ (forall r v, fetch w req = Ok r -> ok r = true -> json r = Ok v ->
           fst call = (v, {| loading := false; error := None |}))
     /\ (forall r, fetch w req = Ok r -> ok r = false ->
           fst call = (JNull, {| loading := false; error := Some (http_error r) |}))
     /\ (forall r err, fetch w req = Ok r -> ok r = true -> json r = Throw err ->
           fst call = (JNull, {| loading := false; error := Some (errorMessage err) |}))
     /\ (forall err, fetch w req = Throw err ->
           fst call = (JNull, {| loading := false; error := Some (errorMessage err) |})))
  /\ (forall err, getSession w = Throw err ->
        call = (JNull, {| loading := false; error := Some (errorMessage err) |}, log)).
Proof.
  intros call. subst call. split.
  - intros session Hs req. subst req.
    unfold mutate, mutate_try, bind, lift, call_fetch. rewrite Hs.
    cbn [req_body]. repeat split;
      try (intros v -> Hv; simpl; rewrite Hv; reflexivity);
      try (intros ->; reflexivity);
      try (intros r v Hr Hok Hj; rewrite Hr, Hok; simpl; rewrite Hj; reflexivity);
      try (intros r err Hr Hok Hj; rewrite Hr, Hok; simpl; rewrite Hj; reflexivity);
      try (intros r Hr Hok; rewrite Hr, Hok; reflexivity);
      try (intros err Hr; rewrite Hr; reflexivity);
      try (match goal with
           | |- context [fetch w ?q] => destruct (fetch w q) as [r|err]; [|reflexivity]
           end;
           destruct (ok r); simpl; [|reflexivity]; destruct (json r); reflexivity).
  - intros err Hs. unfold mutate, mutate_try, bind, lift. rewrite Hs. reflexivity.
Qed.

Lemma mutate_witness :
  fst (mutate "http://localhost:8000/api/v1" show_body "/recaps"
         (Some (JObj [])) None created_world [])
  = (JObj [("success", JBool true)], {| loading := false; error := None |}).
Proof.
  pose proof (mutate_contract "http://localhost:8000/api/v1" show_body "/recaps"
                (Some (JObj [])) None created_world []) as [H _].
  destruct (H _ eq_refl) as (_ & _ & _ & _ & Hok & _).
  exact (Hok _ _ eq_refl eq_refl eq_refl).
Defined.

(** The payload [0] is present, and no body is sent for it. *)
Lemma mutate_drops_falsy_body :
  snd (mutate "http://localhost:8000/api/v1" show_body "/counter"
         (Some (JNum 0)) (Some PUT) created_world [])
  = [ {| req_url := "http://localhost:8000/api/v1/counter"; req_method := "PUT";
         req_headers := [("Content-Type", "application/json");
                         ("Authorization", "Bearer jwt")];
         req_body := None |} ]
  /\ show_body (JNum 0) = "0".
Proof. split; reflexivity. Qed.

End MutationFacts.

(** ** The authorization-code relay *)

Section YahooFacts.
Import Js Yahoo YahooAux Samples.
Variable BASE_URL : string.
Variable JSON_stringify : jsvalue -> string.
Variable toString : jsvalue -> string.

Ltac break_match :=
  repeat match goal with
  | |- context [match ?x with _ => _ end] => destruct x
  | |- context [if ?x then _ else _] => destruct x
  end.

Lemma core_set_loading (b : bool) (st : State) : core (set_loading b st) = core st.
Proof. reflexivity. Qed.
Lemma core_set_error (e : option jsvalue) (st : State) : core (set_error e st) = core st.
Proof. reflexivity. Qed.
Lemma core_set_connecting (b : bool) (st : State) : core (set_connecting b st) = core st.
Proof. reflexivity. Qed.
Lemma core_set_manual (b : bool) (st : State) : core (set_manual b st) = core st.
Proof. reflexivity. Qed.
Lemma core_set_leagues (v : jsvalue) (st : State) : core (set_leagues v st) = core st.
Proof. reflexivity. Qed.
Lemma core_log_request (r : Request) (st : State) : core (log_request r st) = core st.
Proof. reflexivity. Qed.

Ltac core_frame :=
  rewrite ?core_set_loading, ?core_set_error, ?core_set_connecting,
    ?core_set_manual, ?core_set_leagues, ?core_log_request.

Lemma fetchLeagues_core (token : option string) (w : World) (st : State) :
  core (fetchLeagues BASE_URL token w st) = core st.
Proof.
  unfold fetchLeagues. cbv zeta. break_match; repeat core_frame; reflexivity.
Qed.

Lemma importYahooLeagues_core (token : option string) (w : World) (st : State) :
  core (importYahooLeagues BASE_URL JSON_stringify toString token w st) = core st.
Proof.
  unfold importYahooLeagues. cbv zeta.
  break_match; repeat (core_frame; rewrite ?fetchLeagues_core); reflexivity.
Qed.

Lemma handleMessage_core (token : option string) (w : World) (st : State) :
  core (handleMessage BASE_URL JSON_stringify toString token w st) = core st.
Proof. unfold handleMessage. rewrite importYahooLeagues_core. reflexivity. Qed.

(** A code that is in the set: nothing happens at all. *)
Lemma callback_blocked (code : string) (state token : option string) (w : World)
    (st : State) :
  code ∈ processedCodes st ->
  handleYahooCallback BASE_URL JSON_stringify toString code state token w st = st.
Proof.
  intros H. unfold handleYahooCallback. destruct (decide (code ∈ processedCodes st)).
  - reflexivity.
  - contradiction.
Qed.

(** A code that is not: it is marked, a timer is armed, one exchange is sent. *)
Lemma callback_accepted (code : string) (state token : option string) (w : World)
    (st : State) :
  code ∉ processedCodes st ->
  core (handleYahooCallback BASE_URL JSON_stringify toString code state token w st)
  = (now st, {[ code ]} ∪ processedCodes st,
     timers st ++ [((now st + EXPIRY)%N, code)],
     exchanges st ++ [(now st, code)]).
Proof.
  intros H. unfold handleYahooCallback. destruct (decide (code ∈ processedCodes st)).
  - contradiction.
  - cbv zeta.
    break_match; repeat (core_frame; rewrite ?importYahooLeagues_core); reflexivity.
Qed.

Local Abbreviation step := (Yahoo.step BASE_URL JSON_stringify toString).
Local Abbreviation run := (Yahoo.run BASE_URL JSON_stringify toString).

Lemma guard_inv_core (st st' : State) :
  core st' = core st -> guard_inv st -> guard_inv st'.
Proof.
  unfold core. intros [= En Ep Et Ee] [A B C D E].
  split; rewrite ?En, ?Ep, ?Et, ?Ee; assumption.
Qed.

Lemma guard_inv_init : guard_inv init.
Proof.
  split; simpl; intros.
  - rewrite lookup_nil in H. discriminate.
  - rewrite lookup_nil in H. discriminate.
  - apply elem_of_nil in H. contradiction.
  - apply elem_of_nil in H. contradiction.
  - rewrite lookup_nil in H0. discriminate.
Qed.

Lemma lookup_snoc_cases {A} (l : list A) (x y : A) (i : nat) :
  (l ++ [x]) !! i = Some y ->
  l !! i = Some y \/ (i = length l /\ y = x).
Proof.
  intros H. destruct (Nat.lt_ge_cases i (length l)) as [Hi|Hi].
  - rewrite lookup_app_l in H by exact Hi. now left.
  - rewrite lookup_app_r in H by exact Hi.
    destruct (i - length l) as [|k] eqn:E; simpl in H; [|rewrite lookup_nil in H; discriminate].
    injection H as <-. right. split; [lia|reflexivity].
Qed.

Lemma guard_inv_accept (code : string) (state token : option string) (w : World)
    (st : State) :
  code ∉ processedCodes st -> guard_inv st ->
  guard_inv (handleYahooCallback BASE_URL JSON_stringify toString code state token w st).
Proof.
  intros Hn [A B C D E].
  pose proof (callback_accepted code state token w st Hn) as Hc.
  unfold core in Hc. injection Hc as En Ep Et Ee.
  assert (forall i d, timers st !! i = Some (d, code) -> False) as Hfresh
    by (intros i d Hi; exact (Hn (B _ _ _ Hi))).
  split; rewrite ?En, ?Ep, ?Et, ?Ee.
  - intros i j d1 d2 c Hi Hj.
    apply lookup_snoc_cases in Hi as [Hi|[Ei Hi]];
      apply lookup_snoc_cases in Hj as [Hj|[Ej Hj]]; simplify_eq.
    + exact (A _ _ _ _ _ Hi Hj).
    + destruct (Hfresh _ _ Hi).
    + destruct (Hfresh _ _ Hj).
    + reflexivity.
  - intros i d c Hi. apply lookup_snoc_cases in Hi as [Hi|[Ei Hi]]; simplify_eq.
    + apply elem_of_union_r. exact (B _ _ _ Hi).
    + apply elem_of_union_l, elem_of_singleton. reflexivity.
  - intros t c Hin Hlt. apply elem_of_app in Hin as [Hin|Hin].
    + destruct (C _ _ Hin Hlt) as [i Hi]. exists i.
      apply lookup_app_l_Some. exact Hi.
    + apply list_elem_of_singleton in Hin. simplify_eq.
      exists (length (timers st)). rewrite lookup_app_r by lia.
      rewrite Nat.sub_diag. reflexivity.
  - intros t c Hin. apply elem_of_app in Hin as [Hin|Hin].
    + exact (D _ _ Hin).
    + apply list_elem_of_singleton in Hin. simplify_eq. lia.
  - intros i j t1 t2 c Hij Hi Hj.
    apply lookup_snoc_cases in Hj as [Hj|[Ej Hj]]; simplify_eq.
    + apply lookup_lt_Some in Hj as Hlen.
      rewrite lookup_app_l in Hi by lia. exact (E _ _ _ _ _ Hij Hi Hj).
    + rewrite lookup_app_l in Hi by lia.
      apply list_elem_of_lookup_2 in Hi.
      destruct (N.le_gt_cases (t1 + EXPIRY) (now st)) as [Hle|Hgt]; [exact Hle|].
      destruct (C _ _ Hi Hgt) as [k Hk]. destruct (Hfresh _ _ Hk).
Qed.

Lemma guard_inv_advance (dt : N) (st : State) : guard_inv st -> guard_inv (advance dt st).
Proof.
  intros [A B C D E]. split; simpl; try assumption.
  - intros t c Hin Hlt. apply C; [exact Hin|lia].
  - intros t c Hin. specialize (D _ _ Hin). lia.
Qed.

Lemma lookup_delete_cases {A} (l : list A) (k i : nat) (y : A) :
  delete k l !! i = Some y ->
  exists i', l !! i' = Some y /\ ((i < k /\ i' = i) \/ (k <= i /\ i' = S i)).
Proof.
  intros H. destruct (Nat.lt_ge_cases i k) as [Hi|Hi].
  - rewrite list_lookup_delete_lt in H by exact Hi. exists i. split; [exact H|lia].
  - rewrite list_lookup_delete_ge in H by exact Hi. exists (S i). split; [exact H|lia].
Qed.

Lemma guard_inv_expire (k : nat) (st : State) : guard_inv st -> guard_inv (expire k st).
Proof.
  intros [A B C D E]. unfold expire.
  destruct (timers st !! k) as [[due code]|] eqn:Hk; [|split; assumption].
  destruct (N.leb_spec due (now st)) as [Hdue|Hdue]; [|split; assumption].
  split; simpl; try assumption.
  - intros i j d1 d2 c Hi Hj.
    apply lookup_delete_cases in Hi as (i' & Hi & Hi').
    apply lookup_delete_cases in Hj as (j' & Hj & Hj').
    pose proof (A _ _ _ _ _ Hi Hj). lia.
  - intros i d c Hi.
    apply lookup_delete_cases in Hi as (i' & Hi & Hi').
    apply elem_of_difference. split; [exact (B _ _ _ Hi)|].
    intros Hc. apply elem_of_singleton in Hc. subst c.
    pose proof (A _ _ _ _ _ Hi Hk). lia.
  - intros t c Hin Hlt. destruct (C _ _ Hin Hlt) as [i Hi].
    assert (i <> k) as Hik by (intros ->; rewrite Hk in Hi; injection Hi as -> _; lia).
    destruct (Nat.lt_ge_cases i k) as [Hlt'|Hge].
    + exists i. rewrite list_lookup_delete_lt by exact Hlt'. exact Hi.
    + exists (i - 1). rewrite list_lookup_delete_ge by lia.
      replace (S (i - 1)) with i by lia. exact Hi.
Qed.

Lemma guard_inv_step (st : State) (e : event) : guard_inv st -> guard_inv (step st e).
Proof.
  intros H. destruct e as [code state token w|token w|dt|k]; simpl.
  - destruct (decide (code ∈ processedCodes st)) as [Hin|Hn].
    + rewrite callback_blocked by exact Hin. exact H.
    + apply guard_inv_accept; assumption.
  - apply (guard_inv_core st); [apply handleMessage_core|exact H].
  - apply guard_inv_advance, H.
  - apply guard_inv_expire, H.
Qed.

Lemma guard_inv_run (es : list event) (st : State) : guard_inv st -> guard_inv (run st es).
Proof.
  revert st. induction es as [|e es IH]; intros st H; [exact H|].
  simpl. apply IH, guard_inv_step, H.
Qed.

End YahooFacts.

Section YahooTheorem.
Import Js Yahoo YahooAux Samples.

(** C4. In every run of the component: a call of [handleYahooCallback]
    with a code that is in the processed set sends nothing and changes
    nothing; a code whose exchange was sent less than 300000 ms ago is
    still in the set (only the timer armed with it removes it), so
    submitting it again is a no-op; hence two exchanges of one code lie
    at least 300000 ms apart. *)
Theorem processed_code_not_resubmitted (BASE_URL : string)
    (JSON_stringify toString : jsvalue -> string) (es : list event) :
  let handle := handleYahooCallback BASE_URL JSON_stringify toString in
  let st := Yahoo.run BASE_URL JSON_stringify toString init es in
  (forall code state token w, code ∈ processedCodes st ->
     handle code state token w st = st)
  /\ (forall t code, (t, code) ∈ exchanges st -> (now st < t + 300000)%N ->
        code ∈ processedCodes st
        /\ forall state token w, handle code state token w st = st)
  /\ (forall i j t1 t2 code, i < j ->
        exchanges st !! i = Some (t1, code) -> exchanges st !! j = Some (t2, code) ->
        (t1 + 300000 <= t2)%N).
Proof.
  intros handle st.
  pose proof (guard_inv_run BASE_URL JSON_stringify toString es init guard_inv_init)
    as [A B C D E].
  fold st in A, B, C, D, E. repeat split.
  - intros code state token w H. apply callback_blocked, H.
  - destruct (C t code H H0) as [i Hi]. exact (B _ _ _ Hi).
  - intros state token w. apply callback_blocked.
    destruct (C t code H H0) as [i Hi]. exact (B _ _ _ Hi).
  - exact E.
Qed.

End YahooTheorem.

Section YahooWitness.
Import Js Yahoo YahooAux Samples.
Local Open Scope string_scope.

Lemma processed_code_witness :
  let st := Yahoo.run "" (fun _ => "") (fun _ => "") init resubmission in
  exchanges st = [(0%N, "ABC123")]
  /\ handleYahooCallback "" (fun _ => "") (fun _ => "") "ABC123" (Some "xyz")
       (Some "token") friendly_world st = st.
Proof.
  assert (exchanges (Yahoo.run "" (fun _ => "") (fun _ => "") init resubmission)
          = [(0%N, "ABC123")]) as E by (vm_compute; reflexivity).
  split; [exact E|].
  refine (proj2 (proj1 (proj2 (processed_code_not_resubmitted "" (fun _ => "")
            (fun _ => "") resubmission)) 0%N "ABC123" _ _) _ _ _).
  - rewrite E. apply list_elem_of_here.
  - vm_compute. reflexivity.
Defined.
End YahooWitness.

(** ** useWebSocket and the recap list *)

Section WebSocketFacts.
Import Js WebSocketHook Samples.
Variable enabled : bool.
Variable user : bool.
Variable reconnectAttempts : nat.
Variable reconnectInterval : N.
Variable construct_error : option string.

Local Abbreviation connect := (WebSocketHook.connect enabled user construct_error).
Local Abbreviation onclose := (WebSocketHook.onclose reconnectAttempts reconnectInterval).
Local Abbreviation step :=
  (WebSocketHook.step enabled user reconnectAttempts reconnectInterval construct_error).
Local Abbreviation run :=
  (WebSocketHook.run enabled user reconnectAttempts reconnectInterval construct_error).

(** What [connect] leaves alone. *)
Lemma connect_counters (st : State) :
  reconnectCount (connect st) = reconnectCount st
  /\ scheduled (connect st) = scheduled st.
Proof.
  unfold WebSocketHook.connect.
  destruct (negb enabled || negb user || is_open st); [split; reflexivity|].
  destruct construct_error; split; reflexivity.
Qed.

Lemma count_bounded_step (st : State) (e : event) :
  reconnectCount st <= reconnectAttempts ->
  reconnectCount (step st e) <= reconnectAttempts.
Proof.
  intros H. destruct e as [| |i|i code|i|i parsed|dt|id]; simpl.
  - rewrite (proj1 (connect_counters st)). exact H.
  - lia.
  - unfold onopen. destruct (sockets st !! i) as [[]|]; simpl; lia.
  - unfold WebSocketHook.onclose, reconnects.
    destruct (sockets st !! i) as [[]|]; try exact H;
      destruct (negb (code =? NORMAL_CLOSURE)%N); simpl; try exact H;
      destruct (Nat.ltb_spec (reconnectCount st) reconnectAttempts); simpl; lia.
  - exact H.
  - unfold onmessage. destruct parsed; exact H.
  - exact H.
  - unfold fire. destruct (List.find _ (timers st)) as [[? due]|]; [|exact H].
    destruct (due <=? now st)%N; [|exact H].
    rewrite (proj1 (connect_counters _)). exact H.
Qed.

Lemma count_bounded_run (es : list event) (st : State) :
  reconnectCount st <= reconnectAttempts ->
  reconnectCount (run st es) <= reconnectAttempts.
Proof.
  revert st. induction es as [|e es IH]; intros st H; [exact H|].
  simpl. apply IH, count_bounded_step, H.
Qed.

(** Without a reset, every reconnection scheduled is counted. *)
Lemma counted_step (st : State) (e : event) :
  resets e = false ->
  length (scheduled (step st e)) + reconnectCount st
  = length (scheduled st) + reconnectCount (step st e).
Proof.
  intros H. destruct e as [| |i|i code|i|i parsed|dt|id]; simpl in *; try discriminate.
  - destruct (connect_counters st) as [-> ->]. reflexivity.
  - unfold WebSocketHook.onclose.
    destruct (sockets st !! i) as [[]|]; try reflexivity;
      destruct (reconnects reconnectAttempts code st); simpl;
      rewrite ?length_app; simpl; lia.
  - reflexivity.
  - unfold onmessage. destruct parsed; reflexivity.
  - reflexivity.
  - unfold fire. destruct (List.find _ (timers st)) as [[? due]|]; [|reflexivity].
    destruct (due <=? now st)%N; [|reflexivity].
    match goal with |- context [connect ?s] =>
      destruct (connect_counters s) as [-> ->] end. reflexivity.
Qed.

Lemma counted_run (es : list event) :
  forall st : State,
    Forall (fun e => resets e = false) es ->
    length (scheduled (run st es)) + reconnectCount st
    = length (scheduled st) + reconnectCount (run st es).
Proof.
  induction es as [|e es IH]; intros st H; [reflexivity|].
  apply Forall_cons_1 in H as [He Hes]. simpl.
  pose proof (IH (step st e) Hes). pose proof (counted_step st e He). lia.
Qed.

End WebSocketFacts.

Section WebSocketTheorems.
Import Js WebSocketHook Samples.

(** C7, as the code has it.  A close event with code 1000 schedules no
    reconnection.  Any other close of a live socket, while the counter is
    below [reconnectAttempts], schedules exactly one, due after
    [reconnectInterval]; at the bound it schedules none.  The counter
    never exceeds [reconnectAttempts], and it is reset by a successful
    open and by [disconnect]: between two resets at most
    [reconnectAttempts] reconnections are scheduled. *)
Theorem reconnect_bounded_between_resets (enabled user : bool)
    (reconnectAttempts : nat) (reconnectInterval : N)
    (construct_error : option string) (es : list event) :
  let run := WebSocketHook.run enabled user reconnectAttempts reconnectInterval
               construct_error in
  let onclose := WebSocketHook.onclose reconnectAttempts reconnectInterval in
  let st := run init es in
  reconnectCount st <= reconnectAttempts
  /\ (forall i, scheduled (onclose i 1000%N st) = scheduled st
                /\ timers (onclose i 1000%N st) = timers st)
  /\ (forall i code s, code <> 1000%N -> sockets st !! i = Some s -> s <> CLOSED ->
        reconnectCount st < reconnectAttempts ->
        scheduled (onclose i code st)
        = (scheduled st ++ [(now st, (now st + reconnectInterval)%N)])%list
        /\ timers (onclose i code st)
           = (timers st ++ [(nextTimer st, (now st + reconnectInterval)%N)])%list)
  /\ (forall i code, reconnectCount st = reconnectAttempts ->
        scheduled (onclose i code st) = scheduled st)
  /\ (forall es', Forall (fun e => resets e = false) es' ->
        length (scheduled (run st es')) <= length (scheduled st) + reconnectAttempts).
Proof.
  intros run onclose st.
  assert (reconnectCount st <= reconnectAttempts) as Hb.
  { apply count_bounded_run. simpl. lia. }
  split; [exact Hb|]. repeat split.
  - unfold onclose, WebSocketHook.onclose, reconnects.
    destruct (sockets st !! i) as [[]|]; reflexivity.
  - unfold onclose, WebSocketHook.onclose, reconnects.
    destruct (sockets st !! i) as [[]|]; reflexivity.
  - unfold onclose, WebSocketHook.onclose, reconnects. rewrite H0.
    destruct (N.eqb_spec code NORMAL_CLOSURE) as [E|_]; [contradiction|].
    destruct (Nat.ltb_spec (reconnectCount st) reconnectAttempts); [|lia].
    destruct s; try reflexivity. contradiction.
  - unfold onclose, WebSocketHook.onclose, reconnects. rewrite H0.
    destruct (N.eqb_spec code NORMAL_CLOSURE) as [E|_]; [contradiction|].
    destruct (Nat.ltb_spec (reconnectCount st) reconnectAttempts); [|lia].
    destruct s; try reflexivity. contradiction.
  - intros i code Hc. unfold onclose, WebSocketHook.onclose, reconnects.
    destruct (Nat.ltb_spec (reconnectCount st) reconnectAttempts); [lia|].
    rewrite andb_false_r. destruct (sockets st !! i) as [[]|]; reflexivity.
  - intros es' Hes.
    pose proof (counted_run enabled user reconnectAttempts reconnectInterval
                  construct_error es' st Hes) as Hc.
    pose proof (count_bounded_run enabled user reconnectAttempts reconnectInterval
                  construct_error es' st Hb) as Hb'.
    fold run in Hc, Hb'. lia.
Qed.

Lemma reconnect_witness :
  scheduled (WebSocketHook.run true true 1 3000 None init
               [Connect; OnOpen 0; OnClose 0 1006])
  = [(0%N, 3000%N)]
  /\ length (scheduled (WebSocketHook.run true true 1 3000 None init
               [Connect; OnOpen 0; OnClose 0 1006; Advance 3000; Fire 1;
                OnClose 1 1006; OnClose 1 1006; OnError 1])) <= 1.
Proof.
  pose proof (reconnect_bounded_between_resets true true 1 3000 None
                [Connect; OnOpen 0]) as (_ & _ & Hs & _ & Hr).
  split.
  - exact (proj1 (Hs 0 1006%N OPEN ltac:(discriminate) eq_refl ltac:(discriminate)
                    ltac:(vm_compute; lia))).
  - exact (Hr [OnClose 0 1006; Advance 3000; Fire 1; OnClose 1 1006; OnClose 1 1006;
               OnError 1] ltac:(repeat constructor)).
Defined.

(** With [reconnectAttempts = 1], two reconnections are scheduled. *)
Lemma reconnect_total_exceeds_bound :
  length (scheduled (WebSocketHook.run true true 1 3000 None init flapping)) = 2.
Proof. reflexivity. Qed.

End WebSocketTheorems.

Section PaginationTheorems.
Import RecapsOverview Samples.

(** C8, as the code has it.  The has-more flag is true exactly when
    [currentPage * pageSize < count]; the cards displayed are the
    response's [data] as it came (or none: while the first page loads, on
    an error, with a count of zero), never cut to the page size: they are
    at most [pageSize] when the response holds at most [pageSize]
    elements. *)
Theorem pagination_flags (T : Type) (currentPage : N) (recapsLoading : bool)
    (recapsError : option string) (r : PaginatedResponse T) :
  (hasMore currentPage (Some r) = true <-> (currentPage * pageSize < count r)%N)
  /\ (displayed currentPage recapsLoading recapsError (Some r) = data r
      \/ displayed currentPage recapsLoading recapsError (Some r) = [])
  /\ ((0 < count r)%N -> recapsLoading = false -> recapsError = None ->
      displayed currentPage recapsLoading recapsError (Some r) = data r)
  /\ (N.of_nat (length (data r)) <= pageSize ->
      N.of_nat (length (displayed currentPage recapsLoading recapsError (Some r)))
      <= pageSize)%N.
Proof.
  unfold hasMore, displayed, totalRecaps, recaps. repeat split.
  - apply N.ltb_lt.
  - apply N.ltb_lt.
  - destruct (recapsLoading && (currentPage =? 1)%N); [now right|].
    destruct (match recapsError with Some e => Js.str_truthy e | None => false end);
      [now right|].
    destruct (0 <? count r)%N; auto.
  - intros Hc -> ->. simpl. apply N.ltb_lt in Hc. rewrite Hc. reflexivity.
  - intros Hl. destruct (recapsLoading && (currentPage =? 1)%N); [simpl; lia|].
    destruct (match recapsError with Some e => Js.str_truthy e | None => false end);
      [simpl; lia|].
    destruct (0 <? count r)%N; simpl; lia.
Qed.

Lemma pagination_witness :
  hasMore 1 (Some {| success := true; data := [10; 20]; count := 8;
                     has_more := None; total := None |}) = true
  /\ (N.of_nat (length (displayed 1 false None
        (Some {| success := true; data := [10; 20]; count := 8;
                 has_more := None; total := None |}))) <= pageSize)%N.
Proof.
  pose proof (pagination_flags nat 1 false None
                {| success := true; data := [10; 20]; count := 8;
                   has_more := None; total := None |}) as (Hm & _ & _ & Hl).
  split.
  - apply Hm. reflexivity.
  - apply Hl. vm_compute. discriminate.
Defined.

(** A response of seven recaps for a page of six: all seven are shown. *)
Lemma displayed_exceeds_page_size :
  length (displayed 1 false None (Some oversized)) = 7 /\ pageSize = 6%N.
Proof. split; reflexivity. Qed.

End PaginationTheorems.

(** ** The recap editor *)

Section EditorFacts.
Import JsString Editor EditorAux Samples.

Lemma clearTimeout_single (st : State) :
  single_timer st -> clearTimeout (autoSaveTimeout st) (timers st) = [].
Proof.
  intros [E|(t & E & Ea)]; rewrite E.
  - destruct (autoSaveTimeout st); reflexivity.
  - rewrite Ea. simpl. rewrite Nat.eqb_refl. reflexivity.
Qed.

Lemma clearTimeout_sub (id : option nat) (l : list Timer) (t : Timer) :
  In t (clearTimeout id l) -> In t l.
Proof.
  destruct id as [i|]; simpl; [|trivial]. intros H. apply filter_In in H. tauto.
Qed.

Lemma clearTimeout_nil_or (id : option nat) (t : Timer) :
  clearTimeout id [t] = [] \/ clearTimeout id [t] = [t].
Proof.
  destruct id as [i|]; simpl; [|now right].
  destruct (Nat.eqb (t_id t) i); simpl; [now left|now right].
Qed.

Lemma cleared_twice_single (st : State) :
  single_timer st ->
  clearTimeout (autoSaveTimeout st) (clearTimeout (cleanupTimeout st) (timers st)) = [].
Proof.
  intros H. pose proof (clearTimeout_single st H) as E.
  destruct H as [E0|(t & E0 & Ea)]; rewrite E0 in *.
  - destruct (cleanupTimeout st), (autoSaveTimeout st); reflexivity.
  - destruct (clearTimeout_nil_or (cleanupTimeout st) t) as [->| ->].
    + destruct (autoSaveTimeout st); reflexivity.
    + exact E.
Qed.

Lemma spaced_snoc (d : N) (l : list Save) (x : Save) :
  spaced d l -> Forall (fun s => (s_time s + d <= s_time x)%N) l -> spaced d (l ++ [x]).
Proof.
  induction l as [|s l IH]; intros Hs Hx.
  - simpl. split; [constructor|exact I].
  - destruct Hs as [H1 H2]. apply Forall_cons_1 in Hx as [Hx1 Hx2]. split.
    + apply Forall_app. split; [exact H1|]. constructor; [exact Hx1|constructor].
    + apply IH; assumption.
Qed.

Lemma auto_saves_snoc (l : list Save) (s : Save) :
  auto_saves (l ++ [s]) = auto_saves l ++ (if is_auto s then [s] else []).
Proof. unfold auto_saves. rewrite List.filter_app. reflexivity. Qed.

Lemma Forall_auto (P : Save -> Prop) (l : list Save) :
  Forall P l -> Forall P (auto_saves l).
Proof.
  intros H. apply List.Forall_forall. intros s Hs. apply filter_In in Hs as [Hs _].
  rewrite List.Forall_forall in H. exact (H s Hs).
Qed.

(** The effects. *)
Lemma timing_autoSaveEffect (st : State) : timing st -> timing (autoSaveEffect st).
Proof.
  intros [S P D C]. unfold autoSaveEffect. rewrite (cleared_twice_single st S).
  destruct (hasUnsavedChanges st); split; simpl; try assumption.
  - right. eexists. split; reflexivity.
  - constructor; [|constructor]. simpl. apply Forall_auto.
    eapply Forall_impl; [exact P|]. simpl. intros s Hs. lia.
  - left. reflexivity.
  - constructor.
Qed.

Lemma timing_initEffect (st : State) : timing st -> timing (initEffect st).
Proof.
  intros H. unfold initEffect.
  destruct (recap_content st) as [content|]; [|exact H].
  destruct (editorState st); [|exact H].
  destruct (truthy content); [|exact H].
  destruct H as [S P D C]. split; assumption.
Qed.

Lemma timing_effects (st : State) : timing st -> timing (effects st).
Proof. intros H. apply timing_initEffect, timing_autoSaveEffect, H. Qed.

(** The handlers. *)
Lemma timing_handleSave (st : State) : timing st -> timing (handleSave st).
Proof.
  intros [S P D C]. unfold handleSave.
  destruct (negb (nonblank (title st))); split; simpl; try assumption.
  - apply Forall_app. split; [exact P|]. constructor; [simpl; lia|constructor].
  - rewrite auto_saves_snoc. simpl. rewrite app_nil_r. exact D.
  - rewrite auto_saves_snoc. simpl. rewrite app_nil_r. exact C.
Qed.

Lemma timing_clickSave (st : State) : timing st -> timing (clickSave st).
Proof.
  intros H. unfold clickSave.
  destruct (negb (mounted st) || saveDisabled st); [exact H|].
  apply timing_effects, timing_handleSave, H.
Qed.

Lemma timing_typeTitle (v : jsstring) (st : State) : timing st -> timing (typeTitle v st).
Proof.
  intros H. unfold typeTitle. destruct (negb (mounted st) || isLoading st); [exact H|].
  apply timing_effects. destruct H as [S P D C]. split; assumption.
Qed.

Lemma timing_onEditorUpdate (t h : jsstring) (st : State) :
  timing st -> timing (onEditorUpdate t h st).
Proof.
  intros H. unfold onEditorUpdate. destruct (negb (mounted st)); [exact H|].
  destruct H as [S P D C]. split; assumption.
Qed.

Lemma timing_settle (k : nat) (b : bool) (st : State) : timing st -> timing (settle k b st).
Proof.
  intros H. unfold settle. destruct (inflight st !! k); [|exact H].
  destruct H as [S P D C]. split; assumption.
Qed.

Lemma timing_rerender (st : State) : timing st -> timing (rerender st).
Proof. intros H. unfold rerender. destruct (mounted st); [apply timing_effects|]; exact H. Qed.

Lemma timing_setLoading (b : bool) (st : State) : timing st -> timing (setLoading b st).
Proof.
  intros H. unfold setLoading. destruct (negb (mounted st)); [exact H|].
  destruct H as [S P D C]. split; assumption.
Qed.

Lemma single_timer_sub (st : State) (l : list Timer) (a : option nat) :
  single_timer st -> a = autoSaveTimeout st ->
  (l = [] \/ l = timers st) ->
  l = [] \/ exists t, l = [t] /\ a = Some (t_id t).
Proof.
  intros [E|(t & E & Ea)] -> [->| ->];
    first [now left | right; exists t; split; assumption].
Qed.

Lemma clearTimeout_cases (id : option nat) (st : State) :
  single_timer st ->
  clearTimeout id (timers st) = [] \/ clearTimeout id (timers st) = timers st.
Proof.
  intros [E|(t & E & _)]; rewrite E.
  - left. destruct id; reflexivity.
  - apply clearTimeout_nil_or.
Qed.

Lemma timing_unmount (st : State) : timing st -> timing (unmount st).
Proof.
  intros H. unfold unmount. destruct (negb (mounted st)); [exact H|].
  destruct H as [S P D C]. split; simpl; try assumption.
  - exact (single_timer_sub st _ _ S eq_refl (clearTimeout_cases _ st S)).
  - apply List.Forall_forall. intros t Ht. apply clearTimeout_sub in Ht.
    rewrite List.Forall_forall in D. exact (D t Ht).
Qed.

Lemma timing_advance (dt : N) (st : State) : timing st -> timing (advance dt st).
Proof.
  intros [S P D C]. split; simpl; try assumption.
  eapply Forall_impl; [exact P|]. simpl. intros s Hs. lia.
Qed.

Lemma find_single (st : State) (id : nat) (t : Timer) :
  single_timer st ->
  List.find (fun t => Nat.eqb (t_id t) id) (timers st) = Some t ->
  timers st = [t] /\ clearTimeout (Some id) (timers st) = [].
Proof.
  intros [E|(t0 & E & _)]; rewrite E; simpl; [discriminate|].
  destruct (Nat.eqb (t_id t0) id) eqn:Ei; [|discriminate].
  intros [= <-]. split; reflexivity.
Qed.

Lemma timing_fire (id : nat) (st : State) : timing st -> timing (fire id st).
Proof.
  intros H. unfold fire.
  destruct (List.find (fun t => Nat.eqb (t_id t) id) (timers st)) as [t|] eqn:Ef; [|exact H].
  destruct (N.leb_spec (t_due t) (now st)) as [Hdue|_]; [|exact H].
  destruct H as [S P D C]. destruct (find_single st id t S Ef) as [Et Ec].
  rewrite Ec. rewrite Et in D. apply Forall_cons_1 in D as [D _].
  unfold handleAutoSave. destruct (autosave_guard (t_closure t)); split; simpl;
    try assumption; try (left; reflexivity); try constructor.
  - apply Forall_app. split; [exact P|]. constructor; [simpl; lia|constructor].
  - rewrite auto_saves_snoc. simpl. apply spaced_snoc; [exact C|].
    eapply Forall_impl; [exact D|]. simpl. intros s Hs. lia.
Qed.

Lemma timing_step (st : State) (e : event) : timing st -> timing (step st e).
Proof.
  intros H. destruct e; simpl.
  - apply timing_onEditorUpdate, H.
  - apply timing_typeTitle, H.
  - apply timing_clickSave, H.
  - apply timing_settle, H.
  - apply timing_fire, H.
  - apply timing_rerender, H.
  - apply timing_setLoading, H.
  - apply timing_unmount, H.
  - apply timing_advance, H.
Qed.


Lemma timing_init (recap_title recap_content : option jsstring) (loading : bool) :
  timing (init recap_title recap_content loading).
Proof.
  unfold init. apply timing_effects. split; simpl.
  - left. reflexivity.
  - constructor.
  - constructor.
  - exact I.
Qed.

End EditorFacts.

Section EditorQuiet.
Import JsString Editor EditorAux Samples.

Lemma guard_of_quiet (st : State) :
  isSaving st = true \/ hasUnsavedChanges st = false ->
  autosave_guard (closure_of st) = false.
Proof.
  unfold autosave_guard, closure_of. simpl. intros [-> | ->].
  - rewrite andb_false_r. reflexivity.
  - reflexivity.
Qed.

Lemma Forall_clearTimeout (P : Timer -> Prop) (id : option nat) (l : list Timer) :
  Forall P l -> Forall P (clearTimeout id l).
Proof.
  intros H. apply List.Forall_forall. intros t Ht. apply clearTimeout_sub in Ht.
  rewrite List.Forall_forall in H. exact (H t Ht).
Qed.

Lemma quiet_autoSaveEffect (st : State) :
  mounted st = true ->
  isSaving st = true \/ hasUnsavedChanges st = false ->
  Forall (fun t => autosave_guard (t_closure t) = false)
    (clearTimeout (autoSaveTimeout st) (clearTimeout (cleanupTimeout st) (timers st))) ->
  quiet (autoSaveEffect st) /\ saves (autoSaveEffect st) = saves st.
Proof.
  intros Hm Q T. unfold autoSaveEffect.
  destruct (hasUnsavedChanges st) eqn:Eu; (split; [split|]); simpl;
    try reflexivity; try (rewrite ?Eu; intros _; exact Q); try exact T.
  apply Forall_app. split; [exact T|].
  constructor; [|constructor]. simpl. apply guard_of_quiet. rewrite Eu. exact Q.
Qed.

Lemma quiet_initEffect (st : State) :
  quiet st -> quiet (initEffect st) /\ saves (initEffect st) = saves st.
Proof.
  intros [Q T]. unfold initEffect.
  destruct (recap_content st) as [content|]; [|repeat split; assumption].
  destruct (editorState st); [|repeat split; assumption].
  destruct (truthy content); repeat split; try assumption.
  simpl. intros _. right. reflexivity.
Qed.

Lemma quiet_effects (st : State) :
  mounted st = true ->
  isSaving st = true \/ hasUnsavedChanges st = false ->
  Forall (fun t => autosave_guard (t_closure t) = false)
    (clearTimeout (autoSaveTimeout st) (clearTimeout (cleanupTimeout st) (timers st))) ->
  quiet (effects st) /\ saves (effects st) = saves st.
Proof.
  intros Hm Q T. unfold effects.
  destruct (quiet_autoSaveEffect st Hm Q T) as [H1 E1].
  destruct (quiet_initEffect _ H1) as (H2 & E2).
  split; [exact H2|]. rewrite E2. exact E1.
Qed.

(** An accepted Save click makes the editor quiet. *)
Lemma quiet_after_click (st : State) :
  single_timer st -> mounted st = true -> saveDisabled st = false ->
  quiet (clickSave st)
  /\ auto_saves (saves (clickSave st)) = auto_saves (saves st).
Proof.
  intros S Hm Hd. unfold clickSave. rewrite Hm, Hd. simpl.
  unfold saveDisabled in Hd. apply orb_false_elim in Hd as [Hd He].
  apply orb_false_elim in Hd as [Hd Ht]. apply orb_false_elim in Hd as [Hl Hs].
  assert (handleSave st
          = {| now := now st; mounted := mounted st; recap_content := recap_content st;
               isLoading := isLoading st; title := title st; isSaving := true;
               hasUnsavedChanges := hasUnsavedChanges st; editorState := editorState st;
               htmlContent := htmlContent st; autoSaveTimeout := autoSaveTimeout st;
               cleanupTimeout := cleanupTimeout st; timers := timers st;
               nextTimer := nextTimer st; inflight := (inflight st ++ [Manual])%list;
               saves := (saves st ++ [{| s_time := now st; s_origin := Manual;
                                         s_content := editorState st;
                                         s_title := title st |}])%list;
               alerts := alerts st |}) as Eh
    by (unfold handleSave; rewrite Ht; reflexivity).
  destruct (quiet_effects (handleSave st)) as [Hq Es].
  - rewrite Eh. exact Hm.
  - left. rewrite Eh. reflexivity.
  - rewrite Eh. cbn [autoSaveTimeout cleanupTimeout timers].
    rewrite (cleared_twice_single st S). constructor.
  - split; [exact Hq|]. rewrite Es, Eh. cbn [saves].
    rewrite auto_saves_snoc. simpl. apply app_nil_r.
Qed.

Lemma quiet_step (st : State) (e : event) :
  single_timer st -> disturbs e = false -> quiet st ->
  quiet (step st e) /\ auto_saves (saves (step st e)) = auto_saves (saves st).
Proof.
  intros S He H. destruct e as [t h|v| |k b|id| |b| |dt]; simpl in *; try discriminate.
  - (* ClickSave *)
    unfold clickSave. destruct (mounted st) eqn:Hm; simpl; [|split; [exact H|reflexivity]].
    destruct (saveDisabled st) eqn:Hd; [split; [exact H|reflexivity]|].
    pose proof (quiet_after_click st S Hm Hd) as Hc. unfold clickSave in Hc.
    rewrite Hm, Hd in Hc. exact Hc.
  - (* Settle, successful *)
    apply negb_false_iff in He. subst b. unfold settle.
    destruct (inflight st !! k); [|split; [exact H|reflexivity]].
    destruct H as [Q T]. split; [split|]; simpl; try assumption; try reflexivity.
    intros Hm. rewrite Hm. right. reflexivity.
  - (* Fire *)
    unfold fire.
    destruct (List.find (fun t => Nat.eqb (t_id t) id) (timers st)) as [t|] eqn:Ef;
      [|split; [exact H|reflexivity]].
    destruct (t_due t <=? now st)%N; [|split; [exact H|reflexivity]].
    destruct H as [Q T]. apply find_some in Ef as [Hin _].
    rewrite List.Forall_forall in T. pose proof (T t Hin) as Hg.
    unfold handleAutoSave. rewrite Hg. split; [split|]; simpl; try assumption;
      try reflexivity.
    apply List.Forall_forall. intros t' Ht'. apply filter_In in Ht' as [Ht' _].
    exact (T t' Ht').
  - (* Rerender *)
    unfold rerender. destruct (mounted st) eqn:Hm; [|split; [exact H|reflexivity]].
    destruct H as [Q T].
    destruct (quiet_effects st Hm (Q Hm)) as [Hq Es].
    { apply Forall_clearTimeout, Forall_clearTimeout, T. }
    split; [exact Hq|]. rewrite Es. reflexivity.
  - (* SetLoading *)
    unfold setLoading. destruct (negb (mounted st)); [split; [exact H|reflexivity]|].
    destruct H as [Q T]. split; [split|]; simpl; try assumption; reflexivity.
  - (* Unmount *)
    unfold unmount. destruct (negb (mounted st)); [split; [exact H|reflexivity]|].
    destruct H as [Q T]. split; [split|]; simpl; try reflexivity.
    + discriminate.
    + apply Forall_clearTimeout, T.
  - (* Advance *)
    destruct H as [Q T]. split; [split|]; simpl; try assumption; reflexivity.
Qed.

Lemma quiet_run (es : list event) :
  forall st : State,
    timing st -> Forall (fun e => disturbs e = false) es -> quiet st ->
    auto_saves (saves (run st es)) = auto_saves (saves st).
Proof.
  induction es as [|e es IH]; intros st Ht He H; [reflexivity|].
  apply Forall_cons_1 in He as [He Hes]. simpl.
  destruct (quiet_step st e (tm_single st Ht) He H) as [Hq Es].
  rewrite (IH _ (timing_step st e Ht) Hes Hq). exact Es.
Qed.

End EditorQuiet.

Section EditorTheorems.
Import JsString Editor EditorAux Samples.
Local Open Scope string_scope.


(** The model does auto-save: two seconds after the last render of an
    edited recap the timer calls [onSave] with what was typed. *)
Example autosave_fires :
  saves (run (init None None false)
           [ TitleInput (lit "Week 1");
             EditorUpdate (lit "What a week") (lit "<p>What a week</p>");
             Rerender; Advance 2000; Fire 2 ])
  = [ {| s_time := 2000; s_origin := Auto; s_content := lit "What a week";
         s_title := lit "Week 1" |} ].
Proof. vm_compute. reflexivity. Qed.


(** C9, as the code has it.  With an empty or whitespace-only title,
    [handleSave] shows the prompt and returns: [onSave] is not called and
    nothing else changes.  The Save button is disabled in such a state,
    so a click on it does not reach [handleSave]: no prompt, no call of
    [onSave], no change at all. *)
Theorem save_blocked_without_title (st : State) :
  nonblank (title st) = false ->
  (alerts (handleSave st) = (alerts st ++ [ALERT_TITLE])%list
   /\ saves (handleSave st) = saves st
   /\ inflight (handleSave st) = inflight st
   /\ hasUnsavedChanges (handleSave st) = hasUnsavedChanges st
   /\ isSaving (handleSave st) = isSaving st
   /\ timers (handleSave st) = timers st)
  /\ saveDisabled st = true
  /\ clickSave st = st.
Proof.
  intros H. unfold handleSave, clickSave, saveDisabled. rewrite H. simpl.
  rewrite !orb_true_r. repeat split; reflexivity.
Qed.

Lemma save_blocked_witness :
  alerts (handleSave untitled) = [ALERT_TITLE] /\ clickSave untitled = untitled.
Proof.
  pose proof (save_blocked_without_title untitled eq_refl) as ((Ha & _) & _ & Hc).
  split; [exact Ha|exact Hc].
Defined.

(** With no title, a click on Save prompts nothing. *)
Lemma click_without_title_no_prompt :
  title untitled = [] /\ alerts (clickSave untitled) = [] /\ saves (clickSave untitled) = [].
Proof. repeat split; reflexivity. Qed.

End EditorTheorems.

(** ** The Markdown export on any document *)

Section AnyTag.
Import JsString Regex ExportUtils ExportAux MarkdownAux.

Lemma accepts_not_gt (c : char) : accepts false (not_chr GT_) c = negb (GT_ =? c)%N.
Proof.
  unfold accepts, not_chr, existsb, range_mem, in_range, fst, snd, GT_.
  rewrite orb_false_r, andb_false_l, orb_false_r.
  destruct (N.leb_spec 62 c), (N.leb_spec c 62), (N.eqb_spec 62 c); simpl; try reflexivity; lia.
Qed.

Lemma accepts_gt (c : char) : accepts false (Chr GT_) c = (GT_ =? c)%N.
Proof. reflexivity. Qed.

(** The greedy run of non-[>] stops at the first [>]. *)
Lemma tag_body (idx : nat) :
  forall (rest : jsstring) (st : mstate),
    m_nodes false idx [star (not_chr GT_); One (Chr GT_)] rest st =
    match until_gt rest with
    | Some k => Some (shift (S k) st)
    | None => None
    end.
Proof.
  unfold star. induction rest as [|c rest IH]; intros st; rewrite m_nodes_many.
  - reflexivity.
  - rewrite accepts_not_gt, m_nodes_one, accepts_gt. cbn [until_gt].
    destruct (GT_ =? c)%N; cbn [negb].
    + cbn [m_nodes]. f_equal. unfold shift, advance. simpl. f_equal. lia.
    + rewrite IH. destruct (until_gt rest) as [k|]; cbn [option_map]; [|reflexivity].
      rewrite shift_advance. reflexivity.
Qed.

Lemma exec_any_tag (idx : nat) (c : char) (rest : jsstring) :
  exec_at any_tag_re idx (c :: rest) =
  if (LT_ =? c)%N then
    match until_gt rest with
    | Some k => Some (shift (S (S k)) m_init)
    | None => None
    end
  else None.
Proof.
  unfold exec_at, any_tag_re. cbn [m_alts re_alts re_ignoreCase].
  change (chars "<" ++ [star (not_chr GT_)] ++ chars ">")
    with (One (Chr LT_) :: [star (not_chr GT_); One (Chr GT_)]).
  rewrite m_nodes_one, accepts_lt. destruct (LT_ =? c)%N; [|reflexivity].
  rewrite tag_body. destruct (until_gt rest) as [k|]; [|reflexivity].
  rewrite shift_advance. reflexivity.
Qed.

Lemma until_gt_None (s : jsstring) : until_gt s = None -> ~ In GT_ s.
Proof.
  induction s as [|c s IH]; [intros _ []|]. cbn [until_gt].
  destruct (N.eqb_spec GT_ c) as [|Hne]; [discriminate|].
  destruct (until_gt s); [discriminate|]. intros _ [E|H]; [congruence|exact (IH eq_refl H)].
Qed.

Lemma until_gt_length (s : jsstring) (k : nat) : until_gt s = Some k -> k < length s.
Proof.
  revert k. induction s as [|c s IH]; intros k; [discriminate|]. cbn [until_gt].
  destruct (GT_ =? c)%N; [intros [= <-]; simpl; lia|].
  destruct (until_gt s) as [j|]; [|discriminate]. intros [= <-]. specialize (IH j eq_refl).
  simpl. lia.
Qed.

(** Deleting the tags leaves a part of the text, in order. *)
Lemma any_tag_sublist :
  forall (len : nat) (s : jsstring) (idx : nat),
    length s <= len -> sublist (replace_from any_tag_re [] idx 0 s) s.
Proof.
  induction len as [|len IH]; intros s idx Hlen.
  - destruct s; [|simpl in Hlen; lia]. rewrite replace_from_nil; [constructor|reflexivity].
  - destruct s as [|c s]; [rewrite replace_from_nil; [constructor|reflexivity]|].
    pose proof (exec_any_tag idx c s) as E.
    destruct (LT_ =? c)%N; [destruct (until_gt s) as [k|] eqn:Ek|].
    + rewrite (replace_from_hit _ _ _ _ _ E) by (simpl; lia).
      cbn [expand app]. apply until_gt_length in Ek.
      rewrite <- (take_drop (m_pos (shift (S (S k)) m_init)) (c :: s)) at 2.
      apply sublist_inserts_l, IH. rewrite length_drop. simpl in *. lia.
    + rewrite replace_from_miss by exact E. apply sublist_skip, IH. simpl in Hlen. lia.
    + rewrite replace_from_miss by exact E. apply sublist_skip, IH. simpl in Hlen. lia.
Qed.

Lemma sublist_In {A} (a : A) (l k : list A) : sublist l k -> In a l -> In a k.
Proof.
  intros H Hin. apply list_elem_of_In. apply list_elem_of_In in Hin.
  exact (elem_of_sublist _ _ _ Hin H).
Qed.

Lemma tag_free_sublist (l k : jsstring) : sublist l k -> tag_free k -> tag_free l.
Proof.
  induction 1 as [|x l k H IH|x l k H IH]; [trivial| |].
  - intros [H1 H2]. split; [|exact (IH H2)].
    intros E Hin. exact (H1 E (sublist_In _ _ _ H Hin)).
  - intros [_ H2]. exact (IH H2).
Qed.

(** After the tag pattern, nothing that opens with [<] is closed by [>]. *)
Lemma any_tag_free :
  forall (len : nat) (s : jsstring) (idx : nat),
    length s <= len -> tag_free (replace_from any_tag_re [] idx 0 s).
Proof.
  induction len as [|len IH]; intros s idx Hlen.
  - destruct s; [|simpl in Hlen; lia]. rewrite replace_from_nil; [exact I|reflexivity].
  - destruct s as [|c s]; [rewrite replace_from_nil; [exact I|reflexivity]|].
    pose proof (exec_any_tag idx c s) as E.
    destruct (N.eqb_spec LT_ c) as [Ec|Ec]; [destruct (until_gt s) as [k|] eqn:Ek|].
    + rewrite (replace_from_hit _ _ _ _ _ E) by (simpl; lia).
      cbn [expand app]. apply until_gt_length in Ek.
      apply IH. rewrite length_drop. simpl in *. lia.
    + rewrite replace_from_miss by exact E. split; [|apply IH; simpl in Hlen; lia].
      intros _ Hin. apply (until_gt_None s Ek).
      exact (sublist_In _ _ _ (any_tag_sublist _ s (S idx) (Nat.le_refl _)) Hin).
    + rewrite replace_from_miss by exact E. split; [|apply IH; simpl in Hlen; lia].
      intros E'. congruence.
Qed.

End AnyTag.

Section MarkdownShape.
Import JsString Regex ExportUtils ExportAux MarkdownAux.

Lemma repeat_sublist_run (x : char) (k : nat) (s : jsstring) :
  k <= lead x s -> sublist (repeat x k) (take (lead x s) s).
Proof.
  revert s. induction k as [|k IH]; intros s H; [apply sublist_nil_l|].
  destruct s as [|c s]; [simpl in H; lia|]. simpl in H |- *.
  destruct (N.eqb_spec x c) as [->|]; [|lia]. simpl.
  apply sublist_skip, IH. lia.
Qed.

Lemma collapse_sublist (x : char) (n : nat) :
  0 < n ->
  forall (len : nat) (s : jsstring) (idx : nat),
    length s <= len -> sublist (collapse_from x n idx s) s.
Proof.
  intros Hn. induction len as [|len IH]; intros s idx Hlen.
  - destruct s; [|simpl in Hlen; lia]. rewrite collapse_nil by exact Hn. constructor.
  - destruct s as [|c s]; [rewrite collapse_nil by exact Hn; constructor|].
    destruct (Nat.le_gt_cases n (lead x (c :: s))) as [Hl|Hs].
    + rewrite collapse_long by assumption.
      pose proof (lead_le_length x (c :: s)) as Hle.
      pose proof (repeat_sublist_run x (n - 1) (c :: s)) as Hrep.
      assert (0 < lead x (c :: s)) as Hpos by lia.
      set (L := lead x (c :: s)) in *.
      rewrite <- (take_drop L (c :: s)) at 2.
      apply sublist_app; [apply Hrep; lia|].
      apply IH. rewrite length_drop. simpl in *. lia.
    + rewrite collapse_short by exact Hs. apply sublist_skip, IH. simpl in Hlen. lia.
Qed.

Lemma trim_sublist_of (s : jsstring) : sublist (trim s) s.
Proof.
  destruct (trim_sublist s) as (l1 & l2 & E). rewrite E at 2.
  apply sublist_inserts_l, sublist_inserts_r. reflexivity.
Qed.

Lemma tag_steps_last :
  tag_steps = take 18 markdown_steps ++ [(any_tag_re, [])].
Proof. reflexivity. Qed.

Lemma markdown_tag_free (h : jsstring) : tag_free (html_to_markdown h).
Proof.
  rewrite html_to_markdown_unfold.
  apply (tag_free_sublist _ _ (trim_sublist_of _)).
  rewrite squeeze_blank_collapse.
  apply (tag_free_sublist _ _
           (collapse_sublist NL 3 (Nat.lt_0_succ 2) _ _ 0 (Nat.le_refl _))).
  rewrite tag_steps_last, apply_steps_app. cbn [apply_steps fold_left fst snd].
  apply (any_tag_free _ _ 0 (Nat.le_refl _)).
Qed.

Lemma tag_free_no_tag (s l1 l2 l3 : jsstring) :
  tag_free s -> s <> l1 ++ LT_ :: l2 ++ GT_ :: l3.
Proof.
  intros H E. subst s. induction l1 as [|c l1 IH].
  - destruct H as [H _]. apply (H eq_refl). apply in_or_app. right. now left.
  - destruct H as [_ H]. exact (IH H).
Qed.

(** X1.  Whatever the document and the options: the Markdown that is exported
    holds no HTML tag, that is, no [<] with a [>] anywhere after it. *)
Theorem markdown_holds_no_tag (options : ExportOptions) (htmlString : jsstring) :
  let md := exportAsMarkdown options htmlString in
  tag_free md
  /\ forall l1 l2 l3 : jsstring, md <> l1 ++ LT_ :: l2 ++ GT_ :: l3.
Proof.
  intros md. assert (tag_free md) as H by apply markdown_tag_free.
  split; [exact H|]. intros l1 l2 l3. apply tag_free_no_tag, H.
Qed.

Lemma norun_no_triple (x : char) (l1 l2 : jsstring) :
  ~ norun x 3 (l1 ++ [x; x; x] ++ l2).
Proof.
  induction l1 as [|c l1 IH]; simpl.
  - rewrite !N.eqb_refl. lia.
  - intros [_ H]. exact (IH H).
Qed.

Lemma last_rev_head {A} (l : list A) : last (rev l) = head l.
Proof.
  destruct l as [|a l]; [reflexivity|]. simpl. apply last_snoc.
Qed.

Lemma trimEnd_last (s : jsstring) (c : char) :
  last (trimEnd s) = Some c -> is_trimmed c = false.
Proof. unfold trimEnd. rewrite last_rev_head. apply trimStart_head. Qed.

Lemma trim_head (s : jsstring) (c : char) :
  head (trim s) = Some c -> is_trimmed c = false.
Proof.
  unfold trim. intros H. apply (trimStart_head s).
  destruct (trimEnd_prefix (trimStart s)) as [l E].
  destruct (trimEnd (trimStart s)) as [|a u]; [discriminate|].
  rewrite E. exact H.
Qed.

(** X2.  Whatever the document and the options: the Markdown that is exported
    neither starts nor ends with white space or a line break, and holds
    no three line feeds in a row. *)
Theorem markdown_is_tidy (options : ExportOptions) (htmlString : jsstring) :
  let md := exportAsMarkdown options htmlString in
  (forall c, head md = Some c -> is_trimmed c = false)
  /\ (forall c, last md = Some c -> is_trimmed c = false)
  /\ (forall l1 l2 : jsstring, md <> l1 ++ [NL; NL; NL] ++ l2)
  /\ trim md = md.
Proof.
  intros md. subst md. unfold exportAsMarkdown.
  set (h := exportAsHTML options htmlString). repeat split.
  - intros c. unfold html_to_markdown. apply trim_head.
  - intros c. unfold html_to_markdown, trim. apply trimEnd_last.
  - intros l1 l2 E. apply (norun_no_triple NL l1 l2). rewrite <- E.
    rewrite html_to_markdown_unfold. apply norun_trim. rewrite squeeze_blank_collapse.
    apply (collapse_norun NL 3 (Nat.lt_0_succ 2) _ _ 0 (Nat.le_refl _)).
  - unfold html_to_markdown. apply trim_idem.
Qed.

End MarkdownShape.

(** ** File names *)

Section SanitizeMore.
Import JsString Regex ExportUtils ExportAux.

Lemma sanitizeFilename_spec (unicode_lower : jsstring -> jsstring) (title : jsstring) :
  sanitizeFilename unicode_lower title = sanitize_spec title.
Proof.
  unfold sanitizeFilename. rewrite sanitizeFilename_steps.
  rewrite (toLowerCase_ascii _ _ (stripped_alnum_or_us title)). reflexivity.
Qed.

Lemma norun_head_pair (x : char) (s : jsstring) :
  norun x 2 s -> head s <> Some x -> last s <> Some x ->
  strip_last x (strip_first x (collapse_runs x s)) = s.
Proof.
  intros Hrun Hh Hl.
  assert (collapse_runs x s = s) as ->.
  { clear Hh Hl. induction s as [|c s IH]; [reflexivity|]. destruct Hrun as [H1 H2].
    rewrite collapse_runs_other by exact H1. rewrite IH by exact H2. reflexivity. }
  assert (strip_first x s = s) as ->.
  { destruct s as [|c s]; [reflexivity|]. simpl.
    destruct (N.eqb_spec x c) as [->|]; [|reflexivity]. exfalso. apply Hh. reflexivity. }
  clear Hrun Hh. induction s as [|c s IH]; [reflexivity|]. destruct s as [|c' s].
  - simpl. destruct (N.eqb_spec x c) as [->|]; [|reflexivity]. exfalso. apply Hl. reflexivity.
  - change (strip_last x (c :: c' :: s)) with (c :: strip_last x (c' :: s)).
    rewrite IH; [reflexivity|]. rewrite last_cons in Hl.
    destruct (last (c' :: s)); [exact Hl|discriminate].
Qed.

Lemma filename_char_fixed (c : char) :
  filename_char c = true -> underscore_non_alnum c = c /\ lower_ascii c = c.
Proof.
  unfold filename_char, underscore_non_alnum, lower_ascii, is_alnum, is_lower, is_upper,
    is_digit, in_range, UNDERSCORE.
  destruct (N.leb_spec 97 c), (N.leb_spec c 122), (N.leb_spec 65 c), (N.leb_spec c 90),
    (N.leb_spec 48 c), (N.leb_spec c 57), (N.eqb_spec c 95);
    cbn -[N.add]; intros Hf; try discriminate Hf; split; try reflexivity; try lia; congruence.
Qed.

Lemma map_fixed {A} (f : A -> A) (l : list A) :
  Forall (fun a => f a = a) l -> map f l = l.
Proof. induction 1 as [|a l Ha _ IH]; [reflexivity|]. simpl. rewrite Ha, IH. reflexivity. Qed.

(** A clean name is left as it is. *)
Lemma sanitize_spec_fixed (s : jsstring) :
  Forall (fun c => filename_char c = true) s -> norun UNDERSCORE 2 s ->
  head s <> Some UNDERSCORE -> last s <> Some UNDERSCORE ->
  sanitize_spec s = s.
Proof.
  intros Hc Hrun Hh Hl. unfold sanitize_spec.
  rewrite (map_fixed underscore_non_alnum).
  - rewrite norun_head_pair by assumption. apply map_fixed.
    eapply Forall_impl; [exact Hc|]. intros c H. apply filename_char_fixed, H.
  - eapply Forall_impl; [exact Hc|]. intros c H. apply filename_char_fixed, H.
Qed.

Lemma sanitize_spec_shape (title : jsstring) :
  let r := sanitize_spec title in
  Forall (fun c => filename_char c = true) r /\ norun UNDERSCORE 2 r
  /\ head r <> Some UNDERSCORE /\ last r <> Some UNDERSCORE.
Proof.
  intros r. subst r. unfold sanitize_spec.
  pose proof (stripped_alnum_or_us title) as Hall.
  pose proof (stripped_norun title) as Hrun.
  repeat split.
  - apply List.Forall_forall. intros a Ha. apply in_map_iff in Ha as (c & <- & Hc).
    apply lower_filename_char. rewrite List.Forall_forall in Hall. exact (Hall c Hc).
  - apply norun_map_lower, norun_strip_last, Hrun.
  - apply head_map_lower, head_strip_last, head_strip_first.
    rewrite <- (replace_underscores_spec UNDERSCORE _ _ 0 (Nat.le_refl _)).
    apply (collapse_norun UNDERSCORE 2 (Nat.lt_0_succ 1) _ _ 0 (Nat.le_refl _)).
  - apply last_map_lower, last_strip_last, Hrun.
Qed.

End SanitizeMore.

Section SanitizeTheorems.
Import JsString Regex ExportUtils ExportAux Exporter.

Lemma no_pair_norun (x : char) (s : jsstring) :
  (forall l1 l2 : jsstring, s <> l1 ++ [x; x] ++ l2) -> norun x 2 s.
Proof.
  induction s as [|c s IH]; intros H; [exact I|]. split.
  - simpl. destruct (N.eqb_spec x c) as [<-|]; [|lia].
    destruct s as [|c' s]; simpl; [lia|].
    destruct (N.eqb_spec x c') as [<-|]; [|lia].
    exfalso. apply (H [] s). reflexivity.
  - apply IH. intros l1 l2 E. apply (H (c :: l1) l2). rewrite E. reflexivity.
Qed.

(** X3.  Sanitizing a name twice gives what sanitizing it once gives. *)
Theorem sanitizeFilename_idempotent (unicode_lower : jsstring -> jsstring)
    (title : jsstring) :
  sanitizeFilename unicode_lower (sanitizeFilename unicode_lower title)
  = sanitizeFilename unicode_lower title.
Proof.
  rewrite !sanitizeFilename_spec.
  destruct (sanitize_spec_shape title) as (H1 & H2 & H3 & H4).
  apply sanitize_spec_fixed; assumption.
Qed.

(** X4.  The names that [sanitizeFilename] returns unchanged are exactly the
    clean ones: lowercase letters, digits and underscores only, no two
    underscores in a row, no underscore at either end. *)
Theorem sanitizeFilename_fixed_points (unicode_lower : jsstring -> jsstring)
    (name : jsstring) :
  sanitizeFilename unicode_lower name = name
  <-> Forall (fun c => filename_char c = true) name
      /\ (forall l1 l2 : jsstring, name <> l1 ++ [UNDERSCORE; UNDERSCORE] ++ l2)
      /\ head name <> Some UNDERSCORE
      /\ last name <> Some UNDERSCORE.
Proof.
  rewrite sanitizeFilename_spec. split.
  - intros E. destruct (sanitize_spec_shape name) as (H1 & H2 & H3 & H4).
    rewrite E in *. repeat split; try assumption.
    intros l1 l2 E'. apply (norun_no_pair UNDERSCORE l1 l2). rewrite <- E'. exact H2.
  - intros (H1 & H2 & H3 & H4). apply sanitize_spec_fixed; try assumption.
    apply no_pair_norun, H2.
Qed.

Lemma In_keep_collapse_runs (x a : char) (s : jsstring) :
  a <> x -> In a s -> In a (collapse_runs x s).
Proof.
  intros Hne. induction s as [|c s IH]; [trivial|]. intros [->|H]; simpl.
  - destruct (N.eqb_spec x a); [congruence|]. now left.
  - destruct ((x =? c)%N && Nat.ltb 0 (lead x s)); [|right]; apply IH, H.
Qed.

Lemma In_keep_strip_first (x a : char) (s : jsstring) :
  a <> x -> In a s -> In a (strip_first x s).
Proof.
  intros Hne. destruct s as [|c s]; [trivial|]. simpl.
  destruct (N.eqb_spec x c) as [<-|]; [|trivial]. intros [E|H]; [congruence|exact H].
Qed.

Lemma In_keep_strip_last (x a : char) (s : jsstring) :
  a <> x -> In a s -> In a (strip_last x s).
Proof.
  intros Hne. induction s as [|c s IH]; [trivial|]. destruct s as [|c' s].
  - simpl. destruct (N.eqb_spec x c) as [<-|]; [|trivial]. intros [E|[]]. congruence.
  - change (strip_last x (c :: c' :: s)) with (c :: strip_last x (c' :: s)).
    intros [->|H]; [now left|right; apply IH, H].
Qed.

Lemma alnum_not_underscore (c : char) : is_alnum c = true -> c <> UNDERSCORE.
Proof. intros H ->. vm_compute in H. discriminate. Qed.

Lemma sanitize_spec_nil (title : jsstring) :
  sanitize_spec title = [] <-> Forall (fun c => is_alnum c = false) title.
Proof.
  split.
  - intros E. apply List.Forall_forall. intros c Hc.
    destruct (is_alnum c) eqn:Ha; [|reflexivity]. exfalso.
    assert (In (lower_ascii c) (sanitize_spec title)) as Hin; [|rewrite E in Hin; exact Hin].
    unfold sanitize_spec. apply in_map.
    pose proof (alnum_not_underscore c Ha) as Hne.
    apply In_keep_strip_last, In_keep_strip_first, In_keep_collapse_runs; try exact Hne.
    apply in_map_iff. exists c. split; [|exact Hc].
    unfold underscore_non_alnum. rewrite Ha. reflexivity.
  - intros H. destruct (sanitize_spec_shape title) as (_ & _ & Hh & _).
    destruct (sanitize_spec title) as [|a r] eqn:E; [reflexivity|]. exfalso.
    apply Hh. simpl. f_equal.
    assert (In a (sanitize_spec title)) as Hin by (rewrite E; now left).
    unfold sanitize_spec in Hin. apply in_map_iff in Hin as (b & <- & Hb).
    apply In_strip_last, In_strip_first, In_collapse_runs, in_map_iff in Hb
      as (c & <- & Hc).
    rewrite List.Forall_forall in H. unfold underscore_non_alnum.
    rewrite (H c Hc). reflexivity.
Qed.

(** X5.  The result is empty exactly when the title holds no letter and no
    digit of ASCII. *)
Theorem sanitizeFilename_empty (unicode_lower : jsstring -> jsstring)
    (title : jsstring) :
  sanitizeFilename unicode_lower title = []
  <-> Forall (fun c => is_alnum c = false) title.
Proof. rewrite sanitizeFilename_spec. apply sanitize_spec_nil. Qed.

Lemma filename_char_recap : Forall (fun c => filename_char c = true) (lit "recap").
Proof. repeat constructor. Qed.

(** X6.  An export, once the exporter is set up, downloads a file whose name
    is a non-empty base of lowercase letters, digits and underscores, a
    dot and the extension of the format, with the matching MIME type;
    the base is [recap] when the title holds no letter and no digit. *)
Theorem handleExport_download_name (unicode_lower : jsstring -> jsstring)
    (format : string) (title : jsstring) (doc : Document) :
  exists (d : Download) (base ext : jsstring),
    handleExport unicode_lower true format title doc = Some d
    /\ filename d = base ++ lit "." ++ ext
    /\ base <> []
    /\ Forall (fun c => filename_char c = true) base
    /\ (Forall (fun c => is_alnum c = false) title -> base = lit "recap")
    /\ (format = "html"%string -> ext = lit "html" /\ mimeType d = "text/html"%string)
    /\ (format = "markdown"%string -> ext = lit "md" /\ mimeType d = "text/markdown"%string)
    /\ (format <> "html"%string -> format <> "markdown"%string ->
        ext = lit "txt" /\ mimeType d = "text/plain"%string).
Proof.
  unfold handleExport, exportAndDownload. cbn [negb].
  set (name := sanitizeFilename unicode_lower (if truthy title then title else lit "recap")).
  set (base := if truthy name then name else lit "recap").
  assert (base <> [] /\ Forall (fun c => filename_char c = true) base
          /\ (Forall (fun c => is_alnum c = false) title -> base = lit "recap"))
    as (Hb1 & Hb2 & Hb3).
  { subst base. destruct name as [|a r] eqn:En; cbn [truthy].
    - split; [discriminate|]. split; [exact filename_char_recap|reflexivity].
    - split; [discriminate|]. split.
      + rewrite <- En. subst name. rewrite sanitizeFilename_spec.
        apply sanitize_spec_shape.
      + intros Hno. rewrite <- En. subst name.
        destruct title as [|c t]; cbn [truthy] in *; [vm_compute; reflexivity|].
        exfalso. rewrite sanitizeFilename_spec in En.
        apply sanitize_spec_nil in Hno. congruence. }
  destruct (String.eqb_spec format "html") as [Eh|Eh];
    [|destruct (String.eqb_spec format "markdown") as [Em|Em]];
    eexists; exists base; eexists; (split; [reflexivity|]); (split; [reflexivity|]);
    (split; [exact Hb1|]); (split; [exact Hb2|]); (split; [exact Hb3|]);
    cbn [mimeType]; repeat split; intros; try reflexivity;
    try contradiction; try congruence; try (subst format; discriminate).
Qed.

End SanitizeTheorems.

(** ** The Markdown of a document of paragraphs *)

Section ParagraphBlocks.
Import JsString Regex ExportUtils ExportAux MarkdownAux.

Lemma inline_text_cons (c : char) (t : jsstring) :
  inline_text (c :: t) = true ->
  (LT_ =? c)%N = false /\ is_line_terminator c = false /\ inline_text t = true.
Proof.
  unfold inline_text. cbn [forallb]. intros H.
  apply andb_prop in H as [H1 H2]. apply andb_prop in H1 as [Ha Hb].
  apply negb_true_iff in Ha, Hb. auto.
Qed.

Lemma inline_text_plain (t : jsstring) : inline_text t = true -> ~ In LT_ t.
Proof.
  induction t as [|c t IH]; [intros _ []|]. intros H.
  apply inline_text_cons in H as (H1 & _ & H3). intros [E|Hin].
  - subst c. rewrite N.eqb_refl in H1. discriminate.
  - exact (IH H3 Hin).
Qed.

(** The lazy [.*?] runs over a line of text up to a closing tag that
    matches. *)
Lemma lazy_over_text (idx g : nat) (ns : list node) :
  forall (t rest : jsstring) (st r : mstate),
    inline_text t = true ->
    m_nodes true idx (Close g :: One (Chr LT_) :: ns) rest (shift (length t) st) = Some r ->
    m_nodes true idx (Many false 0 Dot :: Close g :: One (Chr LT_) :: ns) (t ++ rest) st
    = Some r.
Proof.
  induction t as [|c t IH]; intros rest st r Ht Hr; rewrite m_nodes_many.
  - rewrite shift_0 in Hr. cbn [app]. rewrite Hr. reflexivity.
  - apply inline_text_cons in Ht as (H1 & H2 & H3). rewrite <- app_comm_cons.
    assert (m_nodes true idx (Close g :: One (Chr LT_) :: ns) (c :: t ++ rest) st = None)
      as ->.
    { cbn [m_nodes]. rewrite accepts_lt, H1. reflexivity. }
    assert (accepts true Dot c = true) as -> by (cbn [accepts]; rewrite H2; reflexivity).
    apply IH; [exact H3|]. rewrite shift_advance. exact Hr.
Qed.

Lemma exec_p_text (idx : nat) (t rest : jsstring) :
  inline_text t = true ->
  exec_at (element_re "p") idx (lit "<p>" ++ t ++ lit "</p>" ++ rest)
  = Some (advance (advance (advance (advance
            (close_group 1 (shift (length t) p_entered)))))).
Proof.
  intros Ht. rewrite exec_p_open.
  change p_tail
    with (Close 1 :: One (Chr LT_) :: [One (Chr 47%N); One (Chr 112%N); One (Chr 62%N)]).
  erewrite (lazy_over_text idx 1 _ t (lit "</p>" ++ rest) p_entered _ Ht); reflexivity.
Qed.

(** The paragraph substitution on a document of one-line paragraphs. *)
Lemma p_step_blocks :
  forall (texts : list jsstring) (idx : nat),
    Forall (fun t => inline_text t = true) texts ->
    replace_from (element_re "p") p_template idx 0 (paragraphs_html texts)
    = blocks texts.
Proof.
  induction texts as [|t texts IH]; intros idx H.
  - reflexivity.
  - apply Forall_cons_1 in H as [Ht H].
    unfold paragraphs_html, blocks. cbn [map concat].
    fold (paragraphs_html texts). fold (blocks texts).
    unfold paragraph. rewrite <- !app_assoc.
    pose proof (exec_p_text idx t (paragraphs_html texts) Ht) as E.
    rewrite (replace_from_hit _ _ _ _ _ E) by (simpl; lia).
    assert (expand p_template (lit "<p>" ++ t ++ lit "</p>" ++ paragraphs_html texts)
              (advance (advance (advance (advance
                 (close_group 1 (shift (length t) p_entered))))))
            = t ++ [NL; NL]) as ->.
    { cbn. rewrite Nat.sub_0_r, drop_0, take_app_length. reflexivity. }
    assert (drop (m_pos (advance (advance (advance (advance
               (close_group 1 (shift (length t) p_entered)))))))
              (lit "<p>" ++ t ++ lit "</p>" ++ paragraphs_html texts)
            = paragraphs_html texts) as ->.
    { cbn. replace (S (S (S (S (length t))))) with (length t + 4) by lia.
      rewrite <- drop_drop, drop_app_length. reflexivity. }
    rewrite IH by exact H. rewrite <- app_assoc. reflexivity.
Qed.

Lemma blocks_plain (texts : list jsstring) :
  Forall (fun t => inline_text t = true) texts -> ~ In LT_ (blocks texts).
Proof.
  induction 1 as [|t texts Ht _ IH]; [intros []|].
  unfold blocks. cbn [map concat]. fold (blocks texts). rewrite <- app_assoc.
  intros Hin. apply in_app_or in Hin as [Hin|Hin].
  - exact (inline_text_plain t Ht Hin).
  - destruct Hin as [E|[E|Hin]]; [discriminate E|discriminate E|exact (IH Hin)].
Qed.

Lemma after_p_guarded :
  forallb (fun st => lt_guarded (fst st)) (inline_steps ++ [(any_tag_re, [])]) = true.
Proof. vm_compute. reflexivity. Qed.

Lemma tag_steps_regroup :
  tag_steps = heading_steps ++ [(element_re "p", p_template)]
              ++ (inline_steps ++ [(any_tag_re, [])]).
Proof. reflexivity. Qed.

Lemma apply_steps_one (re : regex) (tmpl : list piece) (s : jsstring) :
  apply_steps [(re, tmpl)] s = replace re tmpl s.
Proof. reflexivity. Qed.

Lemma markdown_of_blocks (texts : list jsstring) :
  Forall (fun t => inline_text t = true) texts ->
  html_to_markdown (paragraphs_html texts) = trim (squeeze_blank (blocks texts)).
Proof.
  intros H. rewrite html_to_markdown_unfold. do 2 f_equal.
  rewrite tag_steps_regroup. do 2 rewrite apply_steps_app.
  assert (ptext (paragraphs_html texts)) as Hp.
  { apply paragraphs_ptext. eapply Forall_impl; [exact H|].
    intros t Ht. exact (inline_text_plain t Ht). }
  rewrite (apply_steps_misses _ _ heading_steps_miss Hp).
  rewrite (apply_steps_one (element_re "p") p_template). unfold replace.
  rewrite (p_step_blocks texts 0 H).
  apply apply_steps_guarded; [exact after_p_guarded|exact (blocks_plain texts H)].
Qed.

End ParagraphBlocks.

Section CleanBlocks.
Import JsString Regex ExportUtils ExportAux MarkdownAux.

Lemma inline_text_no_NL (t : jsstring) : inline_text t = true -> ~ In NL t.
Proof.
  induction t as [|c t IH]; [intros _ []|]. intros H.
  apply inline_text_cons in H as (_ & H2 & H3). intros [E|Hin].
  - subst c. discriminate H2.
  - exact (IH H3 Hin).
Qed.

Lemma norun_text_app (x : char) (n : nat) (t rest : jsstring) :
  0 < n -> ~ In x t -> norun x n rest -> norun x n (t ++ rest).
Proof.
  intros Hn. induction t as [|c t IH]; intros Ht Hr; [exact Hr|].
  rewrite <- app_comm_cons. split.
  - simpl. destruct (N.eqb_spec x c) as [->|]; [|exact Hn]. exfalso. apply Ht. now left.
  - apply IH; [|exact Hr]. intros H. apply Ht. now right.
Qed.

Lemma solid_cons (t : jsstring) :
  solid t = true ->
  exists c t', t = c :: t' /\ is_trimmed c = false.
Proof.
  unfold solid. destruct t as [|c t']; [discriminate|]. cbn [head].
  destruct (last (c :: t')); [|discriminate]. intros H.
  apply andb_prop in H as [H _]. apply negb_true_iff in H. eauto.
Qed.

Lemma solid_last (t : jsstring) :
  solid t = true -> exists b, last t = Some b /\ is_trimmed b = false.
Proof.
  unfold solid. destruct (head t); [|discriminate].
  destruct (last t) as [b|]; [|discriminate]. intros H.
  apply andb_prop in H as [_ H]. apply negb_true_iff in H. eauto.
Qed.

Lemma trimmed_NL : is_trimmed NL = true.
Proof. reflexivity. Qed.

Lemma lead_blocks (texts : list jsstring) :
  Forall (fun t => inline_text t = true /\ solid t = true) texts ->
  lead NL (blocks texts) = 0.
Proof.
  intros H. destruct H as [|t texts [_ Ht] _]; [reflexivity|].
  apply solid_cons in Ht as (c & t' & -> & Hc).
  unfold blocks. cbn [map concat app lead].
  destruct (N.eqb_spec NL c) as [<-|]; [|reflexivity].
  rewrite trimmed_NL in Hc. discriminate.
Qed.

Lemma norun_blocks (texts : list jsstring) :
  Forall (fun t => inline_text t = true /\ solid t = true) texts ->
  norun NL 3 (blocks texts).
Proof.
  induction 1 as [|t texts [Hi Hs] H IH]; [exact I|].
  unfold blocks. cbn [map concat]. fold (blocks texts). rewrite <- app_assoc.
  apply norun_text_app; [lia|exact (inline_text_no_NL t Hi)|].
  pose proof (lead_blocks texts H) as Hl.
  cbn [app norun lead]. rewrite N.eqb_refl. repeat split; try lia. exact IH.
Qed.

Lemma blocks_join (t : jsstring) (texts : list jsstring) :
  blocks (t :: texts) = join_blank (t :: texts) ++ [NL; NL].
Proof.
  revert t. induction texts as [|t' texts IH]; intros t.
  - unfold blocks. cbn. rewrite app_nil_r. reflexivity.
  - change (blocks (t :: t' :: texts)) with ((t ++ [NL; NL]) ++ blocks (t' :: texts)).
    rewrite IH. cbn [join_blank]. rewrite <- !app_assoc. reflexivity.
Qed.

Lemma head_app_cons {A} (l k : list A) (a : A) : head l = Some a -> head (l ++ k) = Some a.
Proof. destruct l; [discriminate|]. trivial. Qed.

Lemma last_app_some {A} (l k : list A) (a : A) : last k = Some a -> last (l ++ k) = Some a.
Proof.
  intros H. destruct k as [|b k]; [discriminate|]. rewrite last_app. rewrite H. reflexivity.
Qed.

Lemma solid_join (t : jsstring) (texts : list jsstring) :
  Forall (fun t => solid t = true) (t :: texts) -> solid (join_blank (t :: texts)) = true.
Proof.
  revert t. induction texts as [|t' texts IH]; intros t H.
  - apply Forall_cons_1 in H as [H _]. exact H.
  - apply Forall_cons_1 in H as [Ht H]. specialize (IH t' H).
    change (join_blank (t :: t' :: texts))
      with (t ++ [NL; NL] ++ join_blank (t' :: texts)).
    destruct (solid_cons t Ht) as (c & u & -> & Hc).
    destruct (solid_last _ IH) as (b & Hb & Hb').
    unfold solid. cbn [head app].
    rewrite app_comm_cons, (last_app_some _ _ b).
    + rewrite Hc, Hb'. reflexivity.
    + apply (last_app_some [NL; NL]). exact Hb.
Qed.

Lemma trimStart_all (w s : jsstring) :
  forallb is_trimmed w = true -> trimStart (w ++ s) = trimStart s.
Proof.
  induction w as [|c w IH]; [reflexivity|]. cbn [forallb app trimStart].
  intros H. apply andb_prop in H as [-> H]. exact (IH H).
Qed.

Lemma head_rev_last {A} (l : list A) : head (rev l) = last l.
Proof.
  induction l as [|a l IH]; [reflexivity|]. simpl rev. rewrite last_cons.
  destruct (rev l) as [|b r] eqn:E.
  - rewrite <- IH. reflexivity.
  - rewrite <- IH. reflexivity.
Qed.

(** Trimming takes the padding off solid text. *)
Lemma trim_solid (j w : jsstring) :
  solid j = true -> forallb is_trimmed w = true -> trim (j ++ w) = j.
Proof.
  intros Hj Hw. destruct (solid_cons j Hj) as (c & u & E & Hc).
  destruct (solid_last j Hj) as (b & Hb & Hb').
  unfold trim. rewrite trimStart_fixed.
  - unfold trimEnd. rewrite rev_app_distr, trimStart_all.
    + rewrite trimStart_fixed; [apply rev_involutive|].
      intros a Ha. rewrite head_rev_last, Hb in Ha. injection Ha as <-. exact Hb'.
    + rewrite forallb_forall in *. intros a Ha. apply Hw. apply in_rev. exact Ha.
  - subst j. cbn. intros a [= <-]. exact Hc.
Qed.

Lemma clean_blocks (texts : list jsstring) :
  Forall (fun t => inline_text t = true /\ solid t = true) texts ->
  trim (squeeze_blank (blocks texts)) = join_blank texts.
Proof.
  intros H. rewrite squeeze_blank_collapse.
  rewrite collapse_fixed by (try lia; apply norun_blocks, H).
  destruct texts as [|t texts]; [reflexivity|].
  rewrite blocks_join. apply trim_solid; [|reflexivity].
  apply solid_join. eapply Forall_impl; [exact H|]. intros x [_ Hx]. exact Hx.
Qed.

End CleanBlocks.

Section TitledMarkdown.
Import JsString Regex ExportUtils ExportAux MarkdownAux.

Lemma exec_h1_open (idx : nat) (s : jsstring) :
  exec_at (element_re "h1") idx (lit "<h1>" ++ s) =
  match m_nodes true idx (Many false 0 Dot :: h1_tail) s h1_entered with
  | Some r => Some r
  | None => None
  end.
Proof. reflexivity. Qed.

Lemma exec_h1_text (idx : nat) (t rest : jsstring) :
  inline_text t = true ->
  exec_at (element_re "h1") idx (lit "<h1>" ++ t ++ lit "</h1>" ++ rest)
  = Some (advance (advance (advance (advance (advance
            (close_group 1 (shift (length t) h1_entered))))))).
Proof.
  intros Ht. rewrite exec_h1_open.
  change h1_tail
    with (Close 1 :: One (Chr LT_)
          :: [One (Chr 47%N); One (Chr 104%N); One (Chr 49%N); One (Chr 62%N)]).
  erewrite (lazy_over_text idx 1 _ t (lit "</h1>" ++ rest) h1_entered _ Ht); reflexivity.
Qed.

(** Text without [<] in front of the subject is copied. *)
Lemma replace_from_prefix (re : regex) (tmpl : list piece) :
  lt_guarded re = true ->
  forall (pre s : jsstring) (idx : nat),
    ~ In LT_ pre ->
    replace_from re tmpl idx 0 (pre ++ s)
    = pre ++ replace_from re tmpl (idx + length pre) 0 s.
Proof.
  intros Hg. induction pre as [|c pre IH]; intros s idx Hp.
  - cbn [app length]. rewrite Nat.add_0_r. reflexivity.
  - rewrite <- app_comm_cons. rewrite replace_from_miss.
    + rewrite IH by (intros H; apply Hp; now right).
      cbn [app length]. replace (idx + S (length pre)) with (S idx + length pre) by lia.
      reflexivity.
    + apply exec_guarded; [exact Hg|]. simpl. intros [= E]. apply Hp. now left.
Qed.

Lemma h1_guarded : lt_guarded (element_re "h1") = true.
Proof. reflexivity. Qed.

Lemma h1_misses : misses_tokens (element_re "h1") = true.
Proof. reflexivity. Qed.

Lemma p_guarded : lt_guarded (element_re "p") = true.
Proof. reflexivity. Qed.

Lemma minor_headings_miss :
  forallb (fun st => lt_guarded (fst st) && misses_tokens (fst st)) (drop 1 heading_steps)
  = true.
Proof. vm_compute. reflexivity. Qed.

Lemma heading_steps_head :
  heading_steps = (element_re "h1", [Txt (lit "# "); Grp 1; Txt [NL]]) :: drop 1 heading_steps.
Proof. reflexivity. Qed.

Lemma apply_steps_cons (re : regex) (tmpl : list piece)
    (l : list (regex * list piece)) (s : jsstring) :
  apply_steps ((re, tmpl) :: l) s = apply_steps l (replace re tmpl s).
Proof. reflexivity. Qed.

Lemma plain_ptext_app (pre s : jsstring) : ~ In LT_ pre -> ptext s -> ptext (pre ++ s).
Proof. intros Hp Hs. apply ptext_app; [apply plain_ptext, Hp|exact Hs]. Qed.

(** The heading substitution on a titled document of paragraphs. *)
Lemma h1_step_title (t : jsstring) (s : jsstring) :
  inline_text t = true -> ptext s ->
  replace (element_re "h1") [Txt (lit "# "); Grp 1; Txt [NL]]
    (lit "<h1>" ++ t ++ lit "</h1>" ++ [NL] ++ s)
  = lit "# " ++ t ++ [NL; NL] ++ s.
Proof.
  intros Ht Hs. unfold replace.
  pose proof (exec_h1_text 0 t ([NL] ++ s) Ht) as E.
  rewrite (replace_from_hit _ _ _ _ _ E) by (simpl; lia).
  assert (expand [Txt (lit "# "); Grp 1; Txt [NL]]
            (lit "<h1>" ++ t ++ lit "</h1>" ++ [NL] ++ s)
            (advance (advance (advance (advance (advance
               (close_group 1 (shift (length t) h1_entered)))))))
          = lit "# " ++ t ++ [NL]) as ->.
  { cbn. rewrite Nat.sub_0_r, drop_0, take_app_length. reflexivity. }
  assert (drop (m_pos (advance (advance (advance (advance (advance
             (close_group 1 (shift (length t) h1_entered))))))))
            (lit "<h1>" ++ t ++ lit "</h1>" ++ [NL] ++ s)
          = [NL] ++ s) as ->.
  { cbn. replace (S (S (S (S (S (length t)))))) with (length t + 5) by lia.
    rewrite <- drop_drop, drop_app_length. reflexivity. }
  rewrite (replace_misses _ _ h1_guarded h1_misses ([NL] ++ s)).
  - rewrite <- !app_assoc. reflexivity.
  - apply pt_char; [discriminate|exact Hs].
Qed.

Lemma title_line_plain (t : jsstring) :
  inline_text t = true -> ~ In LT_ (lit "# " ++ t ++ [NL; NL]).
Proof.
  intros Ht Hin. apply in_app_or in Hin as [Hin|Hin].
  - vm_compute in Hin. intuition discriminate.
  - apply in_app_or in Hin as [Hin|Hin]; [exact (inline_text_plain t Ht Hin)|].
    vm_compute in Hin. intuition discriminate.
Qed.

Lemma markdown_of_titled_blocks (t : jsstring) (texts : list jsstring) :
  inline_text t = true ->
  Forall (fun t => inline_text t = true) texts ->
  html_to_markdown (lit "<h1>" ++ t ++ lit "</h1>" ++ [NL] ++ paragraphs_html texts)
  = trim (squeeze_blank (lit "# " ++ t ++ [NL; NL] ++ blocks texts)).
Proof.
  intros Ht H. rewrite html_to_markdown_unfold. do 2 f_equal.
  assert (ptext (paragraphs_html texts)) as Hp.
  { apply paragraphs_ptext. eapply Forall_impl; [exact H|].
    intros x Hx. exact (inline_text_plain x Hx). }
  rewrite tag_steps_regroup. do 2 rewrite apply_steps_app.
  rewrite heading_steps_head.
  rewrite (apply_steps_cons (element_re "h1")).
  rewrite (h1_step_title t _ Ht Hp).
  pose proof (title_line_plain t Ht) as Hpre.
  assert (lit "# " ++ t ++ [NL; NL] ++ paragraphs_html texts
          = (lit "# " ++ t ++ [NL; NL]) ++ paragraphs_html texts) as ->
    by (rewrite <- !app_assoc; reflexivity).
  rewrite (apply_steps_misses _ _ minor_headings_miss
             (plain_ptext_app _ _ Hpre Hp)).
  rewrite (apply_steps_one (element_re "p") p_template). unfold replace.
  rewrite (replace_from_prefix _ _ p_guarded _ _ 0 Hpre).
  rewrite (p_step_blocks texts _ H).
  rewrite <- !app_assoc.
  apply apply_steps_guarded; [exact after_p_guarded|].
  intros Hin. rewrite !app_assoc in Hin. apply in_app_or in Hin as [Hin|Hin].
  - rewrite <- !app_assoc in Hin. exact (Hpre Hin).
  - exact (blocks_plain texts H Hin).
Qed.

End TitledMarkdown.

Section MarkdownContent.
Import JsString Regex ExportUtils ExportAux MarkdownAux.

Lemma inline_solid_inline (texts : list jsstring) :
  Forall (fun t => inline_text t = true /\ solid t = true) texts ->
  Forall (fun t => inline_text t = true) texts.
Proof. intros H. eapply Forall_impl; [exact H|]. intros t [Ht _]. exact Ht. Qed.

(** X7.  Without a title line, a document of paragraphs, each one line of
    text with no [<] that neither starts nor ends with white space, is
    exported as these lines with one empty line between them. *)
Theorem markdown_of_paragraphs (options : ExportOptions) (texts : list jsstring) :
  includeTitle options = false ->
  Forall (fun t => inline_text t = true /\ solid t = true) texts ->
  exportAsMarkdown options (paragraphs_html texts) = join_blank texts.
Proof.
  intros Ho H. unfold exportAsMarkdown, exportAsHTML. rewrite Ho.
  assert ((match title options with Some _ => paragraphs_html texts
           | None => paragraphs_html texts end) = paragraphs_html texts) as E
    by (destruct (title options); reflexivity).
  cbn [andb]. rewrite E.
  rewrite (markdown_of_blocks texts (inline_solid_inline texts H)).
  apply clean_blocks, H.
Qed.

Lemma markdown_of_paragraphs_witness :
  exportAsMarkdown {| title := Some (lit "Week 1"); includeTitle := false |}
    (paragraphs_html [lit "Week one was wild."; lit "Final score 3 > 2 & done"])
  = lit "Week one was wild." ++ [NL; NL] ++ lit "Final score 3 > 2 & done".
Proof.
  apply (markdown_of_paragraphs
           {| title := Some (lit "Week 1"); includeTitle := false |}
           [lit "Week one was wild."; lit "Final score 3 > 2 & done"]).
  - reflexivity.
  - repeat constructor.
Defined.

(** X8.  Paragraphs of one line each, blank or padded ones included: the
    export is every line followed by an empty line, with runs of three
    and more line feeds squeezed to two and the ends trimmed. *)
Theorem markdown_of_paragraph_lines (options : ExportOptions) (texts : list jsstring) :
  includeTitle options = false ->
  Forall (fun t => inline_text t = true) texts ->
  exportAsMarkdown options (paragraphs_html texts)
  = trim (squeeze_blank (blocks texts)).
Proof.
  intros Ho H. unfold exportAsMarkdown, exportAsHTML. rewrite Ho.
  assert ((match title options with Some _ => paragraphs_html texts
           | None => paragraphs_html texts end) = paragraphs_html texts) as E
    by (destruct (title options); reflexivity).
  cbn [andb]. rewrite E. apply markdown_of_blocks, H.
Qed.

Lemma markdown_of_paragraph_lines_witness :
  exportAsMarkdown {| title := None; includeTitle := false |}
    (paragraphs_html [lit " padded "; []; lit "last"])
  = lit "padded " ++ [NL; NL] ++ lit "last".
Proof.
  rewrite (markdown_of_paragraph_lines {| title := None; includeTitle := false |}
             [lit " padded "; []; lit "last"]).
  - vm_compute. reflexivity.
  - reflexivity.
  - repeat constructor.
Defined.

Lemma solid_title_line (t : jsstring) :
  inline_text t = true -> solid t = true ->
  inline_text (lit "# " ++ t) = true /\ solid (lit "# " ++ t) = true.
Proof.
  intros Hi Hs. split; [exact Hi|].
  destruct (solid_last t Hs) as (b & Hb & Hb').
  unfold solid. rewrite (last_app_some (lit "# ") t b Hb), Hb'. reflexivity.
Qed.

(** X9.  With the title line, as the editor's export menu asks for it: the
    title comes first as a level-one heading, an empty line after it,
    then the paragraphs with one empty line between them. *)
Theorem markdown_of_titled_paragraphs (options : ExportOptions) (t : jsstring)
    (texts : list jsstring) :
  title options = Some t -> includeTitle options = true ->
  inline_text t = true -> solid t = true ->
  Forall (fun x => inline_text x = true /\ solid x = true) texts ->
  exportAsMarkdown options (paragraphs_html texts)
  = join_blank ((lit "# " ++ t) :: texts).
Proof.
  intros Et Ei Hi Hs H. unfold exportAsMarkdown, exportAsHTML. rewrite Et, Ei.
  destruct (solid_cons t Hs) as (c & u & -> & _). cbn [andb truthy].
  rewrite (markdown_of_titled_blocks (c :: u) texts Hi (inline_solid_inline texts H)).
  assert (lit "# " ++ (c :: u) ++ [NL; NL] ++ blocks texts
          = blocks ((lit "# " ++ c :: u) :: texts)) as ->.
  { unfold blocks. cbn [map concat]. rewrite <- !app_assoc. reflexivity. }
  apply clean_blocks. constructor; [|exact H].
  apply solid_title_line; assumption.
Qed.

Lemma markdown_of_titled_paragraphs_witness :
  exportAsMarkdown {| title := Some (lit "Week 1"); includeTitle := true |}
    (paragraphs_html [lit "Week one was wild."; lit "Final score 3 > 2 & done"])
  = lit "# Week 1" ++ [NL; NL] ++ lit "Week one was wild."
    ++ [NL; NL] ++ lit "Final score 3 > 2 & done".
Proof.
  apply (markdown_of_titled_paragraphs
           {| title := Some (lit "Week 1"); includeTitle := true |} (lit "Week 1")
           [lit "Week one was wild."; lit "Final score 3 > 2 & done"]);
    try reflexivity.
  repeat constructor.
Defined.

End MarkdownContent.

(** ** The Markdown of a document of headings, paragraphs and lists *)

Section TokenText.
Import JsString Regex ExportUtils ExportAux MarkdownAux MarkdownDoc.

Lemma ttext_app (ok : jsstring -> bool) (a b : jsstring) :
  ttext ok a -> ttext ok b -> ttext ok (a ++ b).
Proof.
  induction 1 as [|c s Hc Hs IH|w s Hw Hs IH]; intros Hb.
  - exact Hb.
  - rewrite <- app_comm_cons. apply tt_char; [exact Hc|exact (IH Hb)].
  - rewrite <- app_assoc. apply tt_token; [exact Hw|exact (IH Hb)].
Qed.

Lemma ttext_plain (ok : jsstring -> bool) (t : jsstring) : ~ In LT_ t -> ttext ok t.
Proof.
  induction t as [|c t IH]; intros H; [constructor|].
  apply tt_char.
  - intros ->. apply H. now left.
  - apply IH. intros Hin. apply H. now right.
Qed.

Lemma ttext_token (ok : jsstring -> bool) (w : jsstring) : ok w = true -> ttext ok w.
Proof.
  intros H. rewrite <- (app_nil_r w). apply tt_token; [exact H|constructor].
Qed.

Lemma ttext_element (ok : jsstring -> bool) (tag : string) (inner : jsstring) :
  ok (opening tag) = true -> ok (closing tag) = true -> ttext ok inner ->
  ttext ok (element tag inner).
Proof.
  intros Ho Hc Hi. unfold element.
  apply tt_token; [exact Ho|]. apply ttext_app; [exact Hi|].
  apply ttext_token, Hc.
Qed.

Lemma ttext_concat (ok : jsstring -> bool) (l : list jsstring) :
  Forall (ttext ok) l -> ttext ok (concat l).
Proof.
  induction 1 as [|a l Ha _ IH]; [constructor|].
  cbn [concat]. apply ttext_app; assumption.
Qed.

Lemma exec_misses (re : regex) (idx : nat) (w s : jsstring) :
  misses re w = true -> exec_at re idx (w ++ s) = None.
Proof.
  unfold misses, exec_at. induction (re_alts re) as [|ns alts IH]; intros H.
  - reflexivity.
  - cbn [forallb] in H. apply andb_prop in H as [Ha Hb].
    cbn [m_alts]. rewrite (mismatch_none _ idx ns w s m_init Ha). exact (IH Hb).
Qed.

Lemma quiet_tail_plain (c : char) (w : jsstring) :
  quiet_tail (c :: w) = true -> ~ In LT_ w.
Proof.
  unfold quiet_tail. cbn [tail]. intros H Hin.
  rewrite forallb_forall in H. specialize (H _ Hin).
  rewrite N.eqb_refl in H. discriminate.
Qed.

(** The substitution copies text whose tokens the pattern misses. *)
Lemma replace_over (re : regex) (tmpl : list piece) :
  lt_guarded re = true ->
  forall s : jsstring,
    ttext (skipped re) s ->
    forall (rest : jsstring) (idx : nat),
      replace_from re tmpl idx 0 (s ++ rest)
      = s ++ replace_from re tmpl (idx + length s) 0 rest.
Proof.
  intros Hg s Hs. induction Hs as [|c s Hc Hs IH|w s Hw Hs IH]; intros rest idx.
  - cbn [app length]. rewrite Nat.add_0_r. reflexivity.
  - rewrite <- app_comm_cons. rewrite replace_from_miss.
    + rewrite IH. cbn [length].
      replace (idx + S (length s)) with (S idx + length s) by lia. reflexivity.
    + apply exec_guarded; [exact Hg|]. cbn. intros [= E]. exact (Hc E).
  - unfold skipped in Hw. apply andb_prop in Hw as [Hm Hq]. destruct w as [|c w].
    + cbn [app length]. apply IH.
    + pose proof (exec_misses re idx (c :: w) (s ++ rest) Hm) as E.
      rewrite <- app_assoc. rewrite <- app_comm_cons in *.
      rewrite (replace_from_miss _ _ _ _ _ E).
      rewrite (replace_from_prefix _ _ Hg w _ _ (quiet_tail_plain c w Hq)).
      rewrite IH. rewrite <- app_assoc, length_app. cbn [length].
      replace (idx + (S (length w) + length s)) with (S idx + length w + length s) by lia.
      reflexivity.
Qed.

Lemma m_nodes_open (ic : bool) (idx g : nat) (ns : list node) (rest : jsstring)
    (st : mstate) :
  m_nodes ic idx (Open g :: ns) rest st = m_nodes ic idx ns rest (open_group g st).
Proof. reflexivity. Qed.

Lemma m_nodes_close (ic : bool) (idx g : nat) (ns : list node) (rest : jsstring)
    (st : mstate) :
  m_nodes ic idx (Close g :: ns) rest st = m_nodes ic idx ns rest (close_group g st).
Proof. reflexivity. Qed.

Lemma accepts_same (ic : bool) (c : char) : accepts ic (Chr c) c = true.
Proof. cbn [accepts]. apply N.eqb_refl. Qed.

(** A literal matches itself. *)
Lemma m_nodes_lits (idx : nat) (ns : list node) :
  forall (w s : jsstring) (st : mstate),
    m_nodes true idx (lits w ++ ns) (w ++ s) st
    = m_nodes true idx ns s (shift (length w) st).
Proof.
  induction w as [|c w IH]; intros s st.
  - cbn [lits map app length]. rewrite shift_0. reflexivity.
  - unfold lits. cbn [map]. fold (lits w). rewrite <- !app_comm_cons.
    rewrite m_nodes_one, accepts_same, IH, shift_advance. reflexivity.
Qed.

(** The lazy group takes one more character when what follows it in the
    pattern does not match yet. *)
Lemma lazy_more (idx : nat) (ns : list node) (c : char) (s : jsstring) (st : mstate) :
  m_nodes true idx ns (c :: s) st = None -> is_line_terminator c = false ->
  m_nodes true idx (Many false 0 Dot :: ns) (c :: s) st
  = m_nodes true idx (Many false 0 Dot :: ns) s (advance st).
Proof.
  intros E Hc. rewrite (m_nodes_many true idx false 0 Dot ns (c :: s) st).
  rewrite E. cbn [accepts]. rewrite Hc. reflexivity.
Qed.

Lemma closing_guarded (idx g : nat) (cl : jsstring) (c : char) (s : jsstring)
    (st : mstate) :
  head cl = Some LT_ -> c <> LT_ ->
  m_nodes true idx (Close g :: lits cl) (c :: s) st = None.
Proof.
  intros Hcl Hc. destruct cl as [|a cl]; [discriminate|]. injection Hcl as ->.
  rewrite m_nodes_close. unfold lits. cbn [map]. rewrite m_nodes_one, accepts_lt.
  destruct (N.eqb_spec LT_ c) as [E|]; [|reflexivity]. exfalso. exact (Hc (eq_sym E)).
Qed.

Lemma lazy_plain (idx g : nat) (cl : jsstring) :
  head cl = Some LT_ ->
  forall (w s : jsstring) (st : mstate),
    ~ In LT_ w -> one_line w = true ->
    m_nodes true idx (Many false 0 Dot :: Close g :: lits cl) (w ++ s) st
    = m_nodes true idx (Many false 0 Dot :: Close g :: lits cl) s (shift (length w) st).
Proof.
  intros Hcl. induction w as [|c w IH]; intros s st Hw Hl.
  - cbn [app length]. rewrite shift_0. reflexivity.
  - cbn [one_line forallb] in Hl. apply andb_prop in Hl as [Hc Hl].
    apply negb_true_iff in Hc. rewrite <- app_comm_cons.
    rewrite lazy_more.
    + rewrite IH; [|intros Hin; apply Hw; now right|exact Hl].
      rewrite shift_advance. reflexivity.
    + apply closing_guarded; [exact Hcl|]. intros ->. apply Hw. now left.
    + exact Hc.
Qed.

(** The lazy group runs over one line of text whose tokens differ from
    the closing tag. *)
Lemma lazy_run (idx g : nat) (cl : jsstring) :
  head cl = Some LT_ ->
  forall s : jsstring,
    ttext (fun w => mismatch true (lits cl) w && quiet_tail w) s ->
    one_line s = true ->
    forall (rest : jsstring) (st : mstate),
      m_nodes true idx (Many false 0 Dot :: Close g :: lits cl) (s ++ rest) st
      = m_nodes true idx (Many false 0 Dot :: Close g :: lits cl) rest
          (shift (length s) st).
Proof.
  intros Hcl s Hs. induction Hs as [|c s Hc Hs IH|w s Hw Hs IH]; intros Hl rest st.
  - cbn [app length]. rewrite shift_0. reflexivity.
  - cbn [one_line forallb] in Hl. apply andb_prop in Hl as [Hn Hl].
    apply negb_true_iff in Hn. rewrite <- app_comm_cons.
    rewrite lazy_more; [|apply closing_guarded; assumption|exact Hn].
    rewrite (IH Hl). rewrite shift_advance. reflexivity.
  - apply andb_prop in Hw as [Hm Hq]. unfold one_line in Hl.
    rewrite forallb_app in Hl. apply andb_prop in Hl as [Hlw Hls].
    destruct w as [|c w]; [cbn [app length]; exact (IH Hls rest st)|].
    cbn [forallb] in Hlw. apply andb_prop in Hlw as [Hn Hlw].
    apply negb_true_iff in Hn.
    rewrite <- app_assoc, <- app_comm_cons.
    rewrite lazy_more.
    + rewrite (lazy_plain idx g cl Hcl w _ _ (quiet_tail_plain c w Hq) Hlw).
      rewrite (IH Hls). rewrite shift_advance.
      unfold shift. cbn [m_pos m_open m_caps]. rewrite length_app. cbn [length].
      f_equal. f_equal. lia.
    + rewrite m_nodes_close. rewrite app_comm_cons.
      apply mismatch_none. exact Hm.
    + exact Hn.
Qed.

End TokenText.

Section ElementMatch.
Import JsString Regex ExportUtils ExportAux MarkdownAux MarkdownDoc.

Lemma element_re_nodes (tag : string) :
  re_alts (element_re tag)
  = [ lits (lit "<" ++ lit tag)
        ++ Many true 0 (NotIn [(GT_, GT_)]) :: One (Chr GT_) :: Open 1
           :: Many false 0 Dot :: Close 1 :: lits (closing tag) ].
Proof.
  unfold element_re, chars, group, star, lazy_star, not_chr, lits, closing.
  cbn [re_alts]. f_equal. rewrite !map_app. rewrite <- !app_assoc. reflexivity.
Qed.

Lemma element_re_guarded (tag : string) : lt_guarded (element_re tag) = true.
Proof. reflexivity. Qed.

Lemma element_split (tag : string) (inner rest : jsstring) :
  element tag inner ++ rest
  = (lit "<" ++ lit tag) ++ GT_ :: inner ++ closing tag ++ rest.
Proof. unfold element, opening. rewrite <- !app_assoc. reflexivity. Qed.

Lemma opening_length (tag : string) :
  length (opening tag) = S (length (lit "<" ++ lit tag)).
Proof. unfold opening. rewrite !length_app. cbn [length lit]. simpl. lia. Qed.

Lemma element_length (tag : string) (inner : jsstring) :
  length (element tag inner)
  = length (opening tag) + length inner + length (closing tag).
Proof. unfold element. rewrite !length_app. lia. Qed.

(** The pattern of [tag] matches [<tag>inner</tag>] when [inner] is one
    line in which no closing tag of [tag] starts. *)
Lemma exec_element (tag : string) (idx : nat) (inner rest : jsstring) :
  ttext (passed_by tag) inner -> one_line inner = true ->
  exec_at (element_re tag) idx (element tag inner ++ rest)
  = Some (matched tag (length inner)).
Proof.
  intros Hi Hl. unfold exec_at. rewrite element_re_nodes.
  change (re_ignoreCase (element_re tag)) with true. cbn [m_alts].
  rewrite element_split, m_nodes_lits.
  rewrite m_nodes_many.
  assert (accepts true (NotIn [(GT_, GT_)]) GT_ = false) as -> by reflexivity.
  rewrite m_nodes_one, accepts_same, m_nodes_open.
  rewrite (lazy_run idx 1 (closing tag) eq_refl inner Hi Hl).
  rewrite m_nodes_many, m_nodes_close.
  rewrite <- (app_nil_r (lits (closing tag))), m_nodes_lits. cbn [m_nodes].
  f_equal. unfold matched, shift, close_group, open_group, advance, m_init.
  cbn [m_pos m_open m_caps assoc Nat.eqb]. rewrite opening_length.
  f_equal; repeat f_equal; lia.
Qed.

Lemma group_text_element (tag : string) (inner rest : jsstring) :
  group_text (element tag inner ++ rest) (matched tag (length inner)) 1 = inner.
Proof.
  unfold group_text, matched. cbn [m_caps assoc Nat.eqb].
  replace (length (opening tag) + length inner - length (opening tag))
    with (length inner) by lia.
  unfold element. rewrite <- !app_assoc, drop_app_length, take_app_length.
  reflexivity.
Qed.

(** The substitution on an element that its pattern matches. *)
Lemma replace_element (tag : string) (tmpl : list piece) (idx : nat)
    (inner rest : jsstring) :
  ttext (passed_by tag) inner -> one_line inner = true ->
  replace_from (element_re tag) tmpl idx 0 (element tag inner ++ rest)
  = expand tmpl (element tag inner ++ rest) (matched tag (length inner))
    ++ replace_from (element_re tag) tmpl (idx + length (element tag inner)) 0 rest.
Proof.
  intros Hi Hl. pose proof (exec_element tag idx inner rest Hi Hl) as E.
  rewrite (replace_from_hit _ _ _ _ _ E).
  - assert (m_pos (matched tag (length inner)) = length (element tag inner)) as ->
      by (rewrite element_length; reflexivity).
    rewrite drop_app_length. reflexivity.
  - unfold matched. cbn [m_pos]. rewrite opening_length. lia.
Qed.

Lemma expand_kind (k : kind) (inner rest : jsstring) :
  expand (kind_template k) (element (kind_tag k) inner ++ rest)
    (matched (kind_tag k) (length inner))
  = kind_mark k ++ inner ++ kind_gap k.
Proof.
  destruct k; cbn [kind_template expand]; rewrite group_text_element;
    rewrite ?app_nil_r; reflexivity.
Qed.

Lemma expand_style (s : style) (inner rest : jsstring) :
  expand (style_template s) (element (style_tag s) inner ++ rest)
    (matched (style_tag s) (length inner))
  = style_mark s ++ inner ++ style_mark s.
Proof.
  unfold style_template. cbn [expand]. rewrite group_text_element, app_nil_r.
  reflexivity.
Qed.

End ElementMatch.

Section Tokens.
Import JsString Regex ExportUtils ExportAux MarkdownAux MarkdownDoc.

Lemma kind_eqb_eq (a b : kind) : kind_eqb a b = true -> a = b.
Proof. destruct a, b; (reflexivity || discriminate). Qed.

Lemma kind_eqb_refl (a : kind) : kind_eqb a a = true.
Proof. destruct a; reflexivity. Qed.

Lemma style_eqb_eq (a b : style) : style_eqb a b = true -> a = b.
Proof. destruct a, b; (reflexivity || discriminate). Qed.

Lemma style_eqb_refl (a : style) : style_eqb a a = true.
Proof. destruct a; reflexivity. Qed.

Lemma wrapper_eqb_eq (a b : wrapper) : wrapper_eqb a b = true -> a = b.
Proof. destruct a, b; (reflexivity || discriminate). Qed.

Lemma wrapper_eqb_refl (a : wrapper) : wrapper_eqb a a = true.
Proof. destruct a; reflexivity. Qed.

(** The pattern of one kind starts at the tags of no other kind, of no
    style and of no list. *)
Lemma kind_skips_kind (j k : kind) :
  kind_eqb j k = false ->
  skipped (element_re (kind_tag k)) (opening (kind_tag j)) = true
  /\ skipped (element_re (kind_tag k)) (closing (kind_tag j)) = true.
Proof. destruct j, k; intros H; try discriminate H; split; vm_compute; reflexivity. Qed.

Lemma kind_skips_style (k : kind) (s : style) :
  skipped (element_re (kind_tag k)) (opening (style_tag s)) = true
  /\ skipped (element_re (kind_tag k)) (closing (style_tag s)) = true.
Proof. destruct k, s; split; vm_compute; reflexivity. Qed.

Lemma kind_skips_wrapper (k : kind) (w : wrapper) :
  skipped (element_re (kind_tag k)) (wrapper_html w) = true.
Proof. destruct k, w; vm_compute; reflexivity. Qed.

(** The same for the pattern of a style. *)
Lemma style_skips_kind (s : style) (k : kind) :
  skipped (element_re (style_tag s)) (opening (kind_tag k)) = true
  /\ skipped (element_re (style_tag s)) (closing (kind_tag k)) = true.
Proof. destruct k, s; split; vm_compute; reflexivity. Qed.

Lemma style_skips_style (j s : style) :
  style_eqb j s = false ->
  skipped (element_re (style_tag s)) (opening (style_tag j)) = true
  /\ skipped (element_re (style_tag s)) (closing (style_tag j)) = true.
Proof. destruct j, s; intros H; try discriminate H; split; vm_compute; reflexivity. Qed.

Lemma style_skips_wrapper (s : style) (w : wrapper) :
  skipped (element_re (style_tag s)) (wrapper_html w) = true.
Proof. destruct s, w; vm_compute; reflexivity. Qed.

(** The same for the pattern of a list tag. *)
Lemma wrapper_skips_kind (w : wrapper) (k : kind) :
  skipped (fst (wrapper_step w)) (opening (kind_tag k)) = true
  /\ skipped (fst (wrapper_step w)) (closing (kind_tag k)) = true.
Proof. destruct k, w; split; vm_compute; reflexivity. Qed.

Lemma wrapper_skips_style (w : wrapper) (s : style) :
  skipped (fst (wrapper_step w)) (opening (style_tag s)) = true
  /\ skipped (fst (wrapper_step w)) (closing (style_tag s)) = true.
Proof. destruct s, w; split; vm_compute; reflexivity. Qed.

Lemma wrapper_skips_wrapper (j w : wrapper) :
  wrapper_eqb j w = false -> skipped (fst (wrapper_step w)) (wrapper_html j) = true.
Proof. destruct j, w; intros H; try discriminate H; vm_compute; reflexivity. Qed.

Lemma wrapper_step_guarded (w : wrapper) : lt_guarded (fst (wrapper_step w)) = true.
Proof. destruct w; reflexivity. Qed.

(** The lazy group of a block runs over the tags of the styles. *)
Lemma kind_passes_style (k : kind) (s : style) :
  passed_by (kind_tag k) (opening (style_tag s)) = true
  /\ passed_by (kind_tag k) (closing (style_tag s)) = true.
Proof. destruct k, s; split; vm_compute; reflexivity. Qed.

Lemma style_mark_plain (s : style) : ~ In LT_ (style_mark s).
Proof. destruct s; vm_compute; intuition discriminate. Qed.

Lemma kind_mark_plain (k : kind) : ~ In LT_ (kind_mark k).
Proof. destruct k; vm_compute; intuition discriminate. Qed.

Lemma kind_gap_plain (k : kind) : ~ In LT_ (kind_gap k).
Proof. destruct k; vm_compute; intuition discriminate. Qed.

Lemma wrapper_markdown_plain (w : wrapper) : ~ In LT_ (wrapper_markdown w).
Proof. destruct w; vm_compute; intuition discriminate. Qed.

Lemma plain_app (a b : jsstring) : ~ In LT_ a -> ~ In LT_ b -> ~ In LT_ (a ++ b).
Proof. intros Ha Hb H. apply in_app_or in H as [H|H]; auto. Qed.

Lemma one_line_app (a b : jsstring) :
  one_line a = true -> one_line b = true -> one_line (a ++ b) = true.
Proof. unfold one_line. rewrite forallb_app. intros -> ->. reflexivity. Qed.

Lemma inline_one_line (t : jsstring) : inline_text t = true -> one_line t = true.
Proof.
  unfold inline_text, one_line. rewrite !forallb_forall. intros H c Hc.
  specialize (H c Hc). apply andb_prop in H as [_ H]. exact H.
Qed.

Lemma style_tokens_one_line (s : style) :
  one_line (opening (style_tag s)) = true /\ one_line (closing (style_tag s)) = true
  /\ one_line (style_mark s) = true.
Proof. destruct s; repeat split; vm_compute; reflexivity. Qed.

Lemma span_one_line (sd : style -> bool) (sp : span) :
  inline_text (span_text sp) = true -> one_line (span_at sd sp) = true.
Proof.
  destruct sp as [t|s t]; cbn [span_text span_at]; intros H.
  - exact (inline_one_line t H).
  - destruct (style_tokens_one_line s) as (Ho & Hc & Hm).
    destruct (sd s).
    + apply one_line_app; [exact Hm|].
      apply one_line_app; [exact (inline_one_line t H)|exact Hm].
    + unfold element. apply one_line_app; [exact Ho|].
      apply one_line_app; [exact (inline_one_line t H)|exact Hc].
Qed.

Lemma inner_one_line (sd : style -> bool) (spans : list span) :
  spans_ok spans = true -> one_line (inner_at sd spans) = true.
Proof.
  unfold spans_ok, inner_at. induction spans as [|sp spans IH]; [reflexivity|].
  cbn [forallb map concat]. intros H. apply andb_prop in H as [Ha Hb].
  apply one_line_app; [exact (span_one_line sd sp Ha)|exact (IH Hb)].
Qed.

(** A span is text for [ok] when [ok] accepts the tags of the styles
    that are still elements. *)
Lemma span_ttext (ok : jsstring -> bool) (sd : style -> bool) (sp : span) :
  (forall s, ok (opening (style_tag s)) = true /\ ok (closing (style_tag s)) = true) ->
  inline_text (span_text sp) = true -> ttext ok (span_at sd sp).
Proof.
  intros Hok. destruct sp as [t|s t]; cbn [span_text span_at]; intros H.
  - apply ttext_plain, inline_text_plain, H.
  - destruct (sd s) eqn:Es.
    + apply ttext_plain. apply plain_app; [apply style_mark_plain|].
      apply plain_app; [exact (inline_text_plain t H)|apply style_mark_plain].
    + destruct (Hok s) as [Ho Hc].
      apply ttext_element; [exact Ho|exact Hc|].
      apply ttext_plain, inline_text_plain, H.
Qed.

Lemma inner_ttext (ok : jsstring -> bool) (sd : style -> bool) (spans : list span) :
  (forall s, ok (opening (style_tag s)) = true /\ ok (closing (style_tag s)) = true) ->
  spans_ok spans = true -> ttext ok (inner_at sd spans).
Proof.
  intros Hok. unfold spans_ok, inner_at.
  induction spans as [|sp spans IH]; [constructor|].
  cbn [forallb map concat]. intros H. apply andb_prop in H as [Ha Hb].
  apply ttext_app; [exact (span_ttext ok sd sp Hok Ha)|exact (IH Hb)].
Qed.

Lemma element_at (bd : kind -> bool) (sd : style -> bool) (wd : wrapper -> bool)
    (k : kind) (spans : list span) :
  block_at bd sd wd (Element k spans)
  = block_front bd k ++ inner_at sd spans ++ block_back bd k.
Proof.
  unfold block_at, block_front, block_back, element. destruct (bd k); reflexivity.
Qed.

Lemma front_back_ttext (ok : jsstring -> bool) (bd : kind -> bool) (k : kind) :
  ok (opening (kind_tag k)) = true /\ ok (closing (kind_tag k)) = true ->
  ttext ok (block_front bd k) /\ ttext ok (block_back bd k).
Proof.
  intros [Ho Hc]. unfold block_front, block_back. destruct (bd k).
  - split; apply ttext_plain; [apply kind_mark_plain|apply kind_gap_plain].
  - split; apply ttext_token; assumption.
Qed.

Lemma wrapper_ttext (ok : jsstring -> bool) (wd : wrapper -> bool) (w : wrapper) :
  ok (wrapper_html w) = true ->
  ttext ok (if wd w then wrapper_markdown w else wrapper_html w).
Proof.
  intros H. destruct (wd w).
  - apply ttext_plain, wrapper_markdown_plain.
  - apply ttext_token, H.
Qed.

End Tokens.

Section DocumentSteps.
Import JsString Regex ExportUtils ExportAux MarkdownAux MarkdownDoc.

Lemma doc_at_cons (bd : kind -> bool) (sd : style -> bool) (wd : wrapper -> bool)
    (b : block) (doc : list block) :
  doc_at bd sd wd (b :: doc) = block_at bd sd wd b ++ doc_at bd sd wd doc.
Proof. reflexivity. Qed.

Lemma inner_at_cons (sd : style -> bool) (sp : span) (spans : list span) :
  inner_at sd (sp :: spans) = span_at sd sp ++ inner_at sd spans.
Proof. reflexivity. Qed.

Lemma blocks_ok_cons (b : block) (doc : list block) :
  blocks_ok (b :: doc) = true -> block_ok b = true /\ blocks_ok doc = true.
Proof. unfold blocks_ok. cbn [forallb]. intros H. apply andb_prop in H. exact H. Qed.

(** A block that is no element of kind [k] is text that the pattern of
    [k] copies, and the step of [k] leaves it as it is. *)
Lemma block_skipped_by_kind (k : kind) (bd : kind -> bool) (sd : style -> bool)
    (wd : wrapper -> bool) (b : block) :
  match b with Element j _ => kind_eqb j k | Wrapper _ => false end = false ->
  block_ok b = true ->
  ttext (skipped (element_re (kind_tag k))) (block_at bd sd wd b)
  /\ block_at (with_kind bd k) sd wd b = block_at bd sd wd b.
Proof.
  destruct b as [j spans|w]; intros E Hb.
  - split.
    + rewrite element_at.
      destruct (front_back_ttext (skipped (element_re (kind_tag k))) bd j
                  (kind_skips_kind j k E)) as [Hf Hk].
      apply ttext_app; [exact Hf|]. apply ttext_app; [|exact Hk].
      apply inner_ttext; [|exact Hb]. intros s. apply kind_skips_style.
    + unfold block_at, with_kind. rewrite E. reflexivity.
  - split; [|reflexivity]. apply wrapper_ttext, kind_skips_wrapper.
Qed.

(** The step of [k] on a document: the blocks of kind [k] become lines. *)
Lemma kind_step_doc (k : kind) (bd : kind -> bool) (sd : style -> bool)
    (wd : wrapper -> bool) :
  bd k = false ->
  forall doc : list block,
    blocks_ok doc = true ->
    forall idx : nat,
      replace_from (element_re (kind_tag k)) (kind_template k) idx 0
        (doc_at bd sd wd doc)
      = doc_at (with_kind bd k) sd wd doc.
Proof.
  intros Hk. induction doc as [|b doc IH]; intros Hd idx.
  - apply replace_from_nil, exec_guarded; [apply element_re_guarded|discriminate].
  - apply blocks_ok_cons in Hd as [Hb Hd]. rewrite !doc_at_cons.
    destruct (match b with Element j _ => kind_eqb j k | Wrapper _ => false end) eqn:E.
    + destruct b as [j spans|w]; [|discriminate]. apply kind_eqb_eq in E. subst j.
      unfold block_at, with_kind. rewrite Hk, kind_eqb_refl. cbn [orb].
      rewrite replace_element.
      * rewrite expand_kind, (IH Hd). rewrite <- !app_assoc. reflexivity.
      * apply inner_ttext; [|exact Hb]. intros s. apply kind_passes_style.
      * apply inner_one_line, Hb.
    + destruct (block_skipped_by_kind k bd sd wd b E Hb) as [Ht ->].
      rewrite (replace_over _ _ (element_re_guarded (kind_tag k)) _ Ht).
      rewrite (IH Hd). reflexivity.
Qed.

Lemma kind_step_run (k : kind) (pre : jsstring) (bd : kind -> bool)
    (sd : style -> bool) (wd : wrapper -> bool) (doc : list block) :
  ~ In LT_ pre -> bd k = false -> blocks_ok doc = true ->
  replace (fst (kind_step k)) (snd (kind_step k)) (pre ++ doc_at bd sd wd doc)
  = pre ++ doc_at (with_kind bd k) sd wd doc.
Proof.
  intros Hp Hk Hd. unfold replace, kind_step. cbn [fst snd].
  rewrite (replace_from_prefix _ _ (element_re_guarded (kind_tag k)) pre _ 0 Hp).
  rewrite (kind_step_doc k bd sd wd Hk doc Hd). reflexivity.
Qed.

(** A span of another style is text that the pattern of [s] copies. *)
Lemma span_skipped (s : style) (sd : style -> bool) (sp : span) :
  match sp with Plain _ => true | Styled j _ => negb (style_eqb j s) end = true ->
  inline_text (span_text sp) = true ->
  ttext (skipped (element_re (style_tag s))) (span_at sd sp)
  /\ span_at (with_style sd s) sp = span_at sd sp.
Proof.
  destruct sp as [t|j t]; cbn [span_text span_at]; intros E H.
  - split; [|reflexivity]. apply ttext_plain, inline_text_plain, H.
  - apply negb_true_iff in E. unfold with_style. rewrite E. cbn [orb].
    split; [|reflexivity]. destruct (sd j).
    + apply ttext_plain. apply plain_app; [apply style_mark_plain|].
      apply plain_app; [exact (inline_text_plain t H)|apply style_mark_plain].
    + destruct (style_skips_style j s E) as [Ho Hc].
      apply ttext_element; [exact Ho|exact Hc|].
      apply ttext_plain, inline_text_plain, H.
Qed.

(** The step of [s] on the text of a block. *)
Lemma style_step_inner (s : style) (sd : style -> bool) :
  sd s = false ->
  forall spans : list span,
    spans_ok spans = true ->
    forall (rest : jsstring) (idx : nat),
      replace_from (element_re (style_tag s)) (style_template s) idx 0
        (inner_at sd spans ++ rest)
      = inner_at (with_style sd s) spans
        ++ replace_from (element_re (style_tag s)) (style_template s)
             (idx + length (inner_at sd spans)) 0 rest.
Proof.
  intros Hs. induction spans as [|sp spans IH]; intros Hok rest idx.
  - cbn [inner_at map concat app length]. rewrite Nat.add_0_r. reflexivity.
  - unfold spans_ok in Hok. cbn [forallb] in Hok. apply andb_prop in Hok as [Ha Hb].
    rewrite !inner_at_cons, <- !app_assoc, length_app.
    destruct (match sp with Plain _ => true | Styled j _ => negb (style_eqb j s) end)
      eqn:E.
    + destruct (span_skipped s sd sp E Ha) as [Ht ->].
      rewrite (replace_over _ _ (element_re_guarded (style_tag s)) _ Ht).
      rewrite (IH Hb). rewrite Nat.add_assoc. reflexivity.
    + destruct sp as [t|j t]; [discriminate|]. apply negb_false_iff in E.
      apply style_eqb_eq in E. subst j. cbn [span_text] in Ha.
      cbn [span_at]. unfold with_style at 1. rewrite Hs, style_eqb_refl. cbn [orb].
      rewrite replace_element.
      * rewrite expand_style, (IH Hb). rewrite <- !app_assoc, Nat.add_assoc.
        reflexivity.
      * apply ttext_plain, inline_text_plain, Ha.
      * apply inline_one_line, Ha.
Qed.

Lemma style_step_doc (s : style) (bd : kind -> bool) (sd : style -> bool)
    (wd : wrapper -> bool) :
  sd s = false ->
  forall doc : list block,
    blocks_ok doc = true ->
    forall idx : nat,
      replace_from (element_re (style_tag s)) (style_template s) idx 0
        (doc_at bd sd wd doc)
      = doc_at bd (with_style sd s) wd doc.
Proof.
  intros Hs. induction doc as [|b doc IH]; intros Hd idx.
  - apply replace_from_nil, exec_guarded; [apply element_re_guarded|discriminate].
  - apply blocks_ok_cons in Hd as [Hb Hd]. rewrite !doc_at_cons.
    destruct b as [k spans|w].
    + rewrite !element_at, <- !app_assoc.
      destruct (front_back_ttext (skipped (element_re (style_tag s))) bd k
                  (style_skips_kind s k)) as [Hf Hk].
      rewrite (replace_over _ _ (element_re_guarded (style_tag s)) _ Hf).
      rewrite (style_step_inner s sd Hs _ Hb).
      rewrite (replace_over _ _ (element_re_guarded (style_tag s)) _ Hk).
      rewrite (IH Hd). reflexivity.
    + cbn [block_at].
      rewrite (replace_over _ _ (element_re_guarded (style_tag s)) _
                 (wrapper_ttext _ wd w (style_skips_wrapper s w))).
      rewrite (IH Hd). reflexivity.
Qed.

Lemma style_step_run (s : style) (pre : jsstring) (bd : kind -> bool)
    (sd : style -> bool) (wd : wrapper -> bool) (doc : list block) :
  ~ In LT_ pre -> sd s = false -> blocks_ok doc = true ->
  replace (fst (style_step s)) (snd (style_step s)) (pre ++ doc_at bd sd wd doc)
  = pre ++ doc_at bd (with_style sd s) wd doc.
Proof.
  intros Hp Hs Hd. unfold replace, style_step. cbn [fst snd].
  rewrite (replace_from_prefix _ _ (element_re_guarded (style_tag s)) pre _ 0 Hp).
  rewrite (style_step_doc s bd sd wd Hs doc Hd). reflexivity.
Qed.

Lemma exec_wrapper (w : wrapper) (idx : nat) (rest : jsstring) :
  exec_at (fst (wrapper_step w)) idx (wrapper_html w ++ rest)
  = Some {| m_pos := length (wrapper_html w); m_open := []; m_caps := [] |}.
Proof. destruct w; reflexivity. Qed.

(** The substitution of a list tag on that tag. *)
Lemma replace_wrapper (w : wrapper) (idx : nat) (rest : jsstring) :
  replace_from (fst (wrapper_step w)) (snd (wrapper_step w)) idx 0
    (wrapper_html w ++ rest)
  = wrapper_markdown w
    ++ replace_from (fst (wrapper_step w)) (snd (wrapper_step w))
         (idx + length (wrapper_html w)) 0 rest.
Proof.
  rewrite (replace_from_hit _ _ _ _ _ (exec_wrapper w idx rest)).
  - cbn [m_pos]. rewrite drop_app_length. f_equal. destruct w; reflexivity.
  - destruct w; cbn; lia.
Qed.

Lemma block_skipped_by_wrapper (w : wrapper) (bd : kind -> bool) (sd : style -> bool)
    (wd : wrapper -> bool) (b : block) :
  match b with Element _ _ => false | Wrapper j => wrapper_eqb j w end = false ->
  block_ok b = true ->
  ttext (skipped (fst (wrapper_step w))) (block_at bd sd wd b)
  /\ block_at bd sd (with_wrapper wd w) b = block_at bd sd wd b.
Proof.
  destruct b as [k spans|j]; intros E Hb.
  - split; [|reflexivity]. rewrite element_at.
    destruct (front_back_ttext (skipped (fst (wrapper_step w))) bd k
                (wrapper_skips_kind w k)) as [Hf Hk].
    apply ttext_app; [exact Hf|]. apply ttext_app; [|exact Hk].
    apply inner_ttext; [|exact Hb]. intros s. apply wrapper_skips_style.
  - split.
    + apply wrapper_ttext, wrapper_skips_wrapper, E.
    + unfold block_at, with_wrapper. rewrite E. reflexivity.
Qed.

Lemma wrapper_step_doc (w : wrapper) (bd : kind -> bool) (sd : style -> bool)
    (wd : wrapper -> bool) :
  wd w = false ->
  forall doc : list block,
    blocks_ok doc = true ->
    forall idx : nat,
      replace_from (fst (wrapper_step w)) (snd (wrapper_step w)) idx 0
        (doc_at bd sd wd doc)
      = doc_at bd sd (with_wrapper wd w) doc.
Proof.
  intros Hw. induction doc as [|b doc IH]; intros Hd idx.
  - apply replace_from_nil, exec_guarded; [apply wrapper_step_guarded|discriminate].
  - apply blocks_ok_cons in Hd as [Hb Hd]. rewrite !doc_at_cons.
    destruct (match b with Element _ _ => false | Wrapper j => wrapper_eqb j w end)
      eqn:E.
    + destruct b as [k spans|j]; [discriminate|]. apply wrapper_eqb_eq in E. subst j.
      unfold block_at, with_wrapper. rewrite Hw, wrapper_eqb_refl. cbn [orb].
      rewrite replace_wrapper, (IH Hd). reflexivity.
    + destruct (block_skipped_by_wrapper w bd sd wd b E Hb) as [Ht ->].
      rewrite (replace_over _ _ (wrapper_step_guarded w) _ Ht).
      rewrite (IH Hd). reflexivity.
Qed.

Lemma wrapper_step_run (w : wrapper) (pre : jsstring) (bd : kind -> bool)
    (sd : style -> bool) (wd : wrapper -> bool) (doc : list block) :
  ~ In LT_ pre -> wd w = false -> blocks_ok doc = true ->
  replace (fst (wrapper_step w)) (snd (wrapper_step w)) (pre ++ doc_at bd sd wd doc)
  = pre ++ doc_at bd sd (with_wrapper wd w) doc.
Proof.
  intros Hp Hw Hd. unfold replace.
  rewrite (replace_from_prefix _ _ (wrapper_step_guarded w) pre _ 0 Hp).
  rewrite (wrapper_step_doc w bd sd wd Hw doc Hd). reflexivity.
Qed.

Lemma doc_at_ext (bd bd' : kind -> bool) (sd sd' : style -> bool)
    (wd wd' : wrapper -> bool) (doc : list block) :
  (forall k, bd k = bd' k) -> (forall s, sd s = sd' s) -> (forall w, wd w = wd' w) ->
  doc_at bd sd wd doc = doc_at bd' sd' wd' doc.
Proof.
  intros Hk Hs Hw. unfold doc_at. f_equal. apply List.map_ext. intros [k spans|w].
  - unfold block_at. rewrite Hk.
    assert (inner_at sd spans = inner_at sd' spans) as E.
    { unfold inner_at. f_equal. apply List.map_ext. intros [t|s t]; [reflexivity|].
      cbn [span_at]. rewrite Hs. reflexivity. }
    rewrite E. reflexivity.
  - cbn [block_at]. rewrite Hw. reflexivity.
Qed.

Lemma doc_html_at (doc : list block) : doc_html doc = doc_at none none none doc.
Proof.
  reflexivity.
Qed.

Lemma doc_at_all (doc : list block) : doc_at all all all doc = doc_markdown doc.
Proof.
  unfold doc_markdown, doc_at. f_equal. apply List.map_ext. intros [k spans|w].
  - unfold block_at, all, block_markdown, block_line. rewrite <- app_assoc. reflexivity.
  - reflexivity.
Qed.

Lemma span_markdown_plain (sp : span) :
  inline_text (span_text sp) = true -> ~ In LT_ (span_at all sp).
Proof.
  destruct sp as [t|s t]; cbn [span_text span_at]; intros H.
  - exact (inline_text_plain t H).
  - unfold all. apply plain_app; [apply style_mark_plain|].
    apply plain_app; [exact (inline_text_plain t H)|apply style_mark_plain].
Qed.

Lemma inner_markdown_plain (spans : list span) :
  spans_ok spans = true -> ~ In LT_ (inner_at all spans).
Proof.
  unfold spans_ok. induction spans as [|sp spans IH]; [intros _ []|].
  cbn [forallb]. intros H. apply andb_prop in H as [Ha Hb].
  rewrite inner_at_cons. apply plain_app; [exact (span_markdown_plain sp Ha)|exact (IH Hb)].
Qed.

Lemma doc_markdown_plain (doc : list block) :
  blocks_ok doc = true -> ~ In LT_ (doc_at all all all doc).
Proof.
  induction doc as [|b doc IH]; [intros _ []|]. intros Hd.
  apply blocks_ok_cons in Hd as [Hb Hd]. rewrite doc_at_cons.
  apply plain_app; [|exact (IH Hd)]. destruct b as [k spans|w].
  - unfold block_at, all.
    apply plain_app; [apply kind_mark_plain|].
    apply plain_app; [exact (inner_markdown_plain _ Hb)|apply kind_gap_plain].
  - apply wrapper_markdown_plain.
Qed.

Lemma apply_steps_nil (s : jsstring) : apply_steps [] s = s.
Proof. reflexivity. Qed.

Lemma apply_steps_step (st : regex * list piece) (l : list (regex * list piece))
    (s : jsstring) :
  apply_steps (st :: l) s = apply_steps l (replace (fst st) (snd st) s).
Proof. reflexivity. Qed.

Lemma steps_after_h1 :
  drop 1 tag_steps
  = map kind_step [Head2; Head3; Head4; Head5; Head6; Para]
    ++ map style_step styles ++ map wrapper_step wrappers
    ++ [kind_step Item] ++ drop 16 tag_steps.
Proof. reflexivity. Qed.

Lemma tag_steps_h1 : tag_steps = kind_step Head1 :: drop 1 tag_steps.
Proof. reflexivity. Qed.

Lemma last_steps_guarded :
  forallb (fun st => lt_guarded (fst st)) (drop 16 tag_steps) = true.
Proof. vm_compute. reflexivity. Qed.

(** The substitutions after the one of [h1], on a document whose
    level-one headings are lines already. *)
Lemma run_after_h1 (pre : jsstring) (doc : list block) :
  ~ In LT_ pre -> blocks_ok doc = true ->
  apply_steps (drop 1 tag_steps) (pre ++ doc_at (with_kind none Head1) none none doc)
  = pre ++ doc_markdown doc.
Proof.
  intros Hp Hd. rewrite steps_after_h1. do 4 rewrite apply_steps_app.
  unfold styles, wrappers. cbn [map]. rewrite !apply_steps_step, !apply_steps_nil.
  rewrite (kind_step_run Head2 pre _ _ _ doc Hp eq_refl Hd).
  rewrite (kind_step_run Head3 pre _ _ _ doc Hp eq_refl Hd).
  rewrite (kind_step_run Head4 pre _ _ _ doc Hp eq_refl Hd).
  rewrite (kind_step_run Head5 pre _ _ _ doc Hp eq_refl Hd).
  rewrite (kind_step_run Head6 pre _ _ _ doc Hp eq_refl Hd).
  rewrite (kind_step_run Para pre _ _ _ doc Hp eq_refl Hd).
  rewrite (style_step_run Strong pre _ _ _ doc Hp eq_refl Hd).
  rewrite (style_step_run Bold pre _ _ _ doc Hp eq_refl Hd).
  rewrite (style_step_run Em pre _ _ _ doc Hp eq_refl Hd).
  rewrite (style_step_run Italic pre _ _ _ doc Hp eq_refl Hd).
  rewrite (wrapper_step_run UlOpen pre _ _ _ doc Hp eq_refl Hd).
  rewrite (wrapper_step_run UlClose pre _ _ _ doc Hp eq_refl Hd).
  rewrite (wrapper_step_run OlOpen pre _ _ _ doc Hp eq_refl Hd).
  rewrite (wrapper_step_run OlClose pre _ _ _ doc Hp eq_refl Hd).
  rewrite (kind_step_run Item pre _ _ _ doc Hp eq_refl Hd).
  rewrite (doc_at_ext _ all _ all _ all doc) by (intros []; reflexivity).
  rewrite apply_steps_guarded.
  - rewrite doc_at_all. reflexivity.
  - exact last_steps_guarded.
  - apply plain_app; [exact Hp|exact (doc_markdown_plain doc Hd)].
Qed.

Lemma steps_on_document (doc : list block) :
  blocks_ok doc = true ->
  apply_steps tag_steps (doc_html doc) = doc_markdown doc.
Proof.
  intros Hd. rewrite tag_steps_h1, apply_steps_step. rewrite doc_html_at.
  unfold replace, kind_step. cbn [fst snd].
  rewrite (kind_step_doc Head1 none none none eq_refl doc Hd 0).
  exact (run_after_h1 [] doc (fun H => H) Hd).
Qed.

Lemma steps_on_titled_document (t : jsstring) (doc : list block) :
  inline_text t = true -> blocks_ok doc = true ->
  apply_steps tag_steps (lit "<h1>" ++ t ++ lit "</h1>" ++ [NL] ++ doc_html doc)
  = (lit "# " ++ t ++ [NL; NL]) ++ doc_markdown doc.
Proof.
  intros Ht Hd. rewrite tag_steps_h1, apply_steps_step. rewrite doc_html_at.
  assert (replace (fst (kind_step Head1)) (snd (kind_step Head1))
            (lit "<h1>" ++ t ++ lit "</h1>" ++ [NL] ++ doc_at none none none doc)
          = (lit "# " ++ t ++ [NL; NL])
            ++ doc_at (with_kind none Head1) none none doc) as ->.
  { unfold replace, kind_step. cbn [fst snd].
    change (lit "<h1>" ++ t ++ lit "</h1>" ++ [NL] ++ doc_at none none none doc)
      with (opening (kind_tag Head1)
            ++ t ++ closing (kind_tag Head1) ++ [NL] ++ doc_at none none none doc).
    assert (opening (kind_tag Head1)
            ++ t ++ closing (kind_tag Head1) ++ [NL] ++ doc_at none none none doc
            = element (kind_tag Head1) t ++ [NL] ++ doc_at none none none doc) as ->
      by (unfold element; rewrite <- !app_assoc; reflexivity).
    rewrite replace_element.
    - rewrite expand_kind.
      rewrite (replace_from_prefix _ _ (element_re_guarded (kind_tag Head1)) [NL]).
      + rewrite (kind_step_doc Head1 none none none eq_refl doc Hd).
        cbn [kind_mark kind_gap]. rewrite <- !app_assoc. reflexivity.
      + intros [E|[]]. discriminate E.
    - apply ttext_plain, inline_text_plain, Ht.
    - apply inline_one_line, Ht. }
  apply run_after_h1; [|exact Hd].
  apply plain_app; [vm_compute; intuition discriminate|].
  apply plain_app; [exact (inline_text_plain t Ht)|vm_compute; intuition discriminate].
Qed.

End DocumentSteps.

Section DocumentLines.
Import JsString Regex ExportUtils ExportAux MarkdownAux MarkdownDoc.

Lemma lines_text_cons (l : jsstring * jsstring) (ls : list (jsstring * jsstring)) :
  lines_text (l :: ls) = fst l ++ snd l ++ lines_text ls.
Proof. unfold lines_text. cbn [map concat]. rewrite <- app_assoc. reflexivity. Qed.

Lemma lead_lines (ls : list (jsstring * jsstring)) :
  Forall tidy_line ls -> lead NL (lines_text ls) = 0.
Proof.
  intros H. destruct H as [|l ls (_ & Hs & _) _]; [reflexivity|].
  rewrite lines_text_cons. apply solid_cons in Hs as (c & t' & -> & Hc).
  cbn [app lead]. destruct (N.eqb_spec NL c) as [<-|]; [|reflexivity].
  rewrite trimmed_NL in Hc. discriminate.
Qed.

Lemma norun_lines (ls : list (jsstring * jsstring)) :
  Forall tidy_line ls -> norun NL 3 (lines_text ls).
Proof.
  induction 1 as [|l ls (Hn & Hs & Hg) H IH]; [exact I|].
  rewrite lines_text_cons. apply norun_text_app; [lia|exact Hn|].
  pose proof (lead_lines ls H) as Hl.
  destruct Hg as [-> | ->]; cbn [app norun lead]; rewrite !N.eqb_refl, ?Hl;
    repeat split; try lia; exact IH.
Qed.

Lemma lines_join (l : jsstring * jsstring) (ls : list (jsstring * jsstring)) :
  Forall tidy_line (l :: ls) ->
  exists g : jsstring,
    lines_text (l :: ls) = join_lines (l :: ls) ++ g /\ forallb is_trimmed g = true.
Proof.
  revert l. induction ls as [|l' ls IH]; intros l H.
  - apply Forall_cons_1 in H as [(_ & _ & Hg) _]. exists (snd l).
    rewrite lines_text_cons. cbn [join_lines lines_text map concat].
    rewrite app_nil_r. split; [reflexivity|]. destruct Hg as [-> | ->]; reflexivity.
  - apply Forall_cons_1 in H as [_ H]. destruct (IH l' H) as (g & E & Hg).
    exists g. split; [|exact Hg]. rewrite lines_text_cons, E.
    change (join_lines (l :: l' :: ls))
      with (fst l ++ snd l ++ join_lines (l' :: ls)).
    rewrite <- !app_assoc. reflexivity.
Qed.

Lemma solid_join_lines (l : jsstring * jsstring) (ls : list (jsstring * jsstring)) :
  Forall tidy_line (l :: ls) -> solid (join_lines (l :: ls)) = true.
Proof.
  revert l. induction ls as [|l' ls IH]; intros l H.
  - apply Forall_cons_1 in H as [(_ & Hs & _) _]. exact Hs.
  - apply Forall_cons_1 in H as [(_ & Hs & _) H]. specialize (IH l' H).
    change (join_lines (l :: l' :: ls))
      with (fst l ++ snd l ++ join_lines (l' :: ls)).
    destruct (solid_cons _ Hs) as (c & u & -> & Hc).
    destruct (solid_last _ IH) as (b & Hb & Hb').
    unfold solid. cbn [head app].
    rewrite app_comm_cons, (last_app_some _ _ b).
    + rewrite Hc, Hb'. reflexivity.
    + apply last_app_some. exact Hb.
Qed.

(** Lines that are tidy come out as they are, without the line feeds of
    the last one. *)
Lemma clean_lines (ls : list (jsstring * jsstring)) :
  Forall tidy_line ls -> trim (squeeze_blank (lines_text ls)) = join_lines ls.
Proof.
  intros H. rewrite squeeze_blank_collapse.
  rewrite collapse_fixed by (try lia; apply norun_lines, H).
  destruct ls as [|l ls]; [reflexivity|].
  destruct (lines_join l ls H) as (g & -> & Hg).
  apply trim_solid; [|exact Hg]. apply solid_join_lines, H.
Qed.

Lemma one_line_no_NL (s : jsstring) : one_line s = true -> ~ In NL s.
Proof.
  unfold one_line. rewrite forallb_forall. intros H Hin. specialize (H _ Hin).
  discriminate H.
Qed.

Lemma block_line_one_line (k : kind) (spans : list span) :
  spans_ok spans = true -> one_line (block_line k spans) = true.
Proof.
  intros H. unfold block_line. apply one_line_app.
  - destruct k; reflexivity.
  - exact (inner_one_line all spans H).
Qed.

Lemma wrapper_gap_feeds (doc : list block) (c : char) : In c (wrapper_gap doc) -> c = NL.
Proof.
  induction doc as [|[k spans|w] doc IH]; cbn [wrapper_gap]; try (intros []).
  intros H. apply in_app_or in H as [H|H]; [|exact (IH H)].
  destruct w; cbn in H; intuition.
Qed.

Lemma gap_feeds (k : kind) (doc : list block) (c : char) :
  In c (kind_gap k ++ wrapper_gap doc) -> c = NL.
Proof.
  intros H. apply in_app_or in H as [H|H]; [|exact (wrapper_gap_feeds doc c H)].
  destruct k; cbn in H; intuition.
Qed.

Lemma gap_shape (g : jsstring) :
  (forall c, In c g -> c = NL) -> g <> [] -> length g <= 2 ->
  g = [NL] \/ g = [NL; NL].
Proof.
  intros H Hn Hl. destruct g as [|a [|b [|c g]]]; [contradiction| | |cbn in Hl; lia].
  - left. rewrite (H a) by now left. reflexivity.
  - right. rewrite (H a), (H b) by (cbn; auto). reflexivity.
Qed.

Lemma entries_tidy (doc : list block) :
  blocks_ok doc = true ->
  forallb (fun l => solid (fst l) && (length (snd l) <=? 2)) (doc_entries doc) = true ->
  Forall tidy_line (doc_entries doc).
Proof.
  induction doc as [|[k spans|w] doc IH]; intros Hd Hs.
  - constructor.
  - apply blocks_ok_cons in Hd as [Hb Hd]. cbn [doc_entries forallb fst snd] in *.
    apply andb_prop in Hs as [Ha Hs]. apply andb_prop in Ha as [Ha Hl].
    apply Nat.leb_le in Hl. constructor; [|exact (IH Hd Hs)].
    repeat split; cbn [fst snd].
    + apply one_line_no_NL, block_line_one_line, Hb.
    + exact Ha.
    + apply gap_shape; [apply gap_feeds| |exact Hl]. destruct k; discriminate.
  - apply blocks_ok_cons in Hd as [_ Hd]. exact (IH Hd Hs).
Qed.

Lemma doc_markdown_entries (doc : list block) :
  doc_markdown doc = wrapper_gap doc ++ lines_text (doc_entries doc).
Proof.
  induction doc as [|[k spans|w] doc IH].
  - reflexivity.
  - change (doc_markdown (Element k spans :: doc))
      with ((block_line k spans ++ kind_gap k) ++ doc_markdown doc).
    rewrite IH. cbn [wrapper_gap doc_entries app]. rewrite lines_text_cons.
    cbn [fst snd]. rewrite <- !app_assoc. reflexivity.
  - change (doc_markdown (Wrapper w :: doc))
      with (wrapper_markdown w ++ doc_markdown doc).
    rewrite IH. cbn [wrapper_gap doc_entries]. rewrite <- app_assoc. reflexivity.
Qed.

Lemma exportAsHTML_titled (options : ExportOptions) (h : jsstring) :
  exportAsHTML options h
  = match shown_title options with
    | Some t => lit "<h1>" ++ t ++ lit "</h1>" ++ [NL] ++ h
    | None => h
    end.
Proof.
  unfold exportAsHTML, shown_title. destruct (title options) as [t|]; [|reflexivity].
  destruct (includeTitle options && truthy t); reflexivity.
Qed.

Lemma steps_on_export (options : ExportOptions) (doc : list block) :
  well_formed options doc = true ->
  apply_steps tag_steps (exportAsHTML options (doc_html doc))
  = title_markdown options ++ doc_markdown doc.
Proof.
  unfold well_formed, title_markdown. rewrite exportAsHTML_titled. intros H.
  apply andb_prop in H as [Ht Hd]. destruct (shown_title options) as [t|].
  - exact (steps_on_titled_document t doc Ht Hd).
  - exact (steps_on_document doc Hd).
Qed.

Lemma tidy_lines (options : ExportOptions) (doc : list block) :
  well_formed options doc = true -> tidy options doc = true ->
  title_markdown options ++ doc_markdown doc = lines_text (doc_lines options doc)
  /\ Forall tidy_line (doc_lines options doc).
Proof.
  unfold well_formed, tidy, title_markdown, doc_lines. intros H Hs.
  apply andb_prop in H as [Ht Hd]. apply andb_prop in Hs as [Hs Hg].
  rewrite doc_markdown_entries. destruct (shown_title options) as [t|].
  - cbn [forallb fst snd] in Hs. apply andb_prop in Hs as [Ha Hs].
    apply andb_prop in Ha as [Ha Hl]. apply Nat.leb_le in Hl. split.
    + rewrite lines_text_cons. cbn [fst snd]. rewrite <- !app_assoc. reflexivity.
    + constructor; [|exact (entries_tidy doc Hd Hs)]. repeat split; cbn [fst snd].
      * apply one_line_no_NL. apply one_line_app; [reflexivity|].
        exact (inline_one_line t Ht).
      * exact Ha.
      * apply gap_shape; [|discriminate|exact Hl].
        intros c Hc. apply in_app_or in Hc as [Hc|Hc];
          [cbn in Hc; intuition|exact (wrapper_gap_feeds doc c Hc)].
  - destruct (wrapper_gap doc); [|discriminate]. split; [reflexivity|].
    exact (entries_tidy doc Hd Hs).
Qed.

(** X10.  A document of headings, paragraphs and lists, the text of each block
    plain or marked bold or italic, every text a single line without
    [<].  Its Markdown export is the title line followed by an empty
    line (when the options ask for the title), then one line per block:
    a heading behind its [#] marks and a list item behind [- ], in a
    numbered list as well, each followed by one line feed; a paragraph
    followed by two; one more line feed where a list ends; all of it
    with blank lines squeezed and the ends trimmed.  When the lines are
    tidy this is the lines themselves with their line feeds between
    them. *)
Theorem markdown_of_document (options : ExportOptions) (doc : list block) :
  well_formed options doc = true ->
  let md := exportAsMarkdown options (doc_html doc) in
  md = trim (squeeze_blank (title_markdown options ++ doc_markdown doc))
  /\ (tidy options doc = true -> md = join_lines (doc_lines options doc)).
Proof.
  intros H md.
  assert (md = trim (squeeze_blank (title_markdown options ++ doc_markdown doc))) as E.
  { unfold md, exportAsMarkdown. rewrite html_to_markdown_unfold.
    rewrite (steps_on_export options doc H). reflexivity. }
  split; [exact E|]. intros Hs. rewrite E.
  destruct (tidy_lines options doc H Hs) as [-> Ht].
  exact (clean_lines _ Ht).
Qed.

Lemma markdown_of_document_witness :
  exportAsMarkdown {| title := Some (lit "Week 1"); includeTitle := true |}
    (lit "<h2>Recap</h2><p>A <strong>great</strong> win, <em>again</em></p>"
     ++ lit "<ol><li>first</li><li><b>second</b></li></ol><p>Bye</p>")
  = lit "# Week 1" ++ [NL; NL] ++ lit "## Recap" ++ [NL]
    ++ lit "A **great** win, *again*" ++ [NL; NL]
    ++ lit "- first" ++ [NL] ++ lit "- **second**" ++ [NL; NL] ++ lit "Bye".
Proof.
  exact (proj2 (markdown_of_document
                  {| title := Some (lit "Week 1"); includeTitle := true |}
                  [ Element Head2 [Plain (lit "Recap")];
                    Element Para [Plain (lit "A "); Styled Strong (lit "great");
                                  Plain (lit " win, "); Styled Em (lit "again")];
                    Wrapper OlOpen;
                    Element Item [Plain (lit "first")];
                    Element Item [Styled Bold (lit "second")];
                    Wrapper OlClose;
                    Element Para [Plain (lit "Bye")] ]
                  eq_refl) eq_refl).
Defined.

End DocumentLines.

(** ** The recap card and the generation modal *)

Section RecapCardFacts.
Import JsString RecapCard.

(** X11.  The preview of a recap: content that fits is shown as it is; longer
    content is cut to a part of its first [maxLength] code units, with
    white space trimmed off and three dots added, so the preview never
    exceeds [maxLength + 3] code units. *)
Theorem truncateContent_bounded (content : jsstring) (maxLength : option nat) :
  let m := match maxLength with Some m => m | None => 150 end in
  let preview := truncateContent content maxLength in
  (length content <= m -> preview = content)
  /\ (m < length content ->
      exists shown : jsstring,
        preview = shown ++ lit "..."
        /\ sublist shown (take m content)
        /\ (forall c, head shown = Some c -> is_trimmed c = false)
        /\ (forall c, last shown = Some c -> is_trimmed c = false))
  /\ length preview <= m + 3.
Proof.
  intros m preview. subst preview. unfold truncateContent. fold m.
  destruct (Nat.leb_spec (length content) m) as [Hle|Hgt].
  - split; [reflexivity|]. split; [lia|lia].
  - split; [lia|]. split.
    + intros _. exists (trim (take m content)). split; [reflexivity|].
      split; [apply trim_sublist_of|]. split.
      * intros c. apply trim_head.
      * intros c. unfold trim. apply trimEnd_last.
    + rewrite length_app. pose proof (sublist_length _ _ (trim_sublist_of (take m content))) as H.
      rewrite length_take in H. simpl. lia.
Qed.

End RecapCardFacts.

Section WeekFacts.
Import GenerateRecapModal.
Local Open Scope Z_scope.

Lemma ceil_div_spec (a b q : Z) : 0 < b -> (ceil_div a b <= q <-> a <= q * b).
Proof.
  intros Hb. unfold ceil_div. split; intros H.
  - assert (- q <= - a / b) as H' by lia.
    apply (Z.mul_le_mono_nonneg_r _ _ b) in H'; [|lia].
    pose proof (Z.mul_div_le (- a) b Hb). lia.
  - assert (- q <= - a / b); [|lia]. apply Z.div_le_lower_bound; lia.
Qed.

Lemma ceil_div_gt (a b q : Z) : 0 < b -> (q < ceil_div a b <-> q * b < a).
Proof. intros Hb. pose proof (ceil_div_spec a b q Hb). lia. Qed.



End WeekFacts.

(** ** The history page *)

Section PaginationMore.
Import Js RecapsOverview RecapsPage.

Lemma hasMore_pages {T} (currentPage : N) (v : View T) :
  hasMore currentPage (recapsResponse v) = (currentPage <? totalPages v)%N.
Proof.
  unfold hasMore, totalPages, pageSize.
  generalize (totalRecaps (recapsResponse v)) as c. intros c.
  destruct (N.ltb_spec (currentPage * 6) c) as [H|H],
    (N.ltb_spec currentPage ((c + (6 - 1)) / 6)) as [H'|H']; try reflexivity; exfalso.
  - pose proof (N.div_mod (c + (6 - 1)) 6 ltac:(lia)) as E.
    pose proof (N.mod_upper_bound (c + (6 - 1)) 6 ltac:(lia)) as U.
    revert H' E U. generalize ((c + (6 - 1)) / 6)%N ((c + (6 - 1)) mod 6)%N. lia.
  - pose proof (N.div_mod (c + (6 - 1)) 6 ltac:(lia)) as E.
    pose proof (N.mod_upper_bound (c + (6 - 1)) 6 ltac:(lia)) as U.
    revert H' E U. generalize ((c + (6 - 1)) / 6)%N ((c + (6 - 1)) mod 6)%N. lia.
Qed.

(** X13.  The Next button and the label agree: there are more recaps to show
    exactly when the current page is before the last page of the label
    "Page n of m". *)
Theorem next_page_iff_pages_left (T : Type) (currentPage : N) (v : View T) :
  hasMore currentPage (recapsResponse v) = (currentPage <? totalPages v)%N
  /\ nextDisabled currentPage v
     = negb (currentPage <? totalPages v)%N || recapsLoading v.
Proof.
  split; [apply hasMore_pages|]. unfold nextDisabled. rewrite hasMore_pages. reflexivity.
Qed.

Lemma step_range {T} (p : N) (c : click (T := T)) : (1 <= p -> 1 <= step p c)%N.
Proof.
  intros H. destruct c as [v|v]; cbn [step]; unfold clickPrev, clickNext.
  - destruct (nav_shown p v && negb (prevDisabled p v)); lia.
  - destruct (nav_shown p v && negb (nextDisabled p v)); lia.
Qed.

Lemma fold_step_range {T} (clicks : list (click (T := T))) :
  forall q : N, (1 <= q)%N -> (1 <= fold_left step clicks q)%N.
Proof.
  induction clicks as [|c clicks IH]; intros q Hq; [exact Hq|].
  cbn [fold_left]. apply IH, step_range, Hq.
Qed.

(** X14.  However the buttons are clicked, the page number stays at least 1;
    Previous moves back by one page at most, and Next moves one page
    forward only onto a page that the label counts. *)
Theorem page_stays_in_range (T : Type) (clicks : list (click (T := T))) (v : View T) :
  let p := run clicks in
  (1 <= p)%N
  /\ (p - 1 <= clickPrev p v <= p)%N
  /\ (clickNext p v = p \/ (clickNext p v = p + 1 /\ p + 1 <= totalPages v))%N.
Proof.
  intros p. assert (1 <= p)%N as Hp.
  { subst p. unfold run. apply fold_step_range. lia. }
  split; [exact Hp|]. split.
  - unfold clickPrev. destruct (nav_shown p v && negb (prevDisabled p v)); lia.
  - unfold clickNext. destruct (nav_shown p v) eqn:En; cbn [andb]; [|now left].
    unfold nextDisabled. rewrite hasMore_pages.
    destruct (N.ltb_spec p (totalPages v)); cbn [negb orb]; [|now left].
    destruct (recapsLoading v); cbn [negb]; [now left|]. right. lia.
Qed.

End PaginationMore.

Section RecapsHandlers.
Import Js RecapsOverview RecapsPage.
Local Open Scope string_scope.

Lemma mutate_log (base : string) (JSON_stringify : jsvalue -> string)
    (endpoint : string) (data : option jsvalue) (method : option UseApiMutation.http_method)
    (w : World) (log : list Request) (session : option Session) :
  getSession w = Ok session ->
  snd (UseApiMutation.mutate base JSON_stringify endpoint data method w log)
  = (log ++ [ {| req_url := base ++ endpoint;
                req_method := UseApiMutation.method_name
                                (UseApiMutation.method_or_default method);
                req_headers := auth_headers session;
                req_body := UseApiMutation.request_body JSON_stringify data |} ])%list.
Proof.
  intros Hs. unfold UseApiMutation.mutate, UseApiMutation.mutate_try, bind, lift, call_fetch.
  rewrite Hs.
  match goal with |- context [fetch w ?q] => destruct (fetch w q) as [r|err]; [|reflexivity] end.
  destruct (ok r); simpl; [|reflexivity]. destruct (json r); reflexivity.
Qed.

Lemma fetchData_log (base endpoint : string) (w : World) (log : list Request)
    (session : option Session) :
  getSession w = Ok session ->
  snd (UseApi.fetchData base endpoint w log)
  = (log ++ [ {| req_url := base ++ endpoint; req_method := "GET";
                req_headers := auth_headers session; req_body := None |} ])%list.
Proof.
  intros Hs. unfold UseApi.fetchData, UseApi.fetchData_try, bind, lift, call_fetch.
  rewrite Hs.
  match goal with |- context [fetch w ?q] => destruct (fetch w q) as [r|err]; [|reflexivity] end.
  destruct (ok r); simpl; [|reflexivity]. destruct (json r); reflexivity.
Qed.

(** X15.  Deleting a recap from the history page.  Without the user's
    confirmation nothing happens.  With it, and the session readable,
    the page sends a POST without body to [/recaps/<id>] (the mutation
    hook's default method) and then, whatever the answer was, a GET that
    reloads the current page of recaps; the card's deleting mark is
    cleared at the end. *)
Theorem handleDeleteRecap_requests (base : string) (JSON_stringify : jsvalue -> string)
    (recapId : string) (w_delete w_refetch : World) (st : Page) :
  handleDeleteRecap base JSON_stringify false recapId w_delete w_refetch st = st
  /\ forall s1 s2 : option Session,
       getSession w_delete = Ok s1 -> getSession w_refetch = Ok s2 ->
       let st' := handleDeleteRecap base JSON_stringify true recapId
                    w_delete w_refetch st in
       sent st' =
         (sent st ++
          [ {| req_url := base ++ "/recaps/" ++ recapId; req_method := "POST";
               req_headers := auth_headers s1; req_body := None |};
            {| req_url := base ++ useRecaps_endpoint (currentPage st) pageSize;
               req_method := "GET";
               req_headers := auth_headers s2; req_body := None |} ])%list
       /\ deletingRecapId st' = None
       /\ currentPage st' = currentPage st.
Proof.
  split; [reflexivity|]. intros s1 s2 H1 H2 st'. subst st'.
  unfold handleDeleteRecap. cbn [negb].
  pose proof (mutate_log base JSON_stringify ("/recaps/" ++ recapId) None None
                w_delete (sent st) s1 H1) as Hm.
  destruct (UseApiMutation.mutate base JSON_stringify ("/recaps/" ++ recapId) None None
              w_delete (sent st)) as [[v m] log1]. cbn [snd] in Hm. subst log1.
  match goal with
  | |- context [UseApi.fetchData base ?e w_refetch ?l] =>
      pose proof (fetchData_log base e w_refetch l s2 H2) as Hf;
      destruct (UseApi.fetchData base e w_refetch l) as [a log2]
  end.
  cbn [snd] in Hf. subst log2. cbn [sent deletingRecapId currentPage].
  rewrite <- app_assoc. repeat split.
Qed.

End RecapsHandlers.

(** ** More on useApi and its callers *)

Section UseApiMore.
Import Js UseApi UseApiAux.
Local Open Scope string_scope.

Lemma prefix_app (a b : string) : String.prefix a (a ++ b) = true.
Proof.
  induction a as [|c a IH]; simpl; [destruct b; reflexivity|].
  destruct (ascii_dec c c) as [_|Hne]; [exact IH|contradiction].
Qed.

Lemma fetchData_requests (base endpoint : string) (w : World) (log : list Request) :
  snd (fetchData base endpoint w log) = log
  \/ exists session,
       getSession w = Ok session
       /\ snd (fetchData base endpoint w log)
          = (log ++ [ {| req_url := base ++ endpoint; req_method := "GET";
                        req_headers := auth_headers session; req_body := None |} ])%list.
Proof.
  unfold fetchData, fetchData_try, bind, lift, call_fetch.
  destruct (getSession w) as [session|err]; [right|left; reflexivity].
  exists session. split; [reflexivity|].
  match goal with |- context [fetch w ?q] => destruct (fetch w q) as [r|err]; [|reflexivity] end.
  destruct (ok r); simpl; [|reflexivity]. destruct (json r); reflexivity.
Qed.

Lemma run_fetch_gets (base : string) (h : Hook) (w : World) :
  Forall (fun r => plain_get base r = true) (requests h) ->
  Forall (fun r => plain_get base r = true) (requests (run_fetch base h w)).
Proof.
  intros H. unfold run_fetch.
  destruct (fetchData_requests base (endpoint h) w (requests h)) as [E|(s & _ & E)];
    destruct (fetchData base (endpoint h) w (requests h)) as [st log];
    cbn [snd] in E; subst log; cbn [requests]; [exact H|].
  apply Forall_app. split; [exact H|]. constructor; [|constructor].
  unfold plain_get. cbn [req_method req_body req_url req_headers auth_headers].
  rewrite prefix_app. reflexivity.
Qed.

Lemma step_gets (base : string) (h : Hook) (e : event) :
  Forall (fun r => plain_get base r = true) (requests h) ->
  Forall (fun r => plain_get base r = true) (requests (step base h e)).
Proof.
  intros H. destruct e as [ep imm changed w|w]; cbn [step].
  - match goal with |- context [if ?b then _ else _] => destruct b end; [|exact H].
    apply run_fetch_gets. exact H.
  - apply run_fetch_gets, H.
Qed.

(** X16.  Whatever the renders and the calls of [refetch]: every request the
    hook hands to [fetch] is a GET without body, on a URL that starts
    with the API base, with the JSON content type as its first header. *)
Theorem useApi_only_gets (base endpoint : string) (immediate : option bool)
    (es : list event) :
  Forall (fun r => plain_get base r = true)
    (requests (run base (init endpoint immediate) es)).
Proof.
  unfold run.
  assert (forall h, Forall (fun r => plain_get base r = true) (requests h) ->
            Forall (fun r => plain_get base r = true) (requests (fold_left (step base) es h)))
    as H.
  { induction es as [|e es IH]; intros h Hh; [exact Hh|]. cbn [fold_left].
    apply IH, step_gets, Hh. }
  apply H. constructor.
Qed.

Lemma run_fetch_adds (base : string) (h : Hook) (w : World) :
  session_readable w = true ->
  length (requests (run_fetch base h w)) = S (length (requests h)).
Proof.
  unfold session_readable, run_fetch. intros Hs.
  destruct (fetchData_requests base (endpoint h) w (requests h)) as [E|(s & _ & E)];
    destruct (fetchData base (endpoint h) w (requests h)) as [st log] eqn:Ef;
    cbn [snd] in E; subst log; cbn [requests].
  - exfalso. revert Ef. unfold fetchData, fetchData_try, bind, lift, call_fetch.
    destruct (getSession w) as [session|err]; [|discriminate].
    match goal with |- context [fetch w ?q] => destruct (fetch w q) as [r|err] end.
    + destruct (ok r); simpl; [destruct (json r)|]; intros [= _ E];
        apply (f_equal (@length _)) in E; rewrite length_app in E; simpl in E; lia.
    + intros [= _ E].
      apply (f_equal (@length _)) in E; rewrite length_app in E; simpl in E; lia.
  - rewrite length_app. simpl. lia.
Qed.

Lemma step_adds (base : string) (h : Hook) (e : event) :
  fetches e = true -> length (requests (step base h e)) = S (length (requests h)).
Proof.
  destruct e as [ep imm changed w|w]; cbn [step fetches]; intros H.
  - apply andb_prop in H as [H Hs]. apply andb_prop in H as [-> ->].
    rewrite !orb_true_r. cbn [andb].
    rewrite (run_fetch_adds base _ w Hs). reflexivity.
  - apply run_fetch_adds, H.
Qed.

(** X17.  Nothing is cached or de-duplicated: of a series of events that are
    calls of [refetch] or renders with [immediate] set and a changed
    dependency (the session being readable), each one issues one more
    request. *)
Theorem useApi_fetches_every_time (base : string) (h : Hook) (es : list event) :
  Forall (fun e => fetches e = true) es ->
  length (requests (run base h es)) = length (requests h) + length es.
Proof.
  unfold run. revert h. induction es as [|e es IH]; intros h H.
  - simpl. lia.
  - apply Forall_cons_1 in H as [He H]. cbn [fold_left length].
    rewrite (IH _ H), (step_adds base h e He). lia.
Qed.

Lemma useApi_fetches_every_time_witness :
  length (requests (run "http://localhost:8000/api/v1" (init "/recaps?page=1&page_size=6" None)
            [Render "/recaps?page=1&page_size=6" true true Samples.sample_world;
             Render "/recaps?page=1&page_size=6" true true Samples.sample_world;
             Render "/recaps?page=1&page_size=6" true true Samples.sample_world]))
  = 0 + 3.
Proof.
  apply (useApi_fetches_every_time "http://localhost:8000/api/v1"
           (init "/recaps?page=1&page_size=6" None)).
  repeat constructor.
Defined.

End UseApiMore.

Section SubmitFacts.
Import Js UseApiMutation GenerateRecapModal.
Local Open Scope string_scope.

(** X18.  The modal closes only on success.  One submission posts the form to
    [/recaps/generate]; [onSuccess], [onClose] and the form reset happen
    together, and exactly when the request was answered ok with a body
    that parses to a truthy value; the hook then holds no error. *)
Theorem modal_closes_only_on_success (base : string)
    (JSON_stringify : jsvalue -> string) (formData : list (string * jsvalue))
    (w : World) (log : list Request) (session : option Session) :
  getSession w = Ok session ->
  let request := {| req_url := base ++ "/recaps/generate"; req_method := "POST";
                    req_headers := auth_headers session;
                    req_body := Some (JSON_stringify (JObj formData)) |} in
  let o := handleSubmit base JSON_stringify formData w log in
  requests o = (log ++ [request])%list
  /\ onClose_called o = onSuccess_called o
  /\ form_reset o = onSuccess_called o
  /\ (onSuccess_called o = true <->
      exists r v, fetch w request = Ok r /\ ok r = true /\ json r = Ok v
                  /\ js_truthy v = true)
  /\ (onSuccess_called o = true -> error (mutation o) = None).
Proof.
  intros Hs request o. subst o.
  unfold handleSubmit, mutate, mutate_try, bind, lift, call_fetch, throw, ret. rewrite Hs.
  cbn [request_body js_truthy method_name method_or_default]. fold request.
  destruct (fetch w request) as [r|e].
  - destruct (ok r) eqn:Eok; cbn [negb].
    + destruct (json r) as [v|e] eqn:Ej; cbn.
      * destruct (js_truthy v) eqn:Ev; cbn; repeat split; try reflexivity;
          try discriminate; try (intros _; exists r, v; repeat split; assumption);
          try (intros (r' & v' & [= <-] & _ & Hj & Hv); congruence).
      * repeat split; try discriminate.
        intros (r' & v' & [= <-] & _ & Hj & _). congruence.
    + cbn. repeat split; try discriminate.
      intros (r' & v' & [= <-] & Hok & _). congruence.
  - cbn. repeat split; try discriminate. intros (r' & v' & H & _). discriminate.
Qed.

Lemma modal_closes_only_on_success_witness :
  onSuccess_called (handleSubmit "http://localhost:8000/api/v1" Samples.show_body
                      [("league_id", JStr "l1")] Samples.sample_world []) = false.
Proof.
  destruct (modal_closes_only_on_success "http://localhost:8000/api/v1" Samples.show_body
              [("league_id", JStr "l1")] Samples.sample_world []
              (Some {| access_token := "jwt" |}) eq_refl) as (_ & _ & _ & [H _] & _).
  match goal with |- ?x = false => destruct x eqn:E end; [|reflexivity].
  destruct (H eq_refl) as (r & v & Hr & Hok & _). injection Hr as <-. discriminate Hok.
Defined.

End SubmitFacts.

Section PageFacts.
Import JsString Js UseApiMutation RecapEditorPage.
Local Open Scope string_scope.

(** X19.  Saving from the editor page never fails in the editor's eyes.  With
    the session readable, [handleSave] sends one POST with a body, to
    the recap's address in edit mode and to [/recaps] otherwise; then,
    whatever the answer (an error status, a body that does not parse, a
    network failure), it navigates to the dashboard and its promise
    resolves, so the editor is told that the save succeeded. *)
Theorem page_save_always_resolves (base : string) (JSON_stringify : jsvalue -> string)
    (text : jsstring -> jsvalue) (parseInt : string -> jsvalue) (thisYear : string)
    (searchParams : string -> option string) (recap : option string)
    (content title : jsstring) (w : World) (log : list Request)
    (session : option Session) :
  getSession w = Ok session ->
  let call := handleSave base JSON_stringify text parseInt thisYear searchParams recap
                content title w log in
  fst (fst call) = Ok tt
  /\ snd (fst call) = [DASHBOARD]
  /\ exists request : Request,
       snd call = (log ++ [request])%list
       /\ req_method request = "POST"
       /\ (exists body, req_body request = Some body)
       /\ req_url request =
          base ++ match recap with
                  | Some id =>
                      if isEditMode (searchParams "id") recap
                      then "/recaps/" ++ id else "/recaps"
                  | None => "/recaps"
                  end.
Proof.
  intros Hs call. subst call. unfold handleSave.
  destruct recap as [id|]; [destruct (isEditMode (searchParams "id") (Some id))|];
    [| |destruct (isEditMode (searchParams "id") None)];
    match goal with
    | |- context [mutate base JSON_stringify ?e ?d None w log] =>
        pose proof (mutate_log base JSON_stringify e d None w log session Hs) as Hl;
        destruct (mutate base JSON_stringify e d None w log) as [[v m] log']
    end;
    cbn [snd fst] in *; subst log'; (split; [reflexivity|]); (split; [reflexivity|]);
    eexists; (split; [reflexivity|]); cbn; repeat split; eauto.
Qed.

Lemma page_save_always_resolves_witness :
  fst (fst (handleSave "http://localhost:8000/api/v1" Samples.show_body (fun _ => JNull)
              (fun _ => JNull) "2024" (fun _ => None) None [] [] Samples.sample_world []))
  = Ok tt.
Proof.
  exact (proj1 (page_save_always_resolves "http://localhost:8000/api/v1" Samples.show_body
                  (fun _ => JNull) (fun _ => JNull) "2024" (fun _ => None) None [] []
                  Samples.sample_world [] (Some {| access_token := "jwt" |}) eq_refl)).
Defined.

End PageFacts.

(** ** More on the Yahoo relay *)

Section YahooRequests.
Import JsString Js Yahoo YahooAux YahooPanel.
Local Open Scope string_scope.
Variable BASE_URL : string.
Variable JSON_stringify : jsvalue -> string.
Variable toString : jsvalue -> string.

Ltac break_match :=
  repeat match goal with
  | |- context [match ?x with _ => _ end] => destruct x
  | |- context [if ?x then _ else _] => destruct x
  end.

Lemma sent_set_loading (b : bool) (st : State) : sent (set_loading b st) = sent st.
Proof. reflexivity. Qed.
Lemma sent_set_error (e : option jsvalue) (st : State) : sent (set_error e st) = sent st.
Proof. reflexivity. Qed.
Lemma sent_set_leagues (v : jsvalue) (st : State) : sent (set_leagues v st) = sent st.
Proof. reflexivity. Qed.
Lemma sent_set_connecting (b : bool) (st : State) : sent (set_connecting b st) = sent st.
Proof. reflexivity. Qed.
Lemma sent_set_manual (b : bool) (st : State) : sent (set_manual b st) = sent st.
Proof. reflexivity. Qed.
Lemma sent_log_request (r : Request) (st : State) :
  sent (log_request r st) = (sent st ++ [(now st, r)])%list.
Proof. reflexivity. Qed.
Lemma now_set_loading (b : bool) (st : State) : now (set_loading b st) = now st.
Proof. reflexivity. Qed.
Lemma now_set_error (e : option jsvalue) (st : State) : now (set_error e st) = now st.
Proof. reflexivity. Qed.
Lemma now_log_request (r : Request) (st : State) : now (log_request r st) = now st.
Proof. reflexivity. Qed.

Ltac sent_frame :=
  rewrite ?sent_set_loading, ?sent_set_error, ?sent_set_leagues, ?sent_set_connecting,
    ?sent_set_manual, ?sent_log_request, ?now_set_loading, ?now_set_error,
    ?now_log_request.

Lemma fetchLeagues_sent (token : option string) (w : World) (st : State) :
  sent (fetchLeagues BASE_URL token w st)
  = (sent st ++ (if has_token token
                 then [(now st, leagues_request BASE_URL token)] else []))%list.
Proof.
  unfold fetchLeagues, has_token. destruct token as [t|]; [|rewrite app_nil_r; reflexivity].
  destruct (str_truthy t); [|rewrite app_nil_r; reflexivity].
  cbv zeta. fold (leagues_request BASE_URL (Some t)).
  break_match; repeat sent_frame; reflexivity.
Qed.

Lemma fetchLeagues_now (token : option string) (w : World) (st : State) :
  now (fetchLeagues BASE_URL token w st) = now st.
Proof.
  pose proof (fetchLeagues_core BASE_URL token w st) as H. unfold core in H. congruence.
Qed.

Lemma importYahooLeagues_sent (token : option string) (w : World) (st : State) :
  sent (importYahooLeagues BASE_URL JSON_stringify toString token w st)
  = (sent st ++
     (now st, import_request BASE_URL JSON_stringify token)
     :: (if accepted (fetch w (import_request BASE_URL JSON_stringify token))
              && has_token token
         then [(now st, leagues_request BASE_URL token)] else []))%list.
Proof.
  unfold importYahooLeagues, accepted. cbv zeta.
  fold (import_request BASE_URL JSON_stringify token).
  destruct (fetch w (import_request BASE_URL JSON_stringify token)) as [r|e];
    [|repeat sent_frame; reflexivity].
  destruct (ok r); cbn [andb].
  - destruct (json r) as [body|e]; [|repeat sent_frame; reflexivity].
    destruct (get body "success") as [s|e]; [|repeat sent_frame; reflexivity].
    destruct (js_truthy s); cbn [andb].
    + repeat sent_frame. rewrite fetchLeagues_sent. repeat sent_frame.
      rewrite <- app_assoc. reflexivity.
    + destruct (get body "error"); repeat sent_frame; reflexivity.
  - destruct (json r) as [body|e]; [|repeat sent_frame; reflexivity].
    destruct (get body "detail"); repeat sent_frame; reflexivity.
Qed.

End YahooRequests.

Section YahooPipeline.
Import JsString Js Yahoo YahooAux YahooPanel Samples.
Local Open Scope string_scope.

Lemma handleYahooCallback_sent (BASE_URL : string)
    (JSON_stringify toString : jsvalue -> string)
    (code : string) (state token : option string) (w : World) (st : State) :
  code ∉ processedCodes st ->
  let exchange := exchange_request BASE_URL JSON_stringify code state token in
  let import := import_request BASE_URL JSON_stringify token in
  sent (handleYahooCallback BASE_URL JSON_stringify toString code state token w st)
  = (sent st ++
     map (pair (now st))
       (exchange ::
        (if accepted (fetch w exchange)
         then import ::
              (if accepted (fetch w import) && has_token token
               then [leagues_request BASE_URL token] else [])
         else [])))%list.
Proof.
  intros Hn exchange import. unfold handleYahooCallback.
  destruct (decide (code ∈ processedCodes st)); [contradiction|]. cbv zeta.
  fold (exchange_request BASE_URL JSON_stringify code state token). fold exchange.
  unfold accepted at 1.
  assert (forall s, sent (set_connecting false (set_loading false s)) = sent s) as Eo
    by reflexivity.
  rewrite Eo.
  assert (forall e, sent (set_error e
            (log_exchange code exchange
               (mark_processed code (set_error None (set_loading true st)))))
          = (sent st ++ [(now st, exchange)])%list) as Ef by reflexivity.
  destruct (fetch w exchange) as [r|e]; [|apply Ef].
  destruct (json r) as [body|e]; [|rewrite andb_false_r; apply Ef].
  destruct (ok r); cbn [andb].
  - destruct (get body "success") as [s|e]; [|apply Ef].
    destruct (js_truthy s).
    + rewrite importYahooLeagues_sent. fold import.
      change (sent (log_exchange code exchange
                (mark_processed code (set_error None (set_loading true st)))))
        with (sent st ++ [(now st, exchange)])%list.
      change (now (log_exchange code exchange
                (mark_processed code (set_error None (set_loading true st)))))
        with (now st).
      rewrite <- app_assoc. cbn [map app].
      destruct (accepted (fetch w import) && has_token token); reflexivity.
    + destruct (refusal body); apply Ef.
  - cbn [js_truthy]. destruct (refusal body); apply Ef.
Qed.

(** X20.  The relay in order.  A code that is not in the processed set is
    sent to the token-exchange endpoint; the league import is requested
    only when that exchange was answered with success, and the list of
    leagues is fetched only when the import was answered with success
    (and the session has a token).  Nothing else is sent. *)
Theorem yahoo_callback_pipeline (BASE_URL : string)
    (JSON_stringify toString : jsvalue -> string)
    (code : string) (state token : option string) (w : World) (st : State) :
  code ∉ processedCodes st ->
  let exchange := exchange_request BASE_URL JSON_stringify code state token in
  let import := import_request BASE_URL JSON_stringify token in
  let st' := handleYahooCallback BASE_URL JSON_stringify toString code state token w st in
  sent st' =
    (sent st ++
     map (pair (now st))
       (exchange ::
        (if accepted (fetch w exchange)
         then import ::
              (if accepted (fetch w import) && has_token token
               then [leagues_request BASE_URL token] else [])
         else [])))%list
  /\ loading st' = false /\ connectingYahoo st' = false.
Proof.
  intros Hn exchange import st'. split; [apply handleYahooCallback_sent, Hn|].
  subst st'. unfold handleYahooCallback.
  destruct (decide (code ∈ processedCodes st)); [contradiction|]. split; reflexivity.
Qed.

Lemma yahoo_callback_pipeline_witness :
  map (fun r => (req_method (snd r), req_url (snd r)))
    (sent (handleYahooCallback "https://api" (fun _ => "{}") (fun _ => "") "ABC123"
             (Some "xyz") (Some "jwt") friendly_world init))
  = [("POST", "https://api/api/v1/fantasy/yahoo/callback");
     ("POST", "https://api/api/v1/leagues/connect/yahoo");
     ("GET", "https://api/api/v1/leagues/")].
Proof.
  rewrite (proj1 (yahoo_callback_pipeline "https://api" (fun _ => "{}") (fun _ => "")
                    "ABC123" (Some "xyz") (Some "jwt") friendly_world init
                    (not_elem_of_empty _))).
  reflexivity.
Defined.

(** X21.  Removing a league.  Without the user's confirmation nothing is sent
    and nothing changes.  With it, one DELETE goes to the league's
    address, and the list of leagues is fetched again only when the
    DELETE was answered ok (and the session has a token); the processed
    codes and their timers are not touched, and [loading] ends false. *)
Theorem deleteLeague_requests (BASE_URL : string) (toString : jsvalue -> string)
    (leagueId : string) (token : option string) (w : World) (st : State) :
  deleteLeague BASE_URL toString false leagueId token w st = st
  /\ let st' := deleteLeague BASE_URL toString true leagueId token w st in
     let delete := delete_request BASE_URL leagueId token in
     sent st' =
       (sent st ++
        map (pair (now st))
          (delete ::
           (if match fetch w delete with Ok r => ok r | Throw _ => false end
                 && has_token token
            then [leagues_request BASE_URL token] else [])))%list
     /\ core st' = core st
     /\ loading st' = false.
Proof.
  split; [reflexivity|]. intros st' delete. subst st'. unfold deleteLeague.
  cbn [negb]. cbv zeta. fold (delete_request BASE_URL leagueId token). fold delete.
  assert (forall s, sent (set_loading false s) = sent s) as Eo by reflexivity.
  assert (forall e, sent (set_error e (log_request delete (set_loading true st)))
          = (sent st ++ [(now st, delete)])%list) as Ef by reflexivity.
  split; [|split; [|reflexivity]].
  - rewrite Eo. destruct (fetch w delete) as [r|e]; [|apply Ef].
    destruct (ok r); cbn [andb].
    + rewrite sent_set_error, fetchLeagues_sent.
      change (sent (log_request delete (set_loading true st)))
        with (sent st ++ [(now st, delete)])%list.
      change (now (log_request delete (set_loading true st))) with (now st).
      rewrite <- app_assoc. cbn [map app]. destruct (has_token token); reflexivity.
    + destruct (json r) as [d|e]; [|apply Ef]. destruct (get d "detail"); apply Ef.
  - destruct (fetch w delete) as [r|e]; [|reflexivity].
    destruct (ok r).
    + rewrite core_set_loading, core_set_error, fetchLeagues_core. reflexivity.
    + destruct (json r) as [d|e]; [|reflexivity]. destruct (get d "detail"); reflexivity.
Qed.

End YahooPipeline.

Section YahooManual.
Import JsString Js Yahoo YahooAux YahooPanel YahooExpiry Samples.
Local Open Scope string_scope.

(** X22.  Pasting the callback URL.  The token exchange is requested only when
    every guard passes: the text is not blank, it parses as a URL, the
    URL carries a non-empty [code], and that code is not in the
    processed set; then exactly the exchange of that code is recorded,
    the manual panel is closed and the text cleared.  In every other
    case no exchange is requested and nothing at all is sent. *)
Theorem manual_callback_guards (BASE_URL : string)
    (JSON_stringify toString : jsvalue -> string)
    (URL_searchParams : jsstring -> result (string -> option string))
    (token : option string) (w : World) (p : Panel) :
  let p' := processManualCallback BASE_URL JSON_stringify toString URL_searchParams
              token w p in
  (exchanges (relay p') = exchanges (relay p) /\ sent (relay p') = sent (relay p))
  \/ exists (params : string -> option string) (code : string),
       truthy (trim (callbackUrl p)) = true
       /\ URL_searchParams (callbackUrl p) = Ok params
       /\ params "code" = Some code /\ code <> ""
       /\ (code ∉ processedCodes (relay p))
       /\ exchanges (relay p') = (exchanges (relay p) ++ [(now (relay p), code)])%list
       /\ (code ∈ processedCodes (relay p'))
       /\ showManualAuth (relay p') = false
       /\ loading (relay p') = false
       /\ callbackUrl p' = [].
Proof.
  intros p'. subst p'. unfold processManualCallback.
  destruct (truthy (trim (callbackUrl p))) eqn:Eb; cbn [negb]; [|left; split; reflexivity].
  cbv zeta. destruct (URL_searchParams (callbackUrl p)) as [params|e] eqn:Eu;
    [|left; split; reflexivity].
  destruct (params "code") as [code|] eqn:Ec; [|left; split; reflexivity].
  unfold str_truthy. destruct (String.eqb_spec code "") as [|Hne]; cbn [negb];
    [left; split; reflexivity|].
  set (st1 := set_error None (set_loading true (relay p))).
  destruct (decide (code ∈ processedCodes (relay p))) as [Hin|Hn].
  - left. rewrite (callback_blocked BASE_URL JSON_stringify toString code
                     (params "state") token w st1 Hin).
    split; reflexivity.
  - right. exists params, code.
    pose proof (callback_accepted BASE_URL JSON_stringify toString code
                  (params "state") token w st1 Hn) as Hc.
    unfold core in Hc. injection Hc as En Ep Et Ee.
    set (st2 := handleYahooCallback BASE_URL JSON_stringify toString code
                  (params "state") token w st1) in *.
    cbn [relay callbackUrl].
    change (exchanges (set_loading false (set_manual false st2))) with (exchanges st2).
    change (processedCodes (set_loading false (set_manual false st2)))
      with (processedCodes st2).
    change (showManualAuth (set_loading false (set_manual false st2))) with false.
    change (loading (set_loading false (set_manual false st2))) with false.
    rewrite Ee, Ep.
    split; [first [reflexivity|assumption]|]. split; [first [reflexivity|assumption]|].
    split; [first [reflexivity|assumption]|].
    split; [exact Hne|]. split; [exact Hn|]. split; [reflexivity|].
    split; [apply elem_of_union_l, elem_of_singleton; reflexivity|].
    repeat split.
Qed.

Lemma forgettable_core (st st' : State) :
  core st' = core st -> forgettable st -> forgettable st'.
Proof.
  unfold core, forgettable. intros [= En Ep Et Ee] H code Hc.
  rewrite Ep in Hc. rewrite En, Et. exact (H code Hc).
Qed.

Lemma forgettable_step (BASE_URL : string) (JSON_stringify toString : jsvalue -> string)
    (st : State) (e : event) :
  forgettable st -> forgettable (step BASE_URL JSON_stringify toString st e).
Proof.
  intros H. destruct e as [code state token w|token w|dt|k]; cbn [step].
  - destruct (decide (code ∈ processedCodes st)) as [Hin|Hn].
    + rewrite callback_blocked by exact Hin. exact H.
    + pose proof (callback_accepted BASE_URL JSON_stringify toString code state token
                    w st Hn) as Hc.
      unfold core in Hc. injection Hc as En Ep Et Ee.
      intros c Hc. rewrite Ep in Hc. rewrite En, Et.
      apply elem_of_union in Hc as [Hc|Hc].
      * apply elem_of_singleton in Hc. subst c.
        exists (length (timers st)), (now st + EXPIRY)%N. split; [|lia].
        rewrite lookup_app_r by lia. rewrite Nat.sub_diag. reflexivity.
      * destruct (H c Hc) as (i & due & Hi & Hd). exists i, due. split; [|exact Hd].
        apply lookup_app_l_Some. exact Hi.
  - apply (forgettable_core st); [apply handleMessage_core|exact H].
  - intros c Hc. destruct (H c Hc) as (i & due & Hi & Hd). exists i, due.
    split; [exact Hi|]. cbn. lia.
  - unfold expire. destruct (timers st !! k) as [[due code]|] eqn:Hk; [|exact H].
    destruct (N.leb_spec due (now st)) as [Hdue|Hdue]; [|exact H].
    intros c Hc. cbn in Hc. apply elem_of_difference in Hc as [Hc Hne].
    destruct (H c Hc) as (i & d & Hi & Hd). cbn.
    assert (i <> k) as Hik.
    { intros ->. rewrite Hk in Hi. injection Hi as _ ->. apply Hne.
      apply elem_of_singleton. reflexivity. }
    destruct (Nat.lt_ge_cases i k) as [Hlt|Hge].
    + exists i, d. rewrite list_lookup_delete_lt by exact Hlt. split; assumption.
    + exists (i - 1), d. rewrite list_lookup_delete_ge by lia.
      replace (S (i - 1)) with i by lia. split; assumption.
Qed.

(** X23.  No code stays blocked for ever.  In every run of the component, each
    code in the processed set has a pending timer, due within 300000 ms,
    that is armed to forget it; when such a timer fires at or after its
    due time the code leaves the set, and when no timer is pending the
    set is empty. *)
Theorem processed_codes_expire (BASE_URL : string)
    (JSON_stringify toString : jsvalue -> string) (es : list event) :
  let st := run BASE_URL JSON_stringify toString init es in
  (forall code : string, code ∈ processedCodes st ->
     exists (i : nat) (due : N),
       timers st !! i = Some (due, code) /\ (due <= now st + 300000)%N)
  /\ (forall (k : nat) (due : N) (code : string),
        timers st !! k = Some (due, code) -> (due <= now st)%N ->
        code ∉ processedCodes (expire k st))
  /\ (timers st = [] -> processedCodes st = ∅).
Proof.
  intros st.
  assert (forgettable st) as H.
  { subst st. unfold run.
    assert (forgettable init) as H0 by (intros c Hc; apply elem_of_empty in Hc; contradiction).
    revert H0. generalize init as s. induction es as [|e es IH]; intros s Hs; [exact Hs|].
    cbn [fold_left]. apply IH, forgettable_step, Hs. }
  repeat split.
  - exact H.
  - intros k due code Hk Hdue. unfold expire. rewrite Hk.
    destruct (N.leb_spec due (now st)); [|lia]. cbn. intros Hc.
    apply elem_of_difference in Hc as [_ Hc]. apply Hc, elem_of_singleton. reflexivity.
  - intros Ht. apply elem_of_equiv_empty_L. intros c Hc.
    destruct (H c Hc) as (i & due & Hi & _). rewrite Ht, lookup_nil in Hi. discriminate.
Qed.

End YahooManual.

Section YahooRefusal.
Import JsString Js Yahoo YahooAux YahooPanel YahooSamples.
Local Open Scope string_scope.

(** X24.  A refused exchange.  When the token exchange is answered with an
    error status and a body whose [detail] is a non-empty text, that
    text becomes the error shown, unless it mentions an expired
    authorization code or [invalid_grant]: then the fixed advice to
    connect again is shown instead.  No import is requested, and
    [loading] and [connectingYahoo] end false. *)
Theorem refused_exchange_message (BASE_URL : string)
    (JSON_stringify toString : jsvalue -> string)
    (code : string) (state token : option string) (w : World) (st : State)
    (r : Response) (body : jsvalue) (detail : string) :
  code ∉ processedCodes st ->
  fetch w (exchange_request BASE_URL JSON_stringify code state token) = Ok r ->
  ok r = false -> json r = Ok body ->
  get body "detail" = Ok (JStr detail) -> detail <> "" ->
  let st' := handleYahooCallback BASE_URL JSON_stringify toString code state token w st in
  error st' =
    Some (JStr (if includes detail "Authorization code expired"
                   || includes detail "invalid_grant"
                then EXPIRED_MESSAGE else detail))
  /\ sent st' =
     (sent st ++ [(now st, exchange_request BASE_URL JSON_stringify code state token)])%list
  /\ loading st' = false /\ connectingYahoo st' = false.
Proof.
  intros Hn Hf Hok Hj Hd Hne st'. split; [|split].
  - subst st'. unfold handleYahooCallback.
    destruct (decide (code ∈ processedCodes st)); [contradiction|]. cbv zeta.
    fold (exchange_request BASE_URL JSON_stringify code state token).
    rewrite Hf, Hj, Hok. cbn [js_truthy].
    assert (refusal body
            = Ok (JStr (if includes detail "Authorization code expired"
                           || includes detail "invalid_grant"
                        then EXPIRED_MESSAGE else detail))) as ->.
    { unfold refusal. rewrite Hd.
      assert (js_truthy (JStr detail) = true) as Ht.
      { cbn. destruct (String.eqb_spec detail ""); [contradiction|reflexivity]. }
      assert (exists m, get body "message" = Ok m) as [m ->].
      { destruct body; try discriminate Hd; cbn; eauto.
        destruct (List.find _ fields); eauto. }
      unfold js_or. rewrite !Ht.
      destruct (includes detail "Authorization code expired"
                || includes detail "invalid_grant"); reflexivity. }
    reflexivity.
  - subst st'. rewrite (handleYahooCallback_sent _ _ _ _ _ _ _ _ Hn).
    unfold accepted. rewrite Hf, Hok. reflexivity.
  - subst st'. unfold handleYahooCallback.
    destruct (decide (code ∈ processedCodes st)); [contradiction|]. split; reflexivity.
Qed.

Lemma refused_exchange_message_witness :
  error (handleYahooCallback "https://api" (fun _ => "{}") (fun _ => "") "ABC123"
           (Some "xyz") (Some "jwt") refusing_world init)
  = Some (JStr EXPIRED_MESSAGE).
Proof.
  refine (proj1 (refused_exchange_message "https://api" (fun _ => "{}") (fun _ => "")
                   "ABC123" (Some "xyz") (Some "jwt") refusing_world init _ _
                   "Token exchange failed: invalid_grant" _ eq_refl eq_refl eq_refl
                   eq_refl _)).
  - apply not_elem_of_empty.
  - discriminate.
Defined.

End YahooRefusal.

(** ** More on the WebSocket hook *)

Section WebSocketMore.
Import Js WebSocketHook WebSocketAux LeagueSync.

Lemma idle_step (enabled user : bool) (attempts : nat) (interval : N)
    (construct_error : option string) (st : State) (e : event) :
  enabled && user = false ->
  idle st -> idle (step enabled user attempts interval construct_error st e).
Proof.
  intros Hd (Hs & Hw & Ht & Hc & Hsch).
  assert (connect enabled user construct_error st = st) as Econn.
  { unfold connect. destruct enabled, user; try discriminate; reflexivity. }
  destruct e as [| |i|i code|i|i parsed|dt|id]; cbn [step].
  - rewrite Econn. repeat split; assumption.
  - unfold disconnect, idle. cbn. rewrite Hw, Hs, Ht. destruct (reconnectTimeoutRef st);
      repeat split; try reflexivity; assumption.
  - unfold onopen. rewrite Hs. cbn. repeat split; assumption.
  - unfold onclose. rewrite Hs. cbn. repeat split; assumption.
  - unfold onerror, idle. cbn. repeat split; assumption.
  - unfold onmessage, idle. destruct parsed; cbn; repeat split; assumption.
  - unfold advance, idle. cbn. repeat split; assumption.
  - unfold fire. rewrite Ht. cbn. repeat split; assumption.
Qed.

Lemma idle_run (enabled user : bool) (attempts : nat) (interval : N)
    (construct_error : option string) (es : list event) :
  enabled && user = false ->
  forall st, idle st -> idle (run enabled user attempts interval construct_error st es).
Proof.
  intros Hd. induction es as [|e es IH]; intros st H; [exact H|].
  cbn [run fold_left]. apply IH, idle_step; assumption.
Qed.

(** X25.  A hook that is disabled, or that has no signed-in user, never
    creates a socket, whatever happens: it never reports a connection,
    schedules no reconnection, and [sendMessage] sends nothing and
    returns false. *)
Theorem websocket_off_stays_closed (enabled user : bool) (attempts : nat) (interval : N)
    (construct_error : option string) (JSON_stringify : jsvalue -> string)
    (es : list event) (message : jsvalue) :
  enabled && user = false ->
  let st := run enabled user attempts interval construct_error init es in
  sockets st = [] /\ isConnected st = false /\ scheduled st = []
  /\ sendMessage JSON_stringify message st = (false, None).
Proof.
  intros Hd st.
  destruct (idle_run enabled user attempts interval construct_error es Hd init)
    as (Hs & Hw & Ht & Hc & Hsch); [repeat split|].
  fold st in Hs, Hw, Ht, Hc, Hsch. repeat split; try assumption.
  unfold sendMessage, is_open. rewrite Hw. reflexivity.
Qed.

Lemma websocket_off_witness :
  sockets (run true false 5 3000 None init [Connect; Advance 3000; Fire 1; Connect]) = [].
Proof.
  refine (proj1 (websocket_off_stays_closed true false 5 3000 None Samples.show_body
                   [Connect; Advance 3000; Fire 1; Connect] JNull _)).
  reflexivity.
Defined.

Lemma some_open_insert (st : State) (i j : nat) (s : readyState) (l : list readyState) :
  l !! i = Some OPEN -> j <> i -> <[j := s]> l !! i = Some OPEN.
Proof. intros H Hne. rewrite list_lookup_insert_ne by exact Hne. exact H. Qed.





End WebSocketMore.

Section LeagueSyncFacts.
Import Js WebSocketHook LeagueSync.
Local Open Scope string_scope.

Lemma same_key_str (a : key) (s : string) :
  same_key a (Some (JStr s)) = true <-> a = Some (JStr s).
Proof.
  split.
  - destruct a as [[|b|z|x|l|f]|]; cbn; try discriminate.
    intros H. apply String.eqb_eq in H. congruence.
  - intros ->. cbn. apply String.eqb_refl.
Qed.

Lemma map_get_set_same (s : string) (v : jsvalue) (m : statuses) :
  map_get (Some (JStr s)) (map_set (Some (JStr s)) v m) = Some v.
Proof.
  induction m as [|[k' v'] m IH]; cbn [map_set map_get].
  - cbn. rewrite String.eqb_refl. reflexivity.
  - destruct (same_key k' (Some (JStr s))) eqn:E; cbn [map_get]; rewrite E; [reflexivity|exact IH].
Qed.

Lemma map_get_set_other (s other : string) (v : jsvalue) (m : statuses) :
  other <> s ->
  map_get (Some (JStr other)) (map_set (Some (JStr s)) v m) = map_get (Some (JStr other)) m.
Proof.
  intros Hne. induction m as [|[k' v'] m IH]; cbn [map_set map_get].
  - cbn. destruct (String.eqb_spec s other); [congruence|reflexivity].
  - destruct (same_key k' (Some (JStr s))) eqn:E; cbn [map_get].
    + apply same_key_str in E. subst k'. cbn.
      destruct (String.eqb_spec s other); [congruence|reflexivity].
    + rewrite IH. reflexivity.
Qed.

Lemma map_set_length (k : key) (v : jsvalue) (m : statuses) :
  length (map_set k v m) =
  match map_get k m with Some _ => length m | None => S (length m) end.
Proof.
  induction m as [|[k' v'] m IH]; cbn [map_set map_get]; [reflexivity|].
  destruct (same_key k' k); cbn [length]; [reflexivity|].
  rewrite IH. destruct (map_get k m); reflexivity.
Qed.

(** X27.  The table of sync statuses keeps the latest status of each league.
    A message that is no [league_sync_update] leaves the table as it is.
    An update whose data names a league replaces that league's entry
    with its data, or adds one when the league had none, and touches the
    entry of no other league. *)
Theorem league_sync_keeps_latest (lastMessage : option jsvalue) (prev : statuses) :
  (is_sync_update lastMessage = false -> syncEffect lastMessage prev = Ok prev)
  /\ forall (m data : jsvalue) (league : string),
       lastMessage = Some m -> is_sync_update lastMessage = true ->
       prop m "data" = Ok (Some data) ->
       prop data "league_id" = Ok (Some (JStr league)) ->
       exists next : statuses,
         syncEffect lastMessage prev = Ok next
         /\ map_get (Some (JStr league)) next = Some data
         /\ (forall other : string, other <> league ->
               map_get (Some (JStr other)) next = map_get (Some (JStr other)) prev)
         /\ length next =
            match map_get (Some (JStr league)) prev with
            | Some _ => length prev
            | None => S (length prev)
            end.
Proof.
  split.
  - intros H. unfold syncEffect. rewrite H. reflexivity.
  - intros m data league -> Hs Hd Hl. unfold syncEffect. rewrite Hs, Hd, Hl.
    eexists. split; [reflexivity|]. split; [apply map_get_set_same|].
    split; [intros other Hne; apply map_get_set_other, Hne|apply map_set_length].
Qed.

End LeagueSyncFacts.

(** ** More on the editor *)

Section EditorSaves.
Import JsString Editor EditorLog.

Lemma saves_autoSaveEffect (st : State) : saves (autoSaveEffect st) = saves st.
Proof. unfold autoSaveEffect. destruct (hasUnsavedChanges st); reflexivity. Qed.

Lemma saves_initEffect (st : State) : saves (initEffect st) = saves st.
Proof.
  unfold initEffect. destruct (recap_content st) as [c|]; [|reflexivity].
  destruct (editorState st); [|reflexivity]. destruct (truthy c); reflexivity.
Qed.

Lemma saves_effects (st : State) : saves (effects st) = saves st.
Proof. unfold effects. rewrite saves_initEffect. apply saves_autoSaveEffect. Qed.

Lemma filled_handleAutoSave (c : Closure) (st : State) :
  Forall (fun s => filled s = true) (saves st) ->
  Forall (fun s => filled s = true) (saves (handleAutoSave c st)).
Proof.
  intros H. unfold handleAutoSave. destruct (autosave_guard c) eqn:G; [|exact H].
  cbn [saves]. apply Forall_app. split; [exact H|]. constructor; [|constructor].
  unfold autosave_guard in G. apply andb_prop in G as [G Hc]. apply andb_prop in G as [_ Ht].
  unfold filled. cbn. rewrite Ht, Hc. reflexivity.
Qed.

Lemma filled_step (st : State) (e : event) :
  Forall (fun s => filled s = true) (saves st) ->
  Forall (fun s => filled s = true) (saves (step st e)).
Proof.
  intros H. destruct e as [t h|v| |k b|id| |b| |dt]; cbn [step].
  - unfold onEditorUpdate. destruct (mounted st); exact H.
  - unfold typeTitle. destruct (negb (mounted st) || isLoading st); [exact H|].
    rewrite saves_effects. exact H.
  - unfold clickSave. destruct (mounted st); cbn [negb orb]; [|exact H].
    destruct (saveDisabled st) eqn:D; [exact H|]. rewrite saves_effects.
    unfold saveDisabled in D. apply orb_false_elim in D as [D Hc].
    apply orb_false_elim in D as [_ Ht]. apply negb_false_iff in Hc, Ht.
    unfold handleSave. rewrite Ht. cbn [negb saves].
    apply Forall_app. split; [exact H|]. constructor; [|constructor].
    unfold filled. cbn. rewrite Ht, Hc. reflexivity.
  - unfold settle. destruct (inflight st !! k); exact H.
  - unfold fire. destruct (List.find _ (timers st)) as [t|]; [|exact H].
    destruct (t_due t <=? now st)%N; [|exact H].
    apply filled_handleAutoSave. exact H.
  - unfold rerender. destruct (mounted st); [|exact H]. rewrite saves_effects. exact H.
  - unfold setLoading. destruct (mounted st); exact H.
  - unfold unmount. destruct (mounted st); exact H.
  - exact H.
Qed.

(** X28.  Nothing blank is ever saved: in every run of the editor, each call
    of [onSave], automatic or manual, carries a title and a text that
    both hold something other than white space. *)
Theorem editor_saves_nothing_blank (recap_title recap_content : option jsstring)
    (loading : bool) (es : list event) :
  Forall (fun s => nonblank (s_title s) = true /\ nonblank (s_content s) = true)
    (saves (run (init recap_title recap_content loading) es)).
Proof.
  assert (Forall (fun s => filled s = true)
            (saves (run (init recap_title recap_content loading) es))) as H.
  { unfold run.
    assert (Forall (fun s => filled s = true)
              (saves (init recap_title recap_content loading))) as H0.
    { unfold init. rewrite saves_effects. constructor. }
    revert H0. generalize (init recap_title recap_content loading) as st.
    induction es as [|e es IH]; intros st H; [exact H|]. cbn [fold_left].
    apply IH, filled_step, H. }
  eapply Forall_impl; [exact H|]. intros s Hs. unfold filled in Hs.
  apply andb_prop in Hs. exact Hs.
Qed.

End EditorSaves.

Section EditorOpening.
Import JsString Editor EditorAux.

Lemma quiet_init (recap_title recap_content : option jsstring) (loading : bool) :
  quiet (init recap_title recap_content loading)
  /\ saves (init recap_title recap_content loading) = [].
Proof.
  unfold init. apply quiet_effects.
  - reflexivity.
  - right. reflexivity.
  - constructor.
Qed.

(** X29.  Opening the editor saves nothing by itself.  Until the text or the
    title is edited (or a save fails), no automatic save is made,
    whatever else happens: the recap's content being loaded, renders,
    timers, time passing, clicks on Save, the loading flag, unmounting. *)
Theorem no_autosave_before_edit (recap_title recap_content : option jsstring)
    (loading : bool) (es : list event) :
  Forall (fun e => disturbs e = false) es ->
  auto_saves (saves (run (init recap_title recap_content loading) es)) = [].
Proof.
  intros Hes. destruct (quiet_init recap_title recap_content loading) as [Hq Es].
  rewrite (quiet_run es _ (timing_init recap_title recap_content loading) Hes Hq).
  rewrite Es. reflexivity.
Qed.

Lemma no_autosave_before_edit_witness :
  auto_saves
    (saves (run (init (Some (lit "Week 1")) (Some (lit "What a week")) false)
              [Rerender; Advance 2000; Fire 1; ClickSave; Advance 2000; Rerender]))
  = [].
Proof.
  apply (no_autosave_before_edit (Some (lit "Week 1")) (Some (lit "What a week")) false).
  repeat constructor.
Defined.

End EditorOpening.
